(** * Webtiles server configuration ([webserver/conf.py])

    A shallow embedding of the [Conf] class: the configuration loader
    ([load], [load_player_titles], [load_janitor_commands], [load_games],
    [_load_game_data], [_load_game_conf_dir], [_load_game_map]) and its
    accessors ([get_devname], [_get_player_title], [is_server_admin],
    [is_server_janitor], [get_nerd], [get_game], [game_map]).

    The [Conf] object, the dict objects it shares with the parsed document
    and the process log are an explicit state; a Python exception (and
    [sys.exit], which raises [SystemExit]) is a [Raise] result that leaves
    the state as it was at the raise. *)

From stdpp Require Import gmap strings list fin_maps sorting.
From Stdlib Require Import ZArith Ascii.

Local Open Scope list_scope.
Local Open Scope stdpp_scope.

(** ** Python values *)

(** The values a parsed TOML document holds (strings, integers, booleans,
    arrays, tables) and the [set] of strings the loader attaches to a
    janitor command.  Floats and dates are not modelled. *)
#[warnings="-register-all"]
Inductive value : Type :=
| VStr (s : string)
| VInt (n : Z)
| VBool (b : bool)
| VList (l : list value)
| VTable (t : list (string * value))
| VSet (s : gset string).

(** A dict object with string keys: a game or a janitor-command
    definition. *)
Abbreviation table := (gmap string value).

(** Truth value of an object (what [if x:] tests). *)
Definition truthy (v : value) : bool :=
  match v with
  | VStr s => negb (String.eqb s "")
  | VInt n => negb (Z.eqb n 0)
  | VBool b => b
  | VList l => match l with [] => false | _ => true end
  | VTable t => match t with [] => false | _ => true end
  | VSet s => negb (bool_decide (s = ∅))
  end.

Fixpoint assoc_lookup {A} (k : string) (t : list (string * A)) : option A :=
  match t with
  | [] => None
  | (k', v) :: t' => if String.eqb k k' then Some v else assoc_lookup k t'
  end.

(** [v == w].  Python compares [bool] as the integers 0 and 1, lists
    element by element and dicts by key. *)
Fixpoint py_eq (v w : value) {struct v} : bool :=
  match v, w with
  | VStr a, VStr b => String.eqb a b
  | VInt a, VInt b => Z.eqb a b
  | VBool a, VBool b => Bool.eqb a b
  | VInt a, VBool b => Z.eqb a (Z.b2z b)
  | VBool a, VInt b => Z.eqb (Z.b2z a) b
  | VList l, VList l' =>
      (fix go (l : list value) (l' : list value) {struct l} : bool :=
         match l, l' with
         | [], [] => true
         | x :: r, y :: r' => py_eq x y && go r r'
         | _, _ => false
         end) l l'
  | VTable t, VTable t' =>
      Nat.eqb (length t) (length t') &&
      (fix go (t : list (string * value)) {struct t} : bool :=
         match t with
         | [] => true
         | (k, x) :: r =>
             match assoc_lookup k t' with
             | Some y => py_eq x y && go r
             | None => false
             end
         end) t
  | VSet a, VSet b => bool_decide (a = b)
  | _, _ => false
  end.

(** Hashable values as dict keys.  [True] and [1] (and [False] and [0])
    are the same key; lists, dicts and sets are unhashable. *)
Inductive hkey : Type :=
| KStr (s : string)
| KInt (n : Z).

#[global] Instance hkey_eq_dec : EqDecision hkey.
Proof. solve_decision. Defined.

(** ** Exceptions and the log *)

Inductive exn : Type :=
| SystemExit (code : Z)
| ValueError
| KeyError
| IndexError
| TypeError
| AttributeError (name : string).

#[global] Instance exn_eq_dec : EqDecision exn.
Proof. solve_decision. Defined.

Definition py_hash (v : value) : exn + hkey :=
  match v with
  | VStr s => inr (KStr s)
  | VInt n => inr (KInt n)
  | VBool b => inr (KInt (Z.b2z b))
  | VList _ | VTable _ | VSet _ => inl TypeError
  end.

Inductive level : Type := DEBUG | INFO | WARNING | ERROR.

(** One call of [logging.<level>(fmt.format(args))]: the format string and
    its arguments, in order. *)
Record log_record : Type := LogRecord {
  log_level : level;
  log_format : string;
  log_args : list value
}.

(** ** Strings *)

(** [str.lower()] on ASCII: the letters A to Z are shifted, every other
    character is kept. *)
Definition lower_ascii (c : ascii) : ascii :=
  let n := nat_of_ascii c in
  if Nat.leb 65 n && Nat.leb n 90 then ascii_of_nat (n + 32) else c.

Fixpoint lower (s : string) : string :=
  match s with
  | EmptyString => EmptyString
  | String c r => String (lower_ascii c) (lower r)
  end.

(** ** Dicts *)

(** A Python dict with hashable keys, as the list of its items in the order
    the keys were first inserted.  Assigning to a present key replaces its
    value in place. *)
Definition pydict (V : Type) : Type := list (hkey * V).

Section pydict.
Context {V : Type}.

Fixpoint dict_get (k : hkey) (d : pydict V) : option V :=
  match d with
  | [] => None
  | (k', v) :: d' => if decide (k = k') then Some v else dict_get k d'
  end.

Definition dict_mem (k : hkey) (d : pydict V) : bool :=
  match dict_get k d with Some _ => true | None => false end.

Fixpoint dict_set (k : hkey) (v : V) (d : pydict V) : pydict V :=
  match d with
  | [] => [(k, v)]
  | (k', v') :: d' =>
      if decide (k = k') then (k', v) :: d' else (k', v') :: dict_set k v d'
  end.
End pydict.

(** ** Library functions the loader calls *)

(** [csv.reader(fh, delimiter=" ", quoting=csv.QUOTE_NONE)] on one line
    (without its line end): the fields between single spaces, no quote or
    escape processing; an empty line is the empty row. *)
Fixpoint split_fields (sep : ascii) (s : string) : list string :=
  match s with
  | EmptyString => [EmptyString]
  | String c r =>
      if Ascii.eqb c sep then EmptyString :: split_fields sep r
      else match split_fields sep r with
           | f :: fs => String c f :: fs
           | [] => [String c EmptyString]
           end
  end.

Definition csv_row (line : string) : list string :=
  match line with
  | EmptyString => []
  | _ => split_fields " "%char line
  end.

Definition csv_reader (lines : list string) : list (list string) :=
  csv_row <$> lines.

(** [sorted(paths)]: strings compare character by character. *)
Definition sorted (l : list string) : list string := merge_sort String.le l.

(** *** [string.Formatter().parse]

    The iterator yields one tuple [(literal_text, field_name, format_spec,
    conversion)] per stretch of literal text and replacement field.  A
    doubled brace ends a literal stretch (which then holds one brace) with
    no field; a replacement field runs to its matching closing brace and
    its field name is the text before the first [!] or [:].  The iterator
    is lazy: a malformed template raises [ValueError] after the tuples
    before the defect have been yielded. *)
Record token : Type := Token {
  literal_text : string;
  field_name : option string;
  format_spec : option string;
  conversion : option ascii
}.

Definition snoc (s : string) (c : ascii) : string :=
  String.append s (String c EmptyString).

(** The text before the first [:] or [!], that character, and the text
    after it. *)
Fixpoint split_name (s : string) : string * option (ascii * string) :=
  match s with
  | EmptyString => (EmptyString, None)
  | String c r =>
      if Ascii.eqb c ":"%char || Ascii.eqb c "!"%char then
        (EmptyString, Some (c, r))
      else let '(n, k) := split_name r in (String c n, k)
  end.

(** The inside of a replacement field: [name], [name:spec], [name!c] or
    [name!c:spec]. *)
Definition parse_field (lit body : string) : exn + token :=
  match split_name body with
  | (name, None) => inr (Token lit (Some name) (Some EmptyString) None)
  | (name, Some (c, r)) =>
      if Ascii.eqb c "!"%char then
        match r with
        | EmptyString => inl ValueError
        | String conv EmptyString =>
            inr (Token lit (Some name) (Some EmptyString) (Some conv))
        | String conv (String c' spec) =>
            if Ascii.eqb c' ":"%char
            then inr (Token lit (Some name) (Some spec) (Some conv))
            else inl ValueError
        end
      else inr (Token lit (Some name) (Some r) None)
  end.

Inductive scan : Type :=
| InLiteral (lit : string)
| InField (lit : string) (depth : nat) (body : string).

Definition yield (t : token) (r : list token * option exn)
  : list token * option exn := (t :: r.1, r.2).

Fixpoint markup (st : scan) (s : string) {struct s}
  : list token * option exn :=
  match s with
  | EmptyString =>
      match st with
      | InLiteral EmptyString => ([], None)
      | InLiteral lit => ([Token lit None None None], None)
      | InField _ _ _ => ([], Some ValueError)
      end
  | String c r =>
      match st with
      | InLiteral lit =>
          if Ascii.eqb c "{"%char then
            match r with
            | EmptyString => ([], Some ValueError)
            | String c' r' =>
                if Ascii.eqb c' "{"%char then
                  yield (Token (snoc lit c) None None None)
                        (markup (InLiteral EmptyString) r')
                else markup (InField lit 1 EmptyString) r
            end
          else if Ascii.eqb c "}"%char then
            match r with
            | EmptyString => ([], Some ValueError)
            | String c' r' =>
                if Ascii.eqb c' "}"%char then
                  yield (Token (snoc lit c) None None None)
                        (markup (InLiteral EmptyString) r')
                else ([], Some ValueError)
            end
          else markup (InLiteral (snoc lit c)) r
      | InField lit depth body =>
          if Ascii.eqb c "{"%char then
            markup (InField lit (S depth) (snoc body c)) r
          else if Ascii.eqb c "}"%char then
            match depth with
            | S (S d) => markup (InField lit (S d) (snoc body c)) r
            | _ =>
                match parse_field lit body with
                | inl e => ([], Some e)
                | inr t => yield t (markup (InLiteral EmptyString) r)
                end
            end
          else markup (InField lit depth (snoc body c)) r
      end
  end.

Definition formatter_parse (s : string) : list token * option exn :=
  markup (InLiteral EmptyString) s.

(** ** Iteration order of a dict

    [dict.iteritems] exists on Python 2 dicts only, and a Python 2 dict
    iterates in the order of its hash-table slots, not in insertion order.
    The accessors that loop over a dict ([get_game], [get_devname]) take
    the iteration order as a parameter; [CPython27.iteritems] is the order
    of the reference interpreter, [insertion_order] the order of an
    insertion-ordered dict. *)
Definition dict_order : Type := ∀ V : Type, pydict V → pydict V.

Definition insertion_order : dict_order := λ V d, d.

Module CPython27.
(** A C [long] of 64 bits, two's complement. *)
Definition to_long (z : Z) : Z :=
  ((z + 2 ^ 63) mod 2 ^ 64 - 2 ^ 63)%Z.

Definition ord (c : ascii) : Z := Z.of_nat (nat_of_ascii c).

Fixpoint string_hash_loop (x : Z) (s : string) : Z :=
  match s with
  | EmptyString => x
  | String c r =>
      string_hash_loop (to_long (Z.lxor (to_long (1000003 * x)) (ord c))) r
  end.

(** [string_hash] of [Objects/stringobject.c], hash randomisation off. *)
Definition string_hash (s : string) : Z :=
  match s with
  | EmptyString => 0%Z
  | String c _ =>
      let x := string_hash_loop (Z.shiftl (ord c) 7) s in
      let x := Z.lxor x (Z.of_nat (String.length s)) in
      if Z.eqb x (-1) then (-2)%Z else x
  end.

(** Hash of a key; an [int] in the range of a C [long] hashes to
    itself. *)
Definition hash (k : hkey) : Z :=
  match k with
  | KStr s => string_hash s
  | KInt n => let x := to_long n in if Z.eqb x (-1) then (-2)%Z else x
  end.

(** The hash table: one slot per index, holding the position of an item
    in the insertion-ordered list, or nothing. *)
Definition slots : Type := list (option nat).

Fixpoint probe (fuel : nat) (tbl : slots) (mask i perturb : Z)
  : option nat :=
  match fuel with
  | O => None
  | S fuel' =>
      let i' := ((i * 5 + perturb + 1) mod 2 ^ 64)%Z in
      let s := Z.to_nat (Z.land i' mask) in
      match tbl !! s with
      | Some None => Some s
      | _ => probe fuel' tbl mask i' (Z.shiftr perturb 5)
      end
  end.

(** The free slot [lookdict] finds for a key that is not in the table. *)
Definition free_slot (tbl : slots) (h : Z) : option nat :=
  let size := Z.of_nat (length tbl) in
  let mask := (size - 1)%Z in
  let i := Z.land (h mod 2 ^ 64)%Z mask in
  match tbl !! Z.to_nat i with
  | Some None => Some (Z.to_nat i)
  | _ => probe (length tbl + 16) tbl mask i (h mod 2 ^ 64)%Z
  end.

Definition place (hashes : list Z) (tbl : slots) (item : nat) : slots :=
  match hashes !! item with
  | Some h =>
      match free_slot tbl h with
      | Some s => <[s := Some item]> tbl
      | None => tbl
      end
  | None => tbl
  end.

Definition used (tbl : slots) : nat :=
  length (omap id tbl).

Fixpoint new_size (fuel : nat) (size minused : nat) : nat :=
  match fuel with
  | O => size
  | S fuel' =>
      if Nat.leb size minused then new_size fuel' (2 * size) minused
      else size
  end.

(** [dictresize]: a table of the least power of two above [minused], the
    items reinserted in slot order. *)
Definition resize (hashes : list Z) (tbl : slots) (minused : nat)
  : slots :=
  foldl (place hashes) (replicate (new_size 64 8 minused) None)
        (omap id tbl).

(** [PyDict_SetItem] of a new key: insert, then grow when two thirds of
    the slots are filled. *)
Definition set_item (hashes : list Z) (tbl : slots) (item : nat)
  : slots :=
  let tbl' := place hashes tbl item in
  let n := used tbl' in
  if Nat.leb (2 * length tbl') (3 * n) then
    resize hashes tbl' ((if Z.ltb 50000 (Z.of_nat n) then 2 else 4) * n)
  else tbl'.

Definition layout (keys : list hkey) : slots :=
  foldl (set_item (hash <$> keys)) (replicate 8 None)
        (seq 0 (length keys)).

Definition iteritems : dict_order :=
  λ V d, omap (λ i : nat, d !! i) (omap id (layout (fst <$> d))).
End CPython27.

(** ** Documents and files *)

(** A parsed TOML document, by the top-level keys the loader reads; every
    key may be absent ([None]).  [O] is what an entry of an array of
    tables is: a [table] as parsed, an address once the entry is a dict
    object shared between the document and the [Conf] object.  Keys the
    loader does not read pass through and are not modelled; in particular
    the document has no key [admins], [janitors] or [player_titles]. *)
Module Doc.
Record t (O : Type) : Type := Make {
  server_admins : option (list string);
  server_janitors : option (list string);
  devteam_file : option string;
  devs_are_server_janitors : option bool;
  title_names : option (list string);
  player_title_file : option string;
  games_conf_d : option string;
  janitor_commands : option (list O);
  games : option (list O);
  maps : option value
}.
Arguments Make {O}.
Arguments server_admins {O}.
Arguments server_janitors {O}.
Arguments devteam_file {O}.
Arguments devs_are_server_janitors {O}.
Arguments title_names {O}.
Arguments player_title_file {O}.
Arguments games_conf_d {O}.
Arguments janitor_commands {O}.
Arguments games {O}.
Arguments maps {O}.

Definition empty {O} : t O :=
  Make None None None None None None None None None None.

Definition with_games {O} (g : option (list O)) (d : t O) : t O :=
  Make (server_admins d) (server_janitors d) (devteam_file d)
       (devs_are_server_janitors d) (title_names d) (player_title_file d)
       (games_conf_d d) (janitor_commands d) g (maps d).
End Doc.

(** [x] as a condition, for [x = self.get(key)]: an absent key gives
    [None], and [None], an empty list and an empty string are false. *)
Definition nonempty_list {A} (o : option (list A)) : bool :=
  match o with Some (_ :: _) => true | _ => false end.

Definition nonempty_str (o : option string) : bool :=
  match o with Some (String _ _) => true | _ => false end.

Definition is_true (o : option bool) : bool :=
  match o with Some true => true | _ => false end.

(** The files the loader reads.  [toml_load] is [toml.load] of a path (or
    of the file opened at it): [None] when it raises. *)
Record FileSystem : Type := {
  open_file : string → string + list string;
  toml_load : value → option (Doc.t table);
  isdir : string → bool;
  isfile : string → bool;
  glob_toml : string → list string
}.

(** ** The [Conf] object and the program state *)

Abbreviation loc := nat.

Record Conf : Type := {
  path : string;
  data : option (Doc.t loc);
  devteam : pydict (list string);
  admins : option (gset string);
  janitors : option (gset string);
  player_titles : option (pydict (list string));
  janitor_commands : pydict loc;
  games : pydict loc
}.

(** [heap] holds the dict objects of the game and janitor-command
    definitions, by address. *)
Record state : Type := {
  self : Conf;
  heap : list table;
  log : list log_record
}.

Definition new_conf (p : string) : Conf :=
  {| path := p; data := None; devteam := []; admins := None;
     janitors := None; player_titles := None; janitor_commands := [];
     games := [] |}.

Definition init_state (p : string) : state :=
  {| self := new_conf p; heap := []; log := [] |}.

Definition set_data (d : Doc.t loc) (c : Conf) : Conf :=
  {| path := path c; data := Some d; devteam := devteam c;
     admins := admins c; janitors := janitors c;
     player_titles := player_titles c;
     janitor_commands := janitor_commands c; games := games c |}.

Definition set_devteam (d : pydict (list string)) (c : Conf) : Conf :=
  {| path := path c; data := data c; devteam := d;
     admins := admins c; janitors := janitors c;
     player_titles := player_titles c;
     janitor_commands := janitor_commands c; games := games c |}.

Definition set_admins (a : gset string) (c : Conf) : Conf :=
  {| path := path c; data := data c; devteam := devteam c;
     admins := Some a; janitors := janitors c;
     player_titles := player_titles c;
     janitor_commands := janitor_commands c; games := games c |}.

Definition set_janitors (j : gset string) (c : Conf) : Conf :=
  {| path := path c; data := data c; devteam := devteam c;
     admins := admins c; janitors := Some j;
     player_titles := player_titles c;
     janitor_commands := janitor_commands c; games := games c |}.

Definition set_player_titles (t : pydict (list string)) (c : Conf) : Conf :=
  {| path := path c; data := data c; devteam := devteam c;
     admins := admins c; janitors := janitors c;
     player_titles := Some t;
     janitor_commands := janitor_commands c; games := games c |}.

Definition set_janitor_commands (j : pydict loc) (c : Conf) : Conf :=
  {| path := path c; data := data c; devteam := devteam c;
     admins := admins c; janitors := janitors c;
     player_titles := player_titles c;
     janitor_commands := j; games := games c |}.

Definition set_games (g : pydict loc) (c : Conf) : Conf :=
  {| path := path c; data := data c; devteam := devteam c;
     admins := admins c; janitors := janitors c;
     player_titles := player_titles c;
     janitor_commands := janitor_commands c; games := g |}.

(** ** The monad: state and exceptions *)

Inductive result (A : Type) : Type :=
| Ok (a : A)
| Raise (e : exn).
Arguments Ok {A}.
Arguments Raise {A}.

Definition M (A : Type) : Type := state → result A * state.

Definition ret {A} (a : A) : M A := λ s, (Ok a, s).

Definition bind {A B} (m : M A) (k : A → M B) : M B :=
  λ s, match m s with
       | (Ok a, s') => k a s'
       | (Raise e, s') => (Raise e, s')
       end.

Definition raise {A} (e : exn) : M A := λ s, (Raise e, s).

(** [try: m except e: h] for one exception class without arguments. *)
Definition try_except {A} (m : M A) (e : exn) (h : M A) : M A :=
  λ s, match m s with
       | (Raise e', s') => if decide (e' = e) then h s' else (Raise e', s')
       | r => r
       end.

Notation "'let*' x := m 'in' k" := (bind m (λ x, k))
  (at level 10, x name, m at level 100, k at level 200,
   format "'[v' 'let*'  x  :=  m  'in'  '/' k ']'").
Notation "m >> k" := (bind m (λ _, k))
  (at level 100, k at level 200, right associativity,
   format "'[v' m  >>  '/' k ']'").

Definition get_self : M Conf := λ s, (Ok (self s), s).

Definition modify_self (f : Conf → Conf) : M unit :=
  λ s, (Ok (), {| self := f (self s); heap := heap s; log := log s |}).

Definition logging (l : level) (fmt : string) (args : list value) : M unit :=
  λ s, (Ok (), {| self := self s; heap := heap s;
                  log := log s ++ [LogRecord l fmt args] |}).

(** [sys.exit(code)] *)
Definition sys_exit {A} (code : Z) : M A := raise (SystemExit code).

Definition lift {A} (r : exn + A) : M A :=
  match r with inl e => raise e | inr a => ret a end.

(** A new dict object. *)
Definition alloc (t : table) : M loc :=
  λ s, (Ok (length (heap s)),
        {| self := self s; heap := heap s ++ [t]; log := log s |}).

Fixpoint alloc_all (ts : list table) : M (list loc) :=
  match ts with
  | [] => ret []
  | t :: r => let* a := alloc t in let* l := alloc_all r in ret (a :: l)
  end.

(** The dict object at an address. *)
Definition deref (a : loc) : M table :=
  λ s, match heap s !! a with
       | Some t => (Ok t, s)
       | None => (Raise TypeError, s)
       end.

(** [obj[key] = v] on the dict object at [a]. *)
Definition setitem (a : loc) (key : string) (v : value) : M unit :=
  λ s, match heap s !! a with
       | Some t => (Ok (), {| self := self s;
                              heap := <[a := <[key := v]> t]> (heap s);
                              log := log s |})
       | None => (Raise TypeError, s)
       end.

(** [obj[key]]: [KeyError] when the key is absent. *)
Definition getitem (a : loc) (key : string) : M value :=
  let* t := deref a in
  match t !! key with
  | Some v => ret v
  | None => raise KeyError
  end.

(** [for x in l: body(x)] *)
Fixpoint for_each {A} (l : list A) (body : A → M unit) : M unit :=
  match l with
  | [] => ret ()
  | x :: r => body x >> for_each r body
  end.

Definition when (b : bool) (m : M unit) : M unit :=
  if b then m else ret ().

(** ** The loader *)

Section Loader.
Context (fs : FileSystem).

(** [self.get(key)], that is [self.data.get(key)]. *)
Definition get {A} (key : Doc.t loc → option A) : M (option A) :=
  let* c := get_self in
  match data c with
  | Some d => ret (key d)
  | None => raise (AttributeError "get")
  end.

(** [__getattr__(name)] for a name that is no key of the document:
    [self.data[name]] raises [KeyError], turned into [AttributeError]. *)
Definition getattr_missing {A} (name : string) : M A :=
  let* c := get_self in
  match data c with
  | Some _ => raise (AttributeError name)
  | None => raise TypeError
  end.

(** [self.admins], [self.janitors], [self.player_titles]: the instance
    attribute when it has been assigned, [__getattr__] otherwise. *)
Definition get_admins : M (gset string) :=
  let* c := get_self in
  match admins c with
  | Some a => ret a
  | None => getattr_missing "admins"
  end.

Definition get_janitors : M (gset string) :=
  let* c := get_self in
  match janitors c with
  | Some j => ret j
  | None => getattr_missing "janitors"
  end.

Definition get_player_titles : M (pydict (list string)) :=
  let* c := get_self in
  match player_titles c with
  | Some t => ret t
  | None => getattr_missing "player_titles"
  end.

(** The dict objects of a freshly parsed document. *)
Definition alloc_doc (d : Doc.t table) : M (Doc.t loc) :=
  let* cmds :=
    match Doc.janitor_commands d with
    | Some ts => let* l := alloc_all ts in ret (Some l)
    | None => ret None
    end in
  let* gs :=
    match Doc.games d with
    | Some ts => let* l := alloc_all ts in ret (Some l)
    | None => ret None
    end in
  ret (Doc.Make (Doc.server_admins d) (Doc.server_janitors d)
         (Doc.devteam_file d) (Doc.devs_are_server_janitors d)
         (Doc.title_names d) (Doc.player_title_file d)
         (Doc.games_conf_d d) cmds gs (Doc.maps d)).

(** The body of the loop over the rows of the title file. *)
Definition player_title_row (row : list string) : M unit :=
  match row with
  | [] => raise IndexError
  | r0 :: alts =>
      let* t := get_player_titles in
      modify_self
        (set_player_titles (dict_set (KStr (lower r0)) (lower <$> alts) t))
  end.

Definition load_player_titles : M unit :=
  let* title_names := get Doc.title_names in
  let* title_file := get Doc.player_title_file in
  if negb (nonempty_list title_names && nonempty_str title_file) then ret ()
  else
    let title_file := default EmptyString title_file in
    match open_file fs title_file with
    | inl strerror =>
        logging ERROR "Could not open player title file {0} ({1})"
                [VStr title_file; VStr strerror] >>
        sys_exit 1
    | inr lines =>
        modify_self (set_player_titles []) >>
        for_each (csv_reader lines) player_title_row
    end.

(** [cmd["params"].add(name)] *)
Definition params_add (cmd : loc) (name : string) : M unit :=
  let* p := getitem cmd "params" in
  match p with
  | VSet s => setitem cmd "params" (VSet (s ∪ {[name]}))
  | _ => raise (AttributeError "add")
  end.

Definition required_fields : list string :=
  ["id"; "name"; "action"; "argument"].

(** The check of one required field of a command. *)
Definition require_field (cmd : loc) (field : string) : M unit :=
  let* t := deref cmd in
  when (negb (bool_decide (is_Some (t !! field))))
    (logging ERROR "Janitor command entries must have {0} defined."
             [VStr field] >>
     sys_exit 1).

(** The body of the loop over the tokens of the argument template. *)
Definition add_param (cmd : loc) (tok : token) : M unit :=
  match field_name tok with
  | Some (String _ _ as name) => params_add cmd name
  | _ => ret ()
  end.

(** The body of the loop over the command definitions. *)
Definition load_janitor_command (cmd : loc) : M unit :=
  for_each required_fields (require_field cmd) >>
  setitem cmd "params" (VSet ∅) >>
  let* argument := getitem cmd "argument" in
  match argument with
  | VStr template =>
      let '(tokens, err) := formatter_parse template in
      for_each tokens (add_param cmd) >>
      match err with
      | Some e => raise e
      | None => ret ()
      end
  | _ => raise (AttributeError "_formatter_parser")
  end >>
  let* id := getitem cmd "id" in
  let* k := lift (py_hash id) in
  let* c := get_self in
  modify_self (set_janitor_commands (dict_set k cmd (janitor_commands c))).

Definition load_janitor_commands : M unit :=
  modify_self (set_janitor_commands []) >>
  let* cmds := get Doc.janitor_commands in
  if negb (nonempty_list cmds) then ret ()
  else for_each (default [] cmds) load_janitor_command.

(** The body of the loop over the rows of the devteam file. *)
Definition devteam_row (row : list string) : M unit :=
  match row with
  | [] => raise IndexError
  | r0 :: alts =>
      (* case is left intact on the primary account *)
      let* c := get_self in
      modify_self
        (set_devteam (dict_set (KStr r0) (lower <$> alts) (devteam c))) >>
      let* flag := get Doc.devs_are_server_janitors in
      when (is_true flag)
        (let* j := get_janitors in
         modify_self (set_janitors (j ∪ list_to_set row)))
  end.

Definition load : M unit :=
  modify_self (set_devteam []) >>
  let* c := get_self in
  match open_file fs (path c) with
  | inl strerror =>
      logging ERROR "Couldn't open config file {0} ({1})"
              [VStr (path c); VStr strerror] >>
      sys_exit 1
  | inr _ =>
      match toml_load fs (VStr (path c)) with
      | None =>
          logging ERROR "Couldn't parse config file {0} ({1})"
                  [VStr (path c)] >>
          sys_exit 1
      | Some d =>
          let* d' := alloc_doc d in
          modify_self (set_data d')
      end
  end >>
  (* locale.setlocale: the process locale is outside the model *)
  (* crawl usernames are case-insensitive *)
  let* server_admins := get Doc.server_admins in
  when (nonempty_list server_admins)
    (modify_self
       (set_admins (list_to_set (lower <$> default [] server_admins)))) >>
  let* server_janitors := get Doc.server_janitors in
  when (nonempty_list server_janitors)
    (modify_self
       (set_janitors (list_to_set (lower <$> default [] server_janitors)))) >>
  let* j := get_janitors in
  let* a := get_admins in
  modify_self (set_janitors (j ∪ a)) >>
  let* devteam_file := get Doc.devteam_file in
  when (nonempty_str devteam_file)
    (let devteam_file := default EmptyString devteam_file in
     match open_file fs devteam_file with
     | inl strerror =>
         logging ERROR "Could not open devteam file {0} ({1})"
                 [VStr devteam_file; VStr strerror] >>
         sys_exit 1
     | inr lines => for_each (csv_reader lines) devteam_row
     end) >>
  load_player_titles >>
  load_janitor_commands.

Definition _load_game_map (game : loc) : M unit :=
  let* t := deref game in
  if negb (bool_decide (is_Some (t !! "map_path"))) then ret ()
  else if negb (bool_decide (is_Some (t !! "score_path"))) then
    let* id := getitem game "id" in
    logging WARNING
      "Not parsing game map for game definition '{0}' because it has no score_path"
      [id]
  else
    let* map_path := getitem game "map_path" in
    match toml_load fs map_path with
    | None =>
        logging ERROR "Could not load game map file {0} ({1})" [map_path] >>
        sys_exit 1
    | Some d =>
        match Doc.maps d with
        | None =>
            logging ERROR "maps section missing from game map file {0}"
                    [map_path] >>
            sys_exit 1
        | Some m => setitem game "game_maps" m
        end
    end.

Definition _load_game_data (game : loc) : M unit :=
  let* id := getitem game "id" in
  let* k := lift (py_hash id) in
  let* c := get_self in
  if dict_mem k (games c) then raise ValueError
  else
    _load_game_map game >>
    let* c := get_self in
    modify_self (set_games (dict_set k game (games c))) >>
    logging INFO "Loaded game '{0}'" [id].

(** [self.data["games"].append(game)] *)
Definition data_games_append (game : loc) : M unit :=
  let* c := get_self in
  match data c with
  | Some d =>
      match Doc.games d with
      | Some l => modify_self (set_data (Doc.with_games (Some (l ++ [game])) d))
      | None => raise KeyError
      end
  | None => raise TypeError
  end.

(** The body of the loop over the games of a fragment file [f]. *)
Definition load_fragment_game (f : string) (game : loc) : M unit :=
  try_except
    (_load_game_data game >>
     (* so it can be sent to the client *)
     data_games_append game)
    ValueError
    (let* id := getitem game "id" in
     logging WARNING
       "Skipping duplicate definition '{0}' in game config file {1}"
       [id; VStr f]).

(** The body of the loop over the files of the directory. *)
Definition load_fragment_file (f : string) : M unit :=
  logging INFO "file {0}" [VStr f] >>
  if negb (isfile fs f) then
    logging WARNING "Skipping non-file {0}" [VStr f]
  else
    logging DEBUG "Loading {0}" [VStr f] >>
    match open_file fs f with
    | inl strerror =>
        logging WARNING "Unable to open game config file {0} ({1})"
                [VStr f; VStr strerror] >>
        sys_exit 1
    | inr _ =>
        match toml_load fs (VStr f) with
        | None =>
            logging ERROR "Could parse game config file {0} ({1})"
                    [VStr f] >>
            sys_exit 1
        | Some d =>
            match Doc.games d with
            | None =>
                logging WARNING
                  "No games specifications found in game config file {0}, skipping."
                  [VStr f]
            | Some gs =>
                let* gs := alloc_all gs in
                for_each gs (load_fragment_game f)
            end
        end
    end.

(** Load from the toml files in [games_conf_d]. *)
Definition _load_game_conf_dir : M unit :=
  let* conf_dir := get Doc.games_conf_d in
  if negb (nonempty_str conf_dir) then ret ()
  else
    let conf_dir := default EmptyString conf_dir in
    if negb (isdir fs conf_dir) then
      logging WARNING "games_conf_d is not a directory, ignoring" []
    else for_each (sorted (glob_toml fs conf_dir)) load_fragment_file.

(** The body of the loop over the games of the main config file. *)
Definition load_inline_game (game : loc) : M unit :=
  try_except (_load_game_data game) ValueError
    (let* id := getitem game "id" in
     let* c := get_self in
     logging WARNING "Skipping duplicate game definition '{0}' in {1}"
             [id; VStr (path c)]).

Definition load_games : M unit :=
  modify_self (set_games []) >>
  let* gs := get Doc.games in
  (if nonempty_list gs then
     (* games of the main config file first *)
     for_each (default [] gs) load_inline_game
   else
     (* the final games array is sent to the client *)
     let* c := get_self in
     match data c with
     | Some d => modify_self (set_data (Doc.with_games (Some []) d))
     | None => raise TypeError
     end) >>
  _load_game_conf_dir.
End Loader.

(** ** The accessors *)

Record nerd : Type := Nerd {
  nerd_type : string;
  nerd_devname : option string
}.

Section Accessors.
(** How [dict.keys()] and [dict.iteritems()] order a dict. *)
Context (iter : dict_order).

Fixpoint get_devname_loop (lname : string) (items : pydict (list string))
  : M (option string) :=
  match items with
  | [] => ret None
  | (KStr d, alts) :: r =>
      if String.eqb (lower d) lname || bool_decide (lname ∈ alts)
      then ret (Some d)
      else get_devname_loop lname r
  | (KInt _, _) :: _ => raise (AttributeError "lower")
  end.

(** Return the canonical username for an account. *)
Definition get_devname (username : string) : M (option string) :=
  let lname := lower username in
  let* c := get_self in
  match devteam c with
  | [] => ret None
  | _ => get_devname_loop lname (iter _ (devteam c))
  end.

Fixpoint _get_player_title_loop (username : string)
    (player_titles : pydict (list string)) (title_names : list string)
    (title : option string) : option string :=
  match title_names with
  | [] => title
  | t :: r =>
      match dict_get (KStr t) player_titles with
      | None => _get_player_title_loop username player_titles r title
      | Some members =>
          if bool_decide (lower username ∈ members)
          then _get_player_title_loop username player_titles r (Some t)
          else _get_player_title_loop username player_titles r title
      end
  end.

(** Return username's most important title, or None if it lacks one. *)
Definition _get_player_title (username : string) : M (option string) :=
  let* player_titles := get_player_titles in
  match player_titles with
  | [] => ret None
  | _ =>
      let* title_names := get Doc.title_names in
      if negb (nonempty_list title_names) then ret None
      else
        (* the last title applicable to the player *)
        ret (_get_player_title_loop username player_titles
               (default [] title_names) None)
  end.

(** The truth value of [self.admins and username.lower() in
    self.admins]. *)
Definition is_server_admin (username : string) : M bool :=
  let* a := get_admins in
  ret (negb (bool_decide (a = ∅)) && bool_decide (lower username ∈ a)).

Definition is_server_janitor (username : string) : M bool :=
  let* j := get_janitors in
  ret (negb (bool_decide (j = ∅)) && bool_decide (lower username ∈ j)).

(** Return {title, canonical_name} for a username. *)
Definition get_nerd (username : string) : M nerd :=
  let* a := is_server_admin username in
  if a then ret (Nerd "admins" None)
  else
    let* devname := get_devname username in
    match devname with
    | Some (String _ _ as d) => ret (Nerd "devteam" (Some d))
    | _ =>
        let* title := _get_player_title username in
        match title with
        | Some (String _ _ as t) => ret (Nerd t None)
        | _ => ret (Nerd "normal" None)
        end
    end.

Fixpoint get_game_loop (game_version game_mode : value)
    (items : pydict loc) : M (option loc) :=
  match items with
  | [] => ret None
  | (id, game) :: r =>
      let* t := deref game in
      match t !! "mode", t !! "version" with
      | Some mode, Some version =>
          if py_eq mode game_mode && py_eq version game_version
          then ret (Some game)
          else get_game_loop game_version game_mode r
      | _, _ => get_game_loop game_version game_mode r
      end
  end.

Definition get_game (game_version game_mode : value) : M (option loc) :=
  let* c := get_self in
  match games c with
  | [] => ret None
  | _ => get_game_loop game_version game_mode (iter _ (games c))
  end.

(** [m["name"]] for an element of [game_maps]. *)
Definition map_name_of (m : value) : exn + value :=
  match m with
  | VTable t =>
      match assoc_lookup "name" t with
      | Some n => inr n
      | None => inl KeyError
      end
  | _ => inl TypeError
  end.

Fixpoint game_map_loop (map_name : value) (ms : list value)
  : exn + option value :=
  match ms with
  | [] => inr None
  | m :: r =>
      match map_name_of m with
      | inl e => inl e
      | inr n => if py_eq n map_name then inr (Some m)
                 else game_map_loop map_name r
      end
  end.

(** What [for m in v] ranges over: the elements of a list, the
    characters of a string, the keys of a dict, the members of a set
    (the last two in no specified order); an integer or a boolean is not
    iterable. *)
Definition py_iter (v : value) : exn + list value :=
  match v with
  | VList l => inr l
  | VStr s => inr ((λ c, VStr (String c EmptyString)) <$> String.list_ascii_of_string s)
  | VTable t => inr ((λ kv, VStr kv.1) <$> t)
  | VSet s => inr (VStr <$> elements s)
  | VInt _ | VBool _ => inl TypeError
  end.

Definition game_map (game_id map_name : value) : M (option value) :=
  let* k := lift (py_hash game_id) in
  let* c := get_self in
  match dict_get k (games c) with
  | None => raise KeyError
  | Some game =>
      let* t := deref game in
      match t !! "game_maps" with
      | None => ret None
      | Some game_maps =>
          let* ms := lift (py_iter game_maps) in
          lift (game_map_loop map_name ms)
      end
  end.
End Accessors.

(** * Definitions for the statements

    Predicates and functions the theorems are stated with, and the example
    configurations they are instantiated at. *)

(** ** Game lookup *)

(** The game at [g] has both a [mode] and a [version] field and they equal
    the arguments. *)
Definition game_matches (s : state) (game_version game_mode : value)
    (g : loc) : bool :=
  match heap s !! g with
  | Some t =>
      match t !! "mode", t !! "version" with
      | Some mode, Some version =>
          py_eq mode game_mode && py_eq version game_version
      | _, _ => false
      end
  | None => false
  end.

(** The specification's reading of [get_game]: the first game in
    registration order that matches. *)
Definition first_registered_match (s : state) (game_version game_mode : value)
  : option loc :=
  snd <$> find (λ p : hkey * loc, game_matches s game_version game_mode p.2)
               (games (self s)).

(** ** Example file systems *)

(** A file system with the given text files, TOML documents and
    directories (each with the [*.toml] paths in it, in directory
    order). *)
Definition mk_fs (texts : list (string * list string))
    (docs : list (string * Doc.t table))
    (dirs : list (string * list string)) : FileSystem :=
  {| open_file := λ p,
       match assoc_lookup p texts with
       | Some lines => inr lines
       | None =>
           match assoc_lookup p docs with
           | Some _ => inr []
           | None => inl "No such file or directory"
           end
       end;
     toml_load := λ v,
       match v with
       | VStr p => assoc_lookup p docs
       | _ => None
       end;
     isdir := λ p, bool_decide (is_Some (assoc_lookup p dirs));
     isfile := λ p, bool_decide (is_Some (assoc_lookup p texts))
                    || bool_decide (is_Some (assoc_lookup p docs));
     glob_toml := λ p, default [] (assoc_lookup p dirs) |}.

(** [Conf(path)] up to [init_logging]: [load] then [load_games]. *)
Definition boot (fs : FileSystem) (p : string) : state :=
  (load_games fs (load fs (init_state p)).2).2.

Definition game_def (id mode version : string) : table :=
  {[ "id" := VStr id; "mode" := VStr mode; "version" := VStr version ]}.

Definition config_with_games (gs : list table) : Doc.t table :=
  Doc.Make (Some ["root"]) (Some ["jan"]) None None None None None None
           (Some gs) None.

(** Two games of the same mode and version, [b] declared before [a]. *)
Definition fs_two_games : FileSystem :=
  mk_fs [] [("config.toml",
             config_with_games [game_def "b" "dcss" "0.25";
                                game_def "a" "dcss" "0.25"])] [].

Definition state_two_games : state := boot fs_two_games "config.toml".

(** ** Map lookup *)

(** [m["name"]] exists and differs from, or equals, [map_name]. *)
Definition name_differs (map_name m : value) : Prop :=
  ∃ n, map_name_of m = inr n ∧ py_eq n map_name = false.

Definition name_equals (map_name m : value) : Prop :=
  ∃ n, map_name_of m = inr n ∧ py_eq n map_name = true.

(** A game with a map file that lists the maps [Lair] and [Orc]. *)
Definition lair_map : value := VTable [("name", VStr "Lair")].
Definition orc_map : value := VTable [("name", VStr "Orc")].

Definition fs_with_maps : FileSystem :=
  mk_fs []
    [("config.toml",
      config_with_games
        [<["map_path" := VStr "maps.toml"]>
           (<["score_path" := VStr "scores"]> (game_def "dcss" "dcss" "0.25"))]);
     ("maps.toml",
      Doc.Make None None None None None None None None None
               (Some (VList [lair_map; orc_map])))]
    [].

Definition state_with_maps : state := boot fs_with_maps "config.toml".

(** ** Player titles *)

(** The user holds title [t]: [t] is a key of the title roster and the
    lowercased username is among its members. *)
Definition holds_title (player_titles : pydict (list string))
    (username t : string) : bool :=
  match dict_get (KStr t) player_titles with
  | Some members => bool_decide (lower username ∈ members)
  | None => false
  end.

Definition config_with_titles (title_names : list string) : Doc.t table :=
  Doc.Make (Some ["root"]) (Some ["jan"]) None None (Some title_names)
           (Some "titles.txt") None None None None.

(** A title roster in which [alice] appears under both titles. *)
Definition fs_titles (title_names : list string) : FileSystem :=
  mk_fs [("titles.txt", ["Slayer alice bob"; "Champion alice"])]
        [("config.toml", config_with_titles title_names)] [].

Definition state_titles (title_names : list string) : state :=
  boot (fs_titles title_names) "config.toml".

(** ** Identity sets *)

(** A primary document with neither [server_admins] nor
    [server_janitors]. *)
Definition fs_no_admins : FileSystem :=
  mk_fs [] [("config.toml", Doc.empty)] [].

(** Both sets are assigned and every admin is a janitor. *)
Definition identity_sets (c : Conf) : Prop :=
  ∃ a j, admins c = Some a ∧ janitors c = Some j ∧ a ⊆ j.

(** Partial correctness: when [m] returns from a state in [P], the value
    and the state are in [Q]; nothing is said when it raises. *)
Definition hoare {A} (P : state → Prop) (m : M A) (Q : A → state → Prop)
  : Prop :=
  ∀ s a s', P s → m s = (Ok a, s') → Q a s'.

(** [m] leaves the [Conf] object as it is. *)
Definition frame {A} (m : M A) : Prop :=
  ∀ s r s', m s = (r, s') → self s' = self s.

(** ** Rosters *)

(** The roster a list of rows describes: each row maps its first token to
    its lowercased other tokens, a later row replacing an earlier one of
    the same key. *)
Definition add_row (key : string → string) (t : pydict (list string))
    (row : list string) : pydict (list string) :=
  match row with
  | [] => t
  | r0 :: alts => dict_set (KStr (key r0)) (lower <$> alts) t
  end.

Definition roster (key : string → string) (rows : list (list string))
  : pydict (list string) :=
  foldl (add_row key) [] rows.

(** The dict objects and the document of [alloc_doc d] in a heap of
    [n] objects. *)
Definition doc_at (n : nat) (d : Doc.t table) : Doc.t loc :=
  let cmds := default [] (Doc.janitor_commands d) in
  Doc.Make (Doc.server_admins d) (Doc.server_janitors d)
    (Doc.devteam_file d) (Doc.devs_are_server_janitors d)
    (Doc.title_names d) (Doc.player_title_file d) (Doc.games_conf_d d)
    ((λ ts, seq n (length ts)) <$> Doc.janitor_commands d)
    ((λ ts, seq (n + length cmds) (length ts)) <$> Doc.games d)
    (Doc.maps d).

Definition doc_objects (d : Doc.t table) : list table :=
  default [] (Doc.janitor_commands d) ++ default [] (Doc.games d).

Definition config_with_devteam : Doc.t table :=
  Doc.Make (Some ["root"]) (Some ["jan"]) (Some "devteam.txt") (Some true)
           None None None None None None.

(** Developers are janitors; the roster has the row [Alice al]. *)
Definition fs_devteam : FileSystem :=
  mk_fs [("devteam.txt", ["Alice al"; "bob"])]
        [("config.toml", config_with_devteam)] [].

Definition state_devteam : state := boot fs_devteam "config.toml".

(** [load] called again on the loaded object, the primary document now
    having neither [server_admins] nor [server_janitors]. *)
Definition state_reloaded : state := (load fs_no_admins state_devteam).2.

(** A devteam file and a title file with a blank line each. *)
Definition fs_blank_devteam : FileSystem :=
  mk_fs [("devteam.txt", ["Alice al"; ""; "bob"])]
        [("config.toml", config_with_devteam)] [].

Definition fs_blank_titles : FileSystem :=
  mk_fs [("titles.txt", ["slayer alice"; ""; "champion alice"])]
        [("config.toml", config_with_titles ["slayer"; "champion"])] [].

(** The identity sets [load] derives from the primary document. *)
Definition admin_set {O} (d : Doc.t O) : gset string :=
  list_to_set (lower <$> default [] (Doc.server_admins d)).

Definition janitor_set {O} (d : Doc.t O) : gset string :=
  list_to_set (lower <$> default [] (Doc.server_janitors d)) ∪ admin_set d.

(** The state of [load] on a new [Conf] object once the primary document
    [d] is parsed, the identity sets are derived and the devteam rows
    [rows] are read. *)
Definition state_after_devteam (p : string) (d : Doc.t table)
    (rows : list (list string)) : state :=
  {| self :=
       {| path := p; data := Some (doc_at 0 d);
          devteam := roster id rows;
          admins := Some (admin_set d);
          janitors :=
            Some (if is_true (Doc.devs_are_server_janitors d)
                  then janitor_set d ∪ list_to_set (concat rows)
                  else janitor_set d);
          player_titles := None; janitor_commands := []; games := [] |};
     heap := doc_objects d; log := [] |}.

(** ** Argument templates *)

(** A template made of literal text and [{name}] replacement fields. *)
Inductive segment : Type :=
| Text (s : string)
| Field (name : string).

Definition is_brace (c : ascii) : bool :=
  Ascii.eqb c "{"%char || Ascii.eqb c "}"%char.

Definition is_name_end (c : ascii) : bool :=
  Ascii.eqb c ":"%char || Ascii.eqb c "!"%char.

Fixpoint no_char (p : ascii → bool) (s : string) : bool :=
  match s with
  | EmptyString => true
  | String c r => negb (p c) && no_char p r
  end.

(** Literal text has no brace; a field name is not empty and has no
    brace, colon or exclamation mark. *)
Definition simple (g : segment) : bool :=
  match g with
  | Text s => no_char is_brace s
  | Field n =>
      negb (String.eqb n EmptyString) && no_char is_brace n
      && no_char is_name_end n
  end.

Definition render_segment (g : segment) : string :=
  match g with
  | Text s => s
  | Field n => String "{"%char (String.append n (String "}"%char EmptyString))
  end.

Fixpoint render (gs : list segment) : string :=
  match gs with
  | [] => EmptyString
  | g :: r => String.append (render_segment g) (render r)
  end.

(** The names of the replacement fields of a template. *)
Fixpoint field_names (gs : list segment) : list string :=
  match gs with
  | [] => []
  | Text _ :: r => field_names r
  | Field n :: r => n :: field_names r
  end.

Definition placeholders (gs : list segment) : gset string :=
  list_to_set (field_names gs).

(** The field names [load_janitor_commands] adds for a list of tokens. *)
Fixpoint token_names (toks : list token) : list string :=
  match toks with
  | [] => []
  | tok :: r =>
      match field_name tok with
      | Some (String _ _ as n) => n :: token_names r
      | _ => token_names r
      end
  end.

Definition template_params (template : string) : gset string :=
  list_to_set (token_names (formatter_parse template).1).

(** ** Janitor commands *)

(** The dict key of a definition's [id], when it has one that is
    hashable. *)
Definition id_key (t : table) : option hkey :=
  match t !! "id" with
  | Some v => match py_hash v with inr k => Some k | inl _ => None end
  | None => None
  end.

Definition command_template (t : table) : option string :=
  match t !! "argument" with
  | Some (VStr template) => Some template
  | _ => None
  end.

(** A definition with the four required fields, a hashable id and an
    argument template that parses. *)
Definition command_ok (t : table) : Prop :=
  Forall (λ f, is_Some (t !! f)) required_fields ∧
  is_Some (id_key t) ∧
  ∃ template, command_template t = Some template ∧
              (formatter_parse template).2 = None.

(** The definition with its extracted parameters. *)
Definition with_params (t : table) : table :=
  match command_template t with
  | Some template => <["params" := VSet (template_params template)]> t
  | None => t
  end.

(** The heap and the command table after one definition is loaded. *)
Definition load_command_step (st : list table * pydict loc) (cmd : loc)
  : list table * pydict loc :=
  match st.1 !! cmd with
  | Some t =>
      match id_key t with
      | Some k => (<[cmd := with_params t]> st.1, dict_set k cmd st.2)
      | None => st
      end
  | None => st
  end.

Definition missing_field_error (field : string) : log_record :=
  LogRecord ERROR "Janitor command entries must have {0} defined."
            [VStr field].

Definition command_def (id argument : string) : table :=
  {[ "id" := VStr id; "name" := VStr id; "action" := VStr id;
     "argument" := VStr argument ]}.

Definition config_with_commands (cmds : list table) : Doc.t table :=
  Doc.Make (Some ["root"]) (Some ["jan"]) None None None None None
           (Some cmds) None None.

(** The state in which [load] calls [load_janitor_commands] for a primary
    document with these command definitions. *)
Definition state_commands (cmds : list table) : state :=
  state_after_devteam "config.toml" (config_with_commands cmds) [].

Definition ban_command : table :=
  command_def "ban" "ban {target} for {reason}".

Definition list_command : table := command_def "list" "list".

(** A definition without [action]. *)
Definition broken_command : table :=
  {[ "id" := VStr "mute"; "name" := VStr "Mute";
     "argument" := VStr "mute {target}" ]}.

(** ** Game definitions *)

(** What [_load_game_data] reads of a definition. *)
Definition game_desc (t : table)
  : option value * option value * option value :=
  (t !! "id", t !! "map_path", t !! "score_path").

(** [_load_game_map] does not exit for this definition: it has no
    [map_path], or no [score_path], or its map file loads and has a [maps]
    section. *)
Definition map_loads (fs : FileSystem) (t : table) : bool :=
  match t !! "map_path", t !! "score_path" with
  | Some map_path, Some _ =>
      match toml_load fs map_path with
      | Some d => bool_decide (is_Some (Doc.maps d))
      | None => false
      end
  | _, _ => true
  end.

Definition game_ok (fs : FileSystem) (t : table) : Prop :=
  is_Some (id_key t) ∧ map_loads fs t = true.

(** The definition once [_load_game_map] has attached its maps. *)
Definition with_maps (fs : FileSystem) (t : table) : table :=
  match t !! "map_path", t !! "score_path" with
  | Some map_path, Some _ =>
      match toml_load fs map_path ≫= Doc.maps with
      | Some m => <["game_maps" := m]> t
      | None => t
      end
  | _, _ => t
  end.

(** The records [_load_game_data] logs for a new definition. *)
Definition loaded_log (t : table) : list log_record :=
  match t !! "id" with
  | Some id =>
      match t !! "map_path", t !! "score_path" with
      | Some _, None =>
          [LogRecord WARNING
             "Not parsing game map for game definition '{0}' because it has no score_path"
             [id]]
      | _, _ => []
      end ++ [LogRecord INFO "Loaded game '{0}'" [id]]
  | None => []
  end.

(** The warning for a duplicate definition, in the main config file
    ([src = None]) or in the fragment file [f] ([src = Some f]). *)
Definition dup_warning (src : option string) (path : string) (id : value)
  : log_record :=
  match src with
  | None =>
      LogRecord WARNING "Skipping duplicate game definition '{0}' in {1}"
                [id; VStr path]
  | Some f =>
      LogRecord WARNING
        "Skipping duplicate definition '{0}' in game config file {1}"
        [id; VStr f]
  end.

(** The key of the definition at an address. *)
Definition key_at (h : list table) (g : loc) : option hkey :=
  h !! g ≫= id_key.

(** The first of the definitions [gs] with key [k]. *)
Definition first_with_key (h : list table) (k : hkey) (gs : list loc)
  : option loc :=
  find (λ g, bool_decide (key_at h g = Some k)) gs.

(** A candidate definition: its address and the fragment file it comes
    from ([None] for the main config file). *)
Definition candidate : Type := loc * option string.

Definition fragment_locs (cs : list candidate) : list loc :=
  omap (λ c : candidate, match c.2 with Some _ => Some c.1 | None => None end)
       cs.

(** The addresses of the registered games. *)
Definition registered (s : state) : list loc := (games (self s)).*2.

(** The state of [load_games] once the candidates [cs] have been
    processed, [inline] being the games of the main config file and [h0]
    the heap at the start.  The registry maps each id to the first
    candidate with that id; every later candidate with the id has its
    warning in the log; the document's games list holds the games of the
    main config file and then the registered fragment games. *)
Record games_inv (h0 : list table) (p : string) (inline : list loc)
    (cs : list candidate) (s : state) : Prop := GamesInv {
  inv_path : path (self s) = p;
  inv_heap : game_desc <$> h0 `prefix_of` game_desc <$> heap s;
  inv_valid : Forall (λ c : candidate, c.1 < length (heap s)) cs;
  inv_nodup : NoDup cs.*1;
  inv_first : ∀ k, dict_get k (games (self s))
                   = first_with_key (heap s) k cs.*1;
  inv_keys : NoDup (games (self s)).*1;
  inv_warned :
    ∀ pre g src post t id k,
      cs = pre ++ (g, src) :: post →
      heap s !! g = Some t → t !! "id" = Some id → id_key t = Some k →
      first_with_key (heap s) k pre.*1 ≠ None →
      dup_warning src p id ∈ log s;
  inv_data :
    ∃ d, data (self s) = Some d ∧
         Doc.games d =
         Some (inline ++ filter (λ g, g ∈ registered s) (fragment_locs cs))
}.

(** [self.data["games"].append(g)] for a fragment game. *)
Definition append_game (src : option string) (g : loc) (c : Conf) : Conf :=
  match src, data c with
  | Some _, Some d =>
      set_data (Doc.with_games ((λ l, l ++ [g]) <$> Doc.games d) d) c
  | _, _ => c
  end.

(** Between two states of [load_games]: the definitions are described as
    before and the fragment directory is configured as before. *)
Definition stable (s s' : state) : Prop :=
  game_desc <$> heap s' = game_desc <$> heap s ∧
  data (self s') ≫= Doc.games_conf_d = data (self s) ≫= Doc.games_conf_d.

(** The game definitions a fragment file contributes. *)
Definition fragment_tables (fs : FileSystem) (f : string) : list table :=
  if isfile fs f then
    match toml_load fs (VStr f) with
    | Some d => default [] (Doc.games d)
    | None => []
    end
  else [].

(** A fragment file that [_load_game_conf_dir] gets through: when it is a
    file it opens and parses, and its definitions are well formed. *)
Definition fragment_ok (fs : FileSystem) (f : string) : Prop :=
  isfile fs f = true →
  (∃ lines, open_file fs f = inr lines) ∧
  ∃ d, toml_load fs (VStr f) = Some d ∧
       Forall (game_ok fs) (default [] (Doc.games d)).

(** The candidates of the fragment files, allocated from address [n]
    on. *)
Fixpoint fragment_candidates (fs : FileSystem) (n : nat)
    (files : list string) : list candidate :=
  match files with
  | [] => []
  | f :: r =>
      ((λ g, (g, Some f)) <$> seq n (length (fragment_tables fs f)))
      ++ fragment_candidates fs (n + length (fragment_tables fs f)) r
  end.

(** The files [_load_game_conf_dir] loads, in order. *)
Definition fragment_files {O} (fs : FileSystem) (d : Doc.t O) : list string :=
  match Doc.games_conf_d d with
  | Some (String c r) =>
      if isdir fs (String c r) then sorted (glob_toml fs (String c r)) else []
  | _ => []
  end.

Definition inline_candidates (inline : list loc) : list candidate :=
  (λ g, (g, None)) <$> inline.

(** A main config file that declares the game [a] twice, and a fragment
    file that declares [a] again and a new game [b]. *)
Definition config_dup_games : Doc.t table :=
  Doc.Make (Some ["root"]) (Some ["jan"]) None None None None
           (Some "games.d") None
           (Some [game_def "a" "dcss" "0.25"; game_def "a" "dcss" "0.24"])
           None.

Definition fs_dup_games : FileSystem :=
  mk_fs []
    [("config.toml", config_dup_games);
     ("games.d/extra.toml",
      Doc.with_games (Some [game_def "a" "sprint" "0.25";
                            game_def "b" "sprint" "0.25"]) Doc.empty)]
    [("games.d", ["games.d/extra.toml"])].

(** The state in which [Conf(path)] calls [load_games]. *)
Definition loaded (fs : FileSystem) (p : string) : state :=
  (load fs (init_state p)).2.

(** * Definitions for the further properties *)

(** ** What a run leaves as it was *)

(** Every run of [m], whatever its outcome, relates the state before and
    the state after by [R]. *)
Definition preserves {A} (R : state → state → Prop) (m : M A) : Prop :=
  ∀ s r s', m s = (r, s') → R s s'.

(** A relation between the [Conf] object before and after. *)
Definition on_self (Rc : Conf → Conf → Prop) (s s' : state) : Prop :=
  Rc (self s) (self s').

(** The document but for its [games] entry. *)
Definition settings (c : Conf) : option (Doc.t loc) :=
  Doc.with_games None <$> data c.

(** What [load_games] does not assign: every attribute but [games], and
    every key of the document but [games]. *)
Definition same_but_games (c c' : Conf) : Prop :=
  path c' = path c ∧ settings c' = settings c ∧ devteam c' = devteam c ∧
  admins c' = admins c ∧ janitors c' = janitors c ∧
  player_titles c' = player_titles c ∧
  janitor_commands c' = janitor_commands c.

(** What [load] does not assign. *)
Definition same_registry (c c' : Conf) : Prop :=
  path c' = path c ∧ games c' = games c.

(** What [load_player_titles] does not assign. *)
Definition same_but_titles (c c' : Conf) : Prop :=
  path c' = path c ∧ data c' = data c ∧ devteam c' = devteam c ∧
  admins c' = admins c ∧ janitors c' = janitors c ∧
  janitor_commands c' = janitor_commands c ∧ games c' = games c.

(** What [load_janitor_commands] does not assign. *)
Definition same_but_commands (c c' : Conf) : Prop :=
  path c' = path c ∧ data c' = data c ∧ devteam c' = devteam c ∧
  admins c' = admins c ∧ janitors c' = janitors c ∧
  player_titles c' = player_titles c ∧ games c' = games c.

(** The dict objects of [s] are still there in [s'], each with the fields
    it had, but for [game_maps]. *)
Definition heap_evolves (s s' : state) : Prop :=
  ∀ g t, heap s !! g = Some t →
    ∃ t', heap s' !! g = Some t' ∧
          delete "game_maps" t' = delete "game_maps" t.

(** [m] leaves the dict objects as they are. *)
Definition keeps_heap {A} (m : M A) : Prop :=
  ∀ s r s', m s = (r, s') → heap s' = heap s.

(** ** Exits *)

(** When [m] ends in [sys.exit], the exit status is 1 and the last log
    record is in [ok]. *)
Definition exits_logged {A} (ok : log_record → Prop) (m : M A) : Prop :=
  ∀ s code s', m s = (Raise (SystemExit code), s') →
    code = 1%Z ∧ ∃ r, last (log s') = Some r ∧ ok r.

(** [m] never ends in [sys.exit]. *)
Definition no_exit {A} (m : M A) : Prop :=
  ∀ s code s', m s ≠ (Raise (SystemExit code), s').

(** The messages [load] exits with. *)
Definition load_exit_messages : list string :=
  ["Couldn't open config file {0} ({1})";
   "Couldn't parse config file {0} ({1})";
   "Could not open devteam file {0} ({1})";
   "Could not open player title file {0} ({1})";
   "Janitor command entries must have {0} defined."].

(** The messages [load_games] exits with, with their levels. *)
Definition load_games_exit_messages : list (level * string) :=
  [(ERROR, "Could not load game map file {0} ({1})");
   (ERROR, "maps section missing from game map file {0}");
   (WARNING, "Unable to open game config file {0} ({1})");
   (ERROR, "Could parse game config file {0} ({1})")].

Definition load_exit_record (r : log_record) : Prop :=
  log_level r = ERROR ∧ log_format r ∈ load_exit_messages.

Definition load_games_exit_record (r : log_record) : Prop :=
  (log_level r, log_format r) ∈ load_games_exit_messages.

(** A game with a map file and a score path. *)
Definition game_with_maps : table :=
  <["map_path" := VStr "maps.toml"]>
    (<["score_path" := VStr "scores"]> (game_def "dcss" "dcss" "0.25")).

(** No file at all. *)
Definition fs_nothing : FileSystem := mk_fs [] [] [].

(** A game whose map file has no [maps] section. *)
Definition fs_no_maps_section : FileSystem :=
  mk_fs []
    [("config.toml", config_with_games [game_with_maps]);
     ("maps.toml", Doc.empty)]
    [].

(** ** The state after [load] *)

(** The rows of the devteam file the document names, when it opens. *)
Definition devteam_rows {O} (fs : FileSystem) (d : Doc.t O)
  : list (list string) :=
  match Doc.devteam_file d with
  | Some (String c r) =>
      match open_file fs (String c r) with
      | inr lines => csv_reader lines
      | inl _ => []
      end
  | _ => []
  end.

(** The janitors [load] derives from the document and the devteam rows. *)
Definition janitors_of {O} (d : Doc.t O) (rows : list (list string))
  : gset string :=
  if is_true (Doc.devs_are_server_janitors d)
  then janitor_set d ∪ list_to_set (concat rows)
  else janitor_set d.

(** The state of [load], called in [s], once the primary document [d] is
    parsed, the identity sets are derived and the devteam rows [rows] are
    read. *)
Definition state_after_rows (s : state) (d : Doc.t table)
    (rows : list (list string)) : state :=
  {| self :=
       {| path := path (self s);
          data := Some (doc_at (length (heap s)) d);
          devteam := roster id rows;
          admins := Some (admin_set d);
          janitors := Some (janitors_of d rows);
          player_titles := player_titles (self s);
          janitor_commands := janitor_commands (self s);
          games := games (self s) |};
     heap := heap s ++ doc_objects d; log := log s |}.

(** The title roster is loaded only when both [title_names] and
    [player_title_file] are set. *)
Definition titles_configured {O} (d : Doc.t O) : bool :=
  nonempty_list (Doc.title_names d) && nonempty_str (Doc.player_title_file d).

(** The rows of the title file the document names, when it opens. *)
Definition title_rows {O} (fs : FileSystem) (d : Doc.t O)
  : list (list string) :=
  match open_file fs (default EmptyString (Doc.player_title_file d)) with
  | inr lines => csv_reader lines
  | inl _ => []
  end.

(** The roster key of a row. *)
Definition row_key (key : string → string) (row : list string)
  : option string :=
  key <$> head row.

(** The entry [d] of the developer roster matches the lowercased name. *)
Definition dev_matches (lname : string) (entry : hkey * list string) : bool :=
  match entry.1 with
  | KStr d => String.eqb (lower d) lname || bool_decide (lname ∈ entry.2)
  | KInt _ => false
  end.

Definition str_key (k : hkey) : Prop := ∃ d, k = KStr d.

(** ** Janitor commands by id *)

(** The last of the definitions [cs] with key [k]. *)
Definition last_with_key (h : list table) (k : hkey) (cs : list loc)
  : option loc :=
  last (filter (λ c, key_at h c = Some k) cs).

(** Two definitions of the command [ban]. *)
Definition ban_forever : table := command_def "ban" "ban {target}".

(** ** Argument templates with conversions, format specs and doubled
    braces *)

Inductive piece : Type :=
| PText (s : string)
| POpen
| PClose
| PField (name : string) (conv : option ascii) (spec : option string).

(** Literal text, a field name and a format spec have no brace; a field
    name has no colon or exclamation mark either; the conversion is not a
    brace. *)
Definition well_formed (p : piece) : bool :=
  match p with
  | PText s => no_char is_brace s
  | POpen | PClose => true
  | PField n conv spec =>
      no_char is_brace n && no_char is_name_end n
      && match conv with Some c => negb (is_brace c) | None => true end
      && match spec with Some sp => no_char is_brace sp | None => true end
  end.

(** The inside of a replacement field. *)
Definition field_body (n : string) (conv : option ascii)
    (spec : option string) : string :=
  String.append n
    (String.append
       match conv with
       | Some c => String "!"%char (String c EmptyString)
       | None => EmptyString
       end
       match spec with
       | Some sp => String ":"%char sp
       | None => EmptyString
       end).

Definition render_piece (p : piece) : string :=
  match p with
  | PText s => s
  | POpen => "{{"
  | PClose => "}}"
  | PField n conv spec =>
      String "{"%char
        (String.append (field_body n conv spec) (String "}"%char EmptyString))
  end.

Fixpoint render_pieces (ps : list piece) : string :=
  match ps with
  | [] => EmptyString
  | p :: r => String.append (render_piece p) (render_pieces r)
  end.

(** The names of the fields, but for the empty name. *)
Fixpoint piece_names (ps : list piece) : list string :=
  match ps with
  | [] => []
  | PField (String c n) _ _ :: r => String c n :: piece_names r
  | _ :: r => piece_names r
  end.

(** A command whose template has a conversion, a doubled brace and a
    field without a name. *)
Definition kick_command : table :=
  command_def "kick" "kick {target!s} {{{:>8}}}".

(** A command whose template has a brace that is never closed. *)
Definition unclosed_command : table :=
  command_def "mute" "mute {target} for {minutes".

(** ** Games without a usable id *)

(** What [game["id"] in self.games] raises for a definition without an
    id, or with an id that is not hashable. *)
Definition bad_id_error (t : table) : exn :=
  match t !! "id" with
  | None => KeyError
  | Some _ => TypeError
  end.

(** A main config file whose second game has no id. *)
Definition nameless_game : table :=
  {[ "mode" := VStr "dcss"; "version" := VStr "0.25" ]}.

Definition fs_nameless_game : FileSystem :=
  mk_fs []
    [("config.toml",
      config_with_games [game_def "a" "dcss" "0.25"; nameless_game])]
    [].

(** ** Fragment files *)

(** Two fragment files that both define the game [b]; the directory lists
    them in reverse order. *)
Definition fs_two_fragments : FileSystem :=
  mk_fs []
    [("config.toml",
      Doc.Make (Some ["root"]) (Some ["jan"]) None None None None
               (Some "games.d") None None None);
     ("games.d/10.toml",
      Doc.with_games (Some [game_def "b" "dcss" "0.25"]) Doc.empty);
     ("games.d/20.toml",
      Doc.with_games (Some [game_def "b" "sprint" "0.25"]) Doc.empty)]
    [("games.d", ["games.d/20.toml"; "games.d/10.toml"])].

(** ** Example configurations *)

Definition not_a_directory_warning : log_record :=
  LogRecord WARNING "games_conf_d is not a directory, ignoring" [].

(** [games_conf_d] names a directory that does not exist. *)
Definition fs_no_games_dir : FileSystem :=
  mk_fs []
    [("config.toml",
      Doc.Make (Some ["root"]) (Some ["jan"]) None None None None
               (Some "games.d") None
               (Some [game_def "a" "dcss" "0.25"]) None)]
    [].

(** A title file with two rows of the same title. *)
Definition fs_title_twice : FileSystem :=
  mk_fs [("titles.txt", ["Slayer alice"; "slayer bob"])]
        [("config.toml", config_with_titles ["slayer"])] [].

(** A devteam file with two rows of the same developer. *)
Definition fs_devteam_twice : FileSystem :=
  mk_fs [("devteam.txt", ["Alice al"; "Alice ALLY"])]
        [("config.toml", config_with_devteam)] [].

(** * Properties *)

(** ** Game lookup *)

Lemma game_matches_fields s v m g :
  game_matches s v m g = true →
  ∃ t mode version,
    heap s !! g = Some t ∧ t !! "mode" = Some mode ∧
    t !! "version" = Some version ∧
    py_eq mode m = true ∧ py_eq version v = true.
Proof.
  unfold game_matches. intros H.
  destruct (heap s !! g) as [t|]; [|done].
  destruct (t !! "mode") as [mode|] eqn:Hm; [|done].
  destruct (t !! "version") as [version|] eqn:Hv; [|done].
  apply andb_true_iff in H as [H1 H2]. by exists t, mode, version.
Qed.

Lemma get_game_loop_spec s v m (items : pydict loc) :
  Forall (λ p, is_Some (heap s !! p.2)) items →
  (∃ pre k g post,
      items = pre ++ (k, g) :: post ∧
      Forall (λ p, game_matches s v m p.2 = false) pre ∧
      game_matches s v m g = true ∧
      get_game_loop v m items s = (Ok (Some g), s))
  ∨ (Forall (λ p, game_matches s v m p.2 = false) items ∧
     get_game_loop v m items s = (Ok None, s)).
Proof.
  induction items as [|[k g] r IH]; intros Hv.
  - right. split; [constructor|done].
  - apply Forall_cons in Hv as [[t Ht] Hr]. simpl in Ht.
    destruct (game_matches s v m g) eqn:Hg.
    + left. exists [], k, g, r. repeat split; [constructor|done|].
      unfold game_matches in Hg. rewrite Ht in Hg.
      simpl. unfold bind, deref. rewrite Ht.
      destruct (t !! "mode"); [|done]. destruct (t !! "version"); [|done].
      by rewrite Hg.
    + assert (get_game_loop v m ((k, g) :: r) s = get_game_loop v m r s) as Heq.
      { unfold game_matches in Hg. rewrite Ht in Hg.
        simpl. unfold bind, deref. rewrite Ht.
        destruct (t !! "mode"); [|done]. destruct (t !! "version"); [|done].
        by rewrite Hg. }
      destruct (IH Hr) as [(pre & k' & g' & post & -> & Hpre & Hm & Hrun)|[Hall Hrun]].
      * left. exists ((k, g) :: pre), k', g', post.
        repeat split; [by constructor|done|by rewrite Heq].
      * right. split; [by constructor|by rewrite Heq].
Qed.

(** C5, counterexample: with the games [b] and [a] registered in this
    order, both of mode [dcss] and version [0.25], the dict iterates [a]
    first under the reference interpreter, and [get_game] returns the game
    registered second, not the first registered match. *)
Lemma get_game_not_first_registered :
  games (self state_two_games) = [(KStr "b", 0); (KStr "a", 1)] ∧
  first_registered_match state_two_games (VStr "0.25") (VStr "dcss")
    = Some 0 ∧
  (get_game CPython27.iteritems (VStr "0.25") (VStr "dcss")
            state_two_games).1
    = Ok (Some 1) ∧
  (get_game CPython27.iteritems (VStr "0.25") (VStr "dcss")
            state_two_games).1
    ≠ Ok (first_registered_match state_two_games (VStr "0.25")
                                 (VStr "dcss")).
Proof. vm_compute. repeat split; congruence. Qed.

(** C5, amended: [get_game] returns the first game in the dict's
    iteration order whose [mode] and [version] fields both equal the
    arguments, which is a registered game but need not be the first
    registered one; it returns [None] when no game is registered or no
    registered game matches; a game lacking a [mode] or a [version] field
    is never returned. *)
Theorem get_game_first_in_iteration_order (iter : dict_order)
    (s : state) (game_version game_mode : value) :
  (∀ d : pydict loc, iter loc d ≡ₚ d) →
  Forall (λ p, is_Some (heap s !! p.2)) (games (self s)) →
  ∃ r, get_game iter game_version game_mode s = (Ok r, s) ∧
    match r with
    | Some g =>
        ∃ pre k post t,
          iter loc (games (self s)) = pre ++ (k, g) :: post ∧
          Forall (λ p, game_matches s game_version game_mode p.2 = false) pre ∧
          (k, g) ∈ games (self s) ∧
          game_matches s game_version game_mode g = true ∧
          heap s !! g = Some t ∧
          is_Some (t !! "mode") ∧ is_Some (t !! "version")
    | None =>
        Forall (λ p, game_matches s game_version game_mode p.2 = false)
               (games (self s))
    end.
Proof.
  intros Hperm Hvalid. unfold get_game, bind, get_self. simpl.
  destruct (games (self s)) as [|x d] eqn:Hd.
  { exists None. split; [done|constructor]. }
  rewrite <- Hd in *. clear Hd x d.
  assert (Forall (λ p, is_Some (heap s !! p.2)) (iter loc (games (self s))))
    as Hvalid' by (by rewrite Hperm).
  destruct (get_game_loop_spec s game_version game_mode _ Hvalid')
    as [(pre & k & g & post & Heq & Hpre & Hm & Hrun)|[Hall Hrun]].
  - exists (Some g). split; [done|].
    destruct (game_matches_fields _ _ _ _ Hm) as (t & vm & vv & Ht & Hmo & Hve & _).
    exists pre, k, post, t. repeat split; eauto.
    rewrite <- (Hperm (games (self s))), Heq. set_solver.
  - exists None. split; [done|]. by rewrite <- (Hperm (games (self s))).
Qed.

Lemma get_game_first_in_iteration_order_witness :
  ∃ r, get_game insertion_order (VStr "0.25") (VStr "dcss") state_two_games
       = (Ok r, state_two_games) ∧
    match r with
    | Some g =>
        ∃ pre k post t,
          insertion_order loc (games (self state_two_games))
            = pre ++ (k, g) :: post ∧
          Forall (λ p, game_matches state_two_games (VStr "0.25")
                                    (VStr "dcss") p.2 = false) pre ∧
          (k, g) ∈ games (self state_two_games) ∧
          game_matches state_two_games (VStr "0.25") (VStr "dcss") g = true ∧
          heap state_two_games !! g = Some t ∧
          is_Some (t !! "mode") ∧ is_Some (t !! "version")
    | None =>
        Forall (λ p, game_matches state_two_games (VStr "0.25")
                                  (VStr "dcss") p.2 = false)
               (games (self state_two_games))
    end.
Proof.
  apply (get_game_first_in_iteration_order insertion_order).
  - intros d. reflexivity.
  - apply (bool_decide_unpack _). vm_compute. exact I.
Defined.

Lemma game_map_loop_miss map_name ms :
  Forall (name_differs map_name) ms →
  game_map_loop map_name ms = inr None.
Proof.
  induction 1 as [|m r (n & Hn & Hne) _ IH]; [done|].
  simpl. by rewrite Hn, Hne.
Qed.

Lemma game_map_loop_hit map_name pre m post :
  Forall (name_differs map_name) pre →
  name_equals map_name m →
  game_map_loop map_name (pre ++ m :: post) = inr (Some m).
Proof.
  intros Hpre (n & Hn & Heq).
  induction Hpre as [|m' r (n' & Hn' & Hne) _ IH]; simpl.
  - by rewrite Hn, Heq.
  - by rewrite Hn', Hne.
Qed.

(** C10: [game_map] looks the game up without a guard.  For a registered
    id it returns [None] when the game has no [game_maps] or no map of
    that name, and the first map of that name otherwise; for an id that is
    not registered it raises [KeyError] instead of returning [None]. *)
Theorem game_map_registered_only (s : state) (game_id map_name : value)
    (k : hkey) :
  py_hash game_id = inr k →
  (dict_get k (games (self s)) = None →
   game_map game_id map_name s = (Raise KeyError, s)) ∧
  (∀ g t, dict_get k (games (self s)) = Some g → heap s !! g = Some t →
     (t !! "game_maps" = None →
      game_map game_id map_name s = (Ok None, s)) ∧
     (∀ ms, t !! "game_maps" = Some (VList ms) →
        Forall (name_differs map_name) ms →
        game_map game_id map_name s = (Ok None, s)) ∧
     (∀ pre m post, t !! "game_maps" = Some (VList (pre ++ m :: post)) →
        Forall (name_differs map_name) pre →
        name_equals map_name m →
        game_map game_id map_name s = (Ok (Some m), s))).
Proof.
  intros Hk. unfold game_map, bind, lift, get_self, deref. rewrite Hk. simpl.
  split.
  - by intros ->.
  - intros g t -> Ht. rewrite Ht. repeat split.
    + by intros ->.
    + intros ms -> Hms. simpl. by rewrite game_map_loop_miss.
    + intros pre m post -> Hpre Hm. simpl. by rewrite game_map_loop_hit.
Qed.

Lemma game_map_registered_only_witness :
  game_map (VStr "dcss") (VStr "Orc") state_with_maps
    = (Ok (Some orc_map), state_with_maps)
  ∧ game_map (VStr "dcss") (VStr "Nope") state_with_maps
    = (Ok None, state_with_maps)
  ∧ game_map (VStr "nethack") (VStr "Orc") state_with_maps
    = (Raise KeyError, state_with_maps).
Proof.
  assert (∃ t, heap state_with_maps !! 0 = Some t ∧
               t !! "game_maps" = Some (VList [lair_map; orc_map]))
    as (t & Ht & Hmaps) by (eexists; split; vm_compute; reflexivity).
  assert (dict_get (KStr "dcss") (games (self state_with_maps)) = Some 0)
    as Hreg by (vm_compute; reflexivity).
  split; [|split].
  - destruct (game_map_registered_only state_with_maps (VStr "dcss")
                (VStr "Orc") (KStr "dcss") eq_refl) as [_ H].
    destruct (H 0 t Hreg Ht) as (_ & _ & Hhit).
    apply (Hhit [lair_map] orc_map []); [exact Hmaps| |].
    + repeat constructor. exists (VStr "Lair"). split; reflexivity.
    + exists (VStr "Orc"). split; reflexivity.
  - destruct (game_map_registered_only state_with_maps (VStr "dcss")
                (VStr "Nope") (KStr "dcss") eq_refl) as [_ H].
    destruct (H 0 t Hreg Ht) as (_ & Hmiss & _).
    apply (Hmiss [lair_map; orc_map]); [exact Hmaps|].
    repeat constructor; eexists; split; reflexivity.
  - apply (game_map_registered_only state_with_maps (VStr "nethack")
             (VStr "Orc") (KStr "nethack") eq_refl).
    vm_compute. reflexivity.
Defined.

Lemma _get_player_title_loop_step u pt t r acc :
  _get_player_title_loop u pt (t :: r) acc =
  _get_player_title_loop u pt r (if holds_title pt u t then Some t else acc).
Proof.
  simpl. unfold holds_title. destruct (dict_get (KStr t) pt); [|done].
  by destruct (bool_decide _).
Qed.



(** C4: with [title_names = ["Slayer", "Champion"]] and [alice] under
    both titles in the roster file, [alice] is classified as [normal] and
    not as [Champion]: [load_player_titles] stores the roster keys in
    lower case, and [_get_player_title] looks the configured names up as
    they are spelt, so a title spelt the same in the configuration and in
    the roster file is not found, although the function is to return the
    last title applicable to the player. *)
Lemma capitalised_titles_never_match :
  player_titles (self (state_titles ["Slayer"; "Champion"]))
    = Some [(KStr "slayer", ["alice"; "bob"]); (KStr "champion", ["alice"])] ∧
  (get_nerd insertion_order "alice" (state_titles ["Slayer"; "Champion"])).1
    = Ok (Nerd "normal" None) ∧
  (get_nerd insertion_order "alice" (state_titles ["Slayer"; "Champion"])).1
    ≠ Ok (Nerd "Champion" None).
Proof. vm_compute. repeat split; congruence. Qed.



(** ** Loading the primary document *)

Lemma alloc_all_run (ts : list table) (s : state) :
  alloc_all ts s =
  (Ok (seq (length (heap s)) (length ts)),
   {| self := self s; heap := heap s ++ ts; log := log s |}).
Proof.
  revert s. induction ts as [|t r IH]; intros s; simpl.
  - unfold ret. rewrite app_nil_r. by destruct s.
  - unfold bind, alloc. rewrite IH. simpl. unfold ret.
    rewrite length_app, <- app_assoc. simpl.
    by replace (length (heap s) + 1) with (S (length (heap s))) by lia.
Qed.

Lemma alloc_doc_run (d : Doc.t table) (s : state) :
  ∃ d' h,
    alloc_doc d s = (Ok d', {| self := self s; heap := h; log := log s |}) ∧
    Doc.server_admins d' = Doc.server_admins d ∧
    Doc.server_janitors d' = Doc.server_janitors d.
Proof.
  unfold alloc_doc, bind.
  destruct (Doc.janitor_commands d) as [cs|], (Doc.games d) as [gs|];
    unfold bind; rewrite ?alloc_all_run; simpl; unfold ret; simpl;
    rewrite ?alloc_all_run; simpl; eauto.
  destruct s; eauto.
Qed.

(** On a new [Conf] object [load] does not complete when the primary
    document has no (or an empty) [server_admins] or [server_janitors]:
    the attribute was never assigned, [self.janitors.update(self.admins)]
    falls through to [__getattr__] and raises [AttributeError]. *)
Theorem load_without_admins_or_janitors (fs : FileSystem) (p : string)
    (lines : list string) (d : Doc.t table) :
  open_file fs p = inr lines →
  toml_load fs (VStr p) = Some d →
  nonempty_list (Doc.server_admins d) = false
  ∨ nonempty_list (Doc.server_janitors d) = false →
  (load fs (init_state p)).1 =
  Raise (AttributeError (if nonempty_list (Doc.server_janitors d)
                         then "admins" else "janitors")).
Proof.
  intros Hopen Htoml Hmissing.
  unfold load. unfold bind at 1. unfold modify_self at 1. simpl.
  unfold bind at 1. unfold get_self at 1. simpl.
  unfold bind at 1. rewrite Hopen, Htoml.
  unfold bind at 1.
  destruct (alloc_doc_run d
              {| self := set_devteam [] (new_conf p); heap := []; log := [] |})
    as (d' & h & -> & Ha & Hj).
  unfold modify_self at 1. simpl.
  unfold get, get_self, when, modify_self, get_janitors, get_admins,
    getattr_missing, get_self, raise, ret, bind. simpl.
  rewrite Ha.
  destruct (nonempty_list (Doc.server_admins d)) eqn:Ea; simpl; rewrite Hj;
    destruct (nonempty_list (Doc.server_janitors d)) eqn:Ej; simpl; try done.
  by destruct Hmissing.
Qed.

Lemma load_without_admins_or_janitors_witness :
  (load fs_no_admins (init_state "config.toml")).1 =
  Raise (AttributeError "janitors").
Proof.
  apply (load_without_admins_or_janitors fs_no_admins "config.toml" []
           Doc.empty); [reflexivity | reflexivity | left; reflexivity].
Defined.

(** ** Running the monad *)

Lemma bind_ok {A B} (m : M A) (k : A → M B) s a s' :
  m s = (Ok a, s') → bind m k s = k a s'.
Proof. unfold bind. by intros ->. Qed.

Lemma bind_raise {A B} (m : M A) (k : A → M B) s e s' :
  m s = (Raise e, s') → bind m k s = (Raise e, s').
Proof. unfold bind. by intros ->. Qed.

Lemma for_each_cons {A} (x : A) (l : list A) (body : A → M unit) s :
  for_each (x :: l) body s = bind (body x) (λ _, for_each l body) s.
Proof. done. Qed.

Lemma for_each_app {A} (l1 l2 : list A) (body : A → M unit) s s1 :
  for_each l1 body s = (Ok (), s1) →
  for_each (l1 ++ l2) body s = for_each l2 body s1.
Proof.
  revert s. induction l1 as [|x l1 IH]; intros s; simpl.
  - unfold ret. by intros [= ->].
  - unfold bind. destruct (body x s) as [[[]|e] s2]; [|done]. apply IH.
Qed.

Lemma for_each_raise {A} (l1 : list A) (x : A) (l2 : list A)
    (body : A → M unit) s s1 e s2 :
  for_each l1 body s = (Ok (), s1) →
  body x s1 = (Raise e, s2) →
  for_each (l1 ++ x :: l2) body s = (Raise e, s2).
Proof.
  intros H1 H2. rewrite (for_each_app _ _ _ _ _ H1). simpl.
  by apply bind_raise.
Qed.

Lemma alloc_doc_eq (d : Doc.t table) (s : state) :
  alloc_doc d s =
  (Ok (doc_at (length (heap s)) d),
   {| self := self s; heap := heap s ++ doc_objects d; log := log s |}).
Proof.
  unfold alloc_doc, doc_at, doc_objects, bind.
  destruct d as [sa sj df dj tn ptf gcd cmds gs mp]. simpl.
  destruct cmds as [cs|], gs as [gs|]; simpl;
    unfold bind; rewrite ?alloc_all_run; simpl; unfold ret; simpl;
    rewrite ?alloc_all_run; simpl; rewrite ?length_app, ?app_nil_r,
      ?Nat.add_0_r, <- ?app_assoc; try done.
  by destruct s.
Qed.

(** ** Rosters *)

Lemma split_fields_cons sep s : ∃ f fs, split_fields sep s = f :: fs.
Proof.
  induction s as [|c r (f & fs & IH)]; simpl; [by eauto|].
  destruct (Ascii.eqb c sep); [by eauto|]. rewrite IH. by eauto.
Qed.

Lemma csv_row_nil line : csv_row line = [] ↔ line = EmptyString.
Proof.
  split; [|by intros ->].
  destruct line as [|c r]; [done|]. unfold csv_row.
  destruct (split_fields_cons " "%char (String c r)) as (f & fs & ->). done.
Qed.

Lemma csv_reader_blank pre post :
  csv_reader (pre ++ EmptyString :: post)
  = csv_reader pre ++ [] :: csv_reader post.
Proof. unfold csv_reader. by rewrite fmap_app. Qed.

Lemma csv_reader_nonblank lines :
  Forall (λ l, l ≠ EmptyString) lines →
  Forall (λ row, row ≠ []) (csv_reader lines).
Proof.
  unfold csv_reader. intros H. apply Forall_fmap.
  eapply Forall_impl; [exact H|]. intros l Hl Hrow. by apply csv_row_nil in Hrow.
Qed.

Lemma set_player_titles_same c t :
  player_titles c = Some t → set_player_titles t c = c.
Proof. destruct c. simpl. by intros ->. Qed.

Lemma set_janitors_same c j :
  janitors c = Some j → set_janitors j c = c.
Proof. destruct c. simpl. by intros ->. Qed.

Lemma set_devteam_same c : set_devteam (devteam c) c = c.
Proof. by destruct c. Qed.

Lemma player_title_rows_ok rows s t :
  player_titles (self s) = Some t →
  Forall (λ row, row ≠ []) rows →
  for_each rows player_title_row s =
  (Ok (), {| self := set_player_titles (foldl (add_row lower) t rows) (self s);
             heap := heap s; log := log s |}).
Proof.
  intros Ht Hrows. revert s t Ht.
  induction Hrows as [|row rows Hrow _ IH]; intros s t Ht.
  - simpl. unfold ret. rewrite set_player_titles_same by done. by destruct s.
  - destruct row as [|r0 alts]; [done|].
    rewrite for_each_cons.
    erewrite bind_ok; last first.
    { unfold player_title_row, get_player_titles, get_self, bind.
      rewrite Ht. unfold ret, modify_self. reflexivity. }
    by rewrite (IH _ (dict_set (KStr (lower r0)) (lower <$> alts) t)).
Qed.

Lemma devteam_row_ok r0 alts s d j :
  data (self s) = Some d →
  janitors (self s) = Some j →
  devteam_row (r0 :: alts) s =
  (Ok (),
   {| self :=
        set_janitors
          (if is_true (Doc.devs_are_server_janitors d)
           then j ∪ list_to_set (r0 :: alts) else j)
          (set_devteam (dict_set (KStr r0) (lower <$> alts) (devteam (self s)))
                       (self s));
      heap := heap s; log := log s |}).
Proof.
  intros Hd Hj.
  unfold devteam_row, get, get_janitors, get_self, modify_self, when, bind.
  simpl. rewrite Hd. unfold ret.
  destruct (is_true (Doc.devs_are_server_janitors d)); simpl.
  - by rewrite Hj.
  - f_equal. f_equal. destruct (self s). simpl in *. by subst.
Qed.

Lemma devteam_rows_ok rows s d j :
  data (self s) = Some d →
  janitors (self s) = Some j →
  Forall (λ row, row ≠ []) rows →
  for_each rows devteam_row s =
  (Ok (),
   {| self :=
        set_janitors
          (if is_true (Doc.devs_are_server_janitors d)
           then j ∪ list_to_set (concat rows) else j)
          (set_devteam (foldl (add_row id) (devteam (self s)) rows) (self s));
      heap := heap s; log := log s |}).
Proof.
  intros Hd Hj Hrows. revert s j Hd Hj.
  induction Hrows as [|row rows Hrow _ IH]; intros s j Hd Hj.
  - simpl. unfold ret. rewrite set_devteam_same.
    assert ((if is_true (Doc.devs_are_server_janitors d)
             then j ∪ ∅ else j) = j) as ->
      by (destruct (is_true _); by rewrite ?union_empty_r_L).
    rewrite set_janitors_same by done. by destruct s.
  - destruct row as [|r0 alts]; [done|].
    rewrite for_each_cons.
    rewrite (bind_ok _ _ _ _ _ (devteam_row_ok r0 alts s d j Hd Hj)).
    erewrite IH; [|done|reflexivity]. simpl.
    unfold set_janitors, set_devteam. simpl. do 4 f_equal.
    destruct (is_true (Doc.devs_are_server_janitors d)); [|done].
    rewrite list_to_set_app_L. by rewrite !(assoc_L (∪)).
Qed.

Lemma load_devteam_rows (fs : FileSystem) (p : string) (d : Doc.t table)
    (lines0 : list string) (file : string) (lines : list string) :
  open_file fs p = inr lines0 →
  toml_load fs (VStr p) = Some d →
  nonempty_list (Doc.server_admins d) = true →
  nonempty_list (Doc.server_janitors d) = true →
  Doc.devteam_file d = Some file → file ≠ EmptyString →
  open_file fs file = inr lines →
  load fs (init_state p) =
  (for_each (csv_reader lines) devteam_row >>
   load_player_titles fs >> load_janitor_commands)
    (state_after_devteam p d []).
Proof.
  intros Hopen Htoml Ha Hj Hfile Hne Hlines.
  unfold load, get, get_janitors, get_admins, get_self, when, modify_self,
    ret, bind. simpl.
  rewrite Hopen, Htoml, alloc_doc_eq. simpl. rewrite Ha. simpl.
  rewrite Hj. simpl. rewrite Hfile.
  destruct file as [|c file]; [done|]. simpl. rewrite Hlines.
  unfold state_after_devteam, roster, janitor_set, admin_set. simpl.
  assert (∀ j : gset string,
            (if is_true (Doc.devs_are_server_janitors d) then j ∪ ∅ else j) = j)
    as -> by (intros j; destruct (is_true _); by rewrite ?union_empty_r_L).
  reflexivity.
Qed.

(** C8, counterexample: a blank line in the devteam file, or in the title
    file, makes [load] raise [IndexError] at [row[0]]; the rows after the
    blank line are not read. *)
Lemma blank_roster_line_raises :
  (load fs_blank_devteam (init_state "config.toml")).1 = Raise IndexError ∧
  devteam (self (load fs_blank_devteam (init_state "config.toml")).2)
    = [(KStr "Alice", ["al"])] ∧
  (load fs_blank_titles (init_state "config.toml")).1 = Raise IndexError ∧
  player_titles (self (load fs_blank_titles (init_state "config.toml")).2)
    = Some [(KStr "slayer", ["alice"])].
Proof. vm_compute. done. Qed.

(** C8, amended: roster loading (developer roster and title roster) has
    no case for a row without tokens: it raises [IndexError] at the first
    blank line, the rows before it loaded.  When every line of the roster
    file has at least one token, the loader produces the roster of all its
    rows, and [load] goes on with the steps after the devteam file. *)
Theorem roster_rows_need_a_token (fs : FileSystem) (file : string)
    (lines : list string) :
  file ≠ EmptyString →
  open_file fs file = inr lines →
  (∀ s d,
     data (self s) = Some d →
     nonempty_list (Doc.title_names d) = true →
     Doc.player_title_file d = Some file →
     (Forall (λ l, l ≠ EmptyString) lines →
      load_player_titles fs s =
      (Ok (), {| self := set_player_titles (roster lower (csv_reader lines))
                                           (self s);
                 heap := heap s; log := log s |})) ∧
     (∀ pre post,
        lines = pre ++ EmptyString :: post →
        Forall (λ l, l ≠ EmptyString) pre →
        load_player_titles fs s =
        (Raise IndexError,
         {| self := set_player_titles (roster lower (csv_reader pre)) (self s);
            heap := heap s; log := log s |}))) ∧
  (∀ p d lines0,
     open_file fs p = inr lines0 →
     toml_load fs (VStr p) = Some d →
     nonempty_list (Doc.server_admins d) = true →
     nonempty_list (Doc.server_janitors d) = true →
     Doc.devteam_file d = Some file →
     (Forall (λ l, l ≠ EmptyString) lines →
      load fs (init_state p) =
      (load_player_titles fs >> load_janitor_commands)
        (state_after_devteam p d (csv_reader lines))) ∧
     (∀ pre post,
        lines = pre ++ EmptyString :: post →
        Forall (λ l, l ≠ EmptyString) pre →
        load fs (init_state p) =
        (Raise IndexError, state_after_devteam p d (csv_reader pre)))).
Proof.
  intros Hne Hlines. split.
  - intros s d Hd Hnames Hfile.
    assert (load_player_titles fs s =
            for_each (csv_reader lines) player_title_row
              {| self := set_player_titles [] (self s);
                 heap := heap s; log := log s |}) as ->.
    { unfold load_player_titles, get, get_self, modify_self, ret, bind.
      rewrite Hd. cbv beta iota. rewrite Hd. cbv beta iota.
      rewrite Hnames, Hfile. destruct file; [done|]. simpl.
      by rewrite Hlines. }
    split.
    + intros Hall.
      by rewrite (player_title_rows_ok _ _ [])
        by (done || by apply csv_reader_nonblank).
    + intros pre post -> Hpre. rewrite csv_reader_blank.
      eapply for_each_raise.
      * by apply (player_title_rows_ok _ _ []);
          [|apply csv_reader_nonblank].
      * done.
  - intros p d lines0 Hopen Htoml Ha Hj Hfile.
    rewrite (load_devteam_rows fs p d lines0 file lines) by done.
    assert (∀ rows, Forall (λ row, row ≠ []) rows →
              for_each rows devteam_row (state_after_devteam p d [])
              = (Ok (), state_after_devteam p d rows)) as Hrows.
    { intros rows Hall.
      erewrite devteam_rows_ok; [|reflexivity|reflexivity|done].
      unfold state_after_devteam, roster. simpl. do 4 f_equal.
      destruct (is_true (Doc.devs_are_server_janitors d)); [|done].
      by rewrite union_empty_r_L. }
    split.
    + intros Hall.
      by erewrite bind_ok; [|apply Hrows, csv_reader_nonblank].
    + intros pre post -> Hpre. rewrite csv_reader_blank.
      apply bind_raise. eapply for_each_raise.
      * apply Hrows. by apply csv_reader_nonblank.
      * done.
Qed.

Lemma roster_rows_need_a_token_witness :
  load_player_titles (fs_titles ["slayer"; "champion"])
    (state_after_devteam "config.toml"
       (config_with_titles ["slayer"; "champion"]) [])
  = (Ok (),
     {| self :=
          set_player_titles
            (roster lower (csv_reader ["Slayer alice bob"; "Champion alice"]))
            (self (state_after_devteam "config.toml"
                     (config_with_titles ["slayer"; "champion"]) []));
        heap := []; log := [] |}).
Proof.
  destruct (roster_rows_need_a_token (fs_titles ["slayer"; "champion"])
              "titles.txt" ["Slayer alice bob"; "Champion alice"]
              ltac:(discriminate) eq_refl) as [Htitles _].
  destruct (Htitles (state_after_devteam "config.toml"
                       (config_with_titles ["slayer"; "champion"]) [])
                    (doc_at 0 (config_with_titles ["slayer"; "champion"]))
                    eq_refl eq_refl eq_refl) as [Hok _].
  apply Hok. repeat constructor; discriminate.
Defined.

(** ** Argument templates *)

Lemma append_cons (c : ascii) (a b : string) :
  String.append (String c a) b = String c (String.append a b).
Proof. done. Qed.

Lemma append_nil_l (b : string) : String.append EmptyString b = b.
Proof. done. Qed.

Lemma append_assoc (a b c : string) :
  String.append (String.append a b) c = String.append a (String.append b c).
Proof.
  induction a as [|x a IH]; [done|]. by rewrite !append_cons, IH.
Qed.

Lemma append_nil_r (a : string) : String.append a EmptyString = a.
Proof. induction a as [|x a IH]; [done|]. by rewrite append_cons, IH. Qed.

Lemma snoc_append (a : string) (c : ascii) (b : string) :
  String.append (snoc a c) b = String.append a (String c b).
Proof. unfold snoc. by rewrite append_assoc. Qed.

Lemma is_brace_false c :
  is_brace c = false →
  Ascii.eqb c "{"%char = false ∧ Ascii.eqb c "}"%char = false.
Proof. unfold is_brace. by intros ?%orb_false_iff. Qed.

(** Literal text without braces is accumulated. *)
Lemma markup_text (s : string) (lit rest : string) :
  no_char is_brace s = true →
  markup (InLiteral lit) (String.append s rest)
  = markup (InLiteral (String.append lit s)) rest.
Proof.
  revert lit. induction s as [|c s IH]; intros lit Hs.
  - by rewrite append_nil_r, append_nil_l.
  - simpl in Hs. apply andb_true_iff in Hs as [Hc Hs].
    apply negb_true_iff, is_brace_false in Hc as [Hc1 Hc2].
    rewrite append_cons. cbn [markup]. rewrite Hc1, Hc2.
    rewrite IH by done. by rewrite snoc_append.
Qed.

(** Inside a field, text without braces is accumulated. *)
Lemma markup_field_body (n : string) (lit body rest : string) (depth : nat) :
  no_char is_brace n = true →
  markup (InField lit depth body) (String.append n rest)
  = markup (InField lit depth (String.append body n)) rest.
Proof.
  revert body. induction n as [|c n IH]; intros body Hn.
  - by rewrite append_nil_r, append_nil_l.
  - simpl in Hn. apply andb_true_iff in Hn as [Hc Hn].
    apply negb_true_iff, is_brace_false in Hc as [Hc1 Hc2].
    rewrite append_cons. cbn [markup]. rewrite Hc1, Hc2.
    rewrite IH by done. by rewrite snoc_append.
Qed.

Lemma split_name_simple (n : string) :
  no_char is_name_end n = true → split_name n = (n, None).
Proof.
  induction n as [|c n IH]; simpl; [done|].
  intros [Hc Hn]%andb_true_iff. apply negb_true_iff in Hc.
  unfold is_name_end in Hc. rewrite Hc, IH by done. done.
Qed.

(** A [{name}] field yields one token with that field name. *)
Lemma markup_field (n : string) (lit rest : string) :
  simple (Field n) = true →
  markup (InLiteral lit) (String.append (render_segment (Field n)) rest)
  = yield (Token lit (Some n) (Some EmptyString) None)
          (markup (InLiteral EmptyString) rest).
Proof.
  intros Hn. simpl in Hn.
  apply andb_true_iff in Hn as [[Hne Hb]%andb_true_iff He].
  destruct n as [|c n]; [done|].
  simpl in Hb. apply andb_true_iff in Hb as [Hc Hb].
  apply negb_true_iff in Hc. pose proof Hc as Hc'.
  apply is_brace_false in Hc as [Hc1 Hc2].
  cbn [render_segment]. rewrite !append_cons. cbn [markup].
  change (Ascii.eqb "{"%char "{"%char) with true. cbv iota.
  rewrite Hc1, Hc2.
  rewrite append_assoc, markup_field_body by done.
  rewrite append_cons, append_nil_l. cbn [markup].
  change (Ascii.eqb "}"%char "{"%char) with false.
  change (Ascii.eqb "}"%char "}"%char) with true. cbv iota.
  unfold parse_field, snoc. rewrite append_nil_l, append_cons, append_nil_l.
  by rewrite (split_name_simple (String c n)) by done.
Qed.

Lemma markup_render (gs : list segment) (lit : string) :
  Forall (λ g, simple g = true) gs →
  (markup (InLiteral lit) (render gs)).2 = None ∧
  token_names (markup (InLiteral lit) (render gs)).1 = field_names gs.
Proof.
  intros H. revert lit. induction H as [|g gs Hg _ IH]; intros lit.
  - simpl. by destruct lit.
  - destruct g as [s|n]; cbn [render field_names].
    + cbn [render_segment]. rewrite markup_text by done. apply IH.
    + rewrite markup_field by done. cbn [yield fst snd token_names field_name].
      destruct (IH EmptyString) as [-> ->]. split; [done|].
      simpl in Hg. by destruct n.
Qed.

Lemma template_params_render (gs : list segment) :
  Forall (λ g, simple g = true) gs →
  (formatter_parse (render gs)).2 = None ∧
  template_params (render gs) = placeholders gs.
Proof.
  intros H. unfold template_params, placeholders, formatter_parse.
  destruct (markup_render gs EmptyString H) as [-> ->]. done.
Qed.

(** ** Janitor commands *)

Lemma require_field_ok cmd field s t :
  heap s !! cmd = Some t → is_Some (t !! field) →
  require_field cmd field s = (Ok (), s).
Proof.
  intros Ht Hf. unfold require_field, deref, when, bind. rewrite Ht.
  by rewrite bool_decide_eq_true_2.
Qed.

Lemma require_field_missing cmd field s t :
  heap s !! cmd = Some t → t !! field = None →
  require_field cmd field s =
  (Raise (SystemExit 1),
   {| self := self s; heap := heap s;
      log := log s ++ [missing_field_error field] |}).
Proof.
  intros Ht Hf. unfold require_field, deref, when, bind. rewrite Ht.
  rewrite bool_decide_eq_false_2; [done|]. rewrite Hf. by intros [??].
Qed.

Lemma require_fields_ok cmd fields s t :
  heap s !! cmd = Some t → Forall (λ f, is_Some (t !! f)) fields →
  for_each fields (require_field cmd) s = (Ok (), s).
Proof.
  intros Ht. induction 1 as [|f r Hf _ IH]; [done|].
  rewrite for_each_cons.
  by rewrite (bind_ok _ _ _ _ _ (require_field_ok cmd f s t Ht Hf)).
Qed.

Lemma add_params_run cmd toks s t P :
  heap s !! cmd = Some t → t !! "params" = Some (VSet P) →
  for_each toks (add_param cmd) s =
  (Ok (),
   {| self := self s;
      heap := <[cmd := <["params" := VSet (P ∪ list_to_set (token_names toks))]> t]>
                (heap s);
      log := log s |}).
Proof.
  revert s t P. induction toks as [|tok toks IH]; intros s t P Ht Hp.
  - simpl. unfold ret. rewrite union_empty_r_L.
    rewrite insert_id by done. rewrite list_insert_id by done. by destruct s.
  - rewrite for_each_cons. cbn [token_names]. unfold add_param at 1.
    destruct (field_name tok) as [[|c n]|] eqn:Hn;
      try (rewrite (bind_ok _ _ s () s) by done; by apply IH).
    erewrite bind_ok; last first.
    { unfold params_add, getitem, deref, setitem, bind.
      rewrite Ht, Hp. simpl. rewrite Ht. reflexivity. }
    erewrite IH; last first.
    { apply lookup_insert_eq. }
    { simpl. apply list_lookup_insert_eq. by eapply lookup_lt_Some. }
    simpl.
    rewrite list_insert_insert_eq, insert_insert_eq.
    do 4 f_equal. by rewrite (assoc_L (∪)).
Qed.

Lemma load_janitor_command_ok cmd s t k :
  heap s !! cmd = Some t → command_ok t → id_key t = Some k →
  load_janitor_command cmd s =
  (Ok (),
   {| self := set_janitor_commands (dict_set k cmd (janitor_commands (self s)))
                                   (self s);
      heap := <[cmd := with_params t]> (heap s);
      log := log s |}).
Proof.
  intros Ht (Hfields & _ & template & Htpl & Hparse) Hk.
  assert (cmd < length (heap s)) as Hlen by (by eapply lookup_lt_Some).
  unfold command_template in Htpl.
  destruct (t !! "argument") as [[template'| | | | |]|] eqn:Harg; try done.
  injection Htpl as ->.
  unfold id_key in Hk.
  destruct (t !! "id") as [idv|] eqn:Hid; [|done].
  destruct (py_hash idv) as [|k'] eqn:Hhash; [done|]. injection Hk as ->.
  unfold load_janitor_command.
  rewrite (bind_ok _ _ _ _ _ (require_fields_ok cmd _ s t Ht Hfields)).
  erewrite bind_ok; last first.
  { unfold setitem. rewrite Ht. reflexivity. }
  erewrite bind_ok; last first.
  { unfold getitem, deref, bind. simpl.
    rewrite list_lookup_insert_eq by done.
    rewrite lookup_insert_ne by done. rewrite Harg. reflexivity. }
  cbv beta iota.
  unfold with_params, command_template, template_params. rewrite Harg.
  destruct (formatter_parse template) as [tokens err] eqn:Hp.
  simpl in Hparse. subst err.
  erewrite bind_ok; last first.
  { erewrite bind_ok; last first.
    { eapply add_params_run.
      - simpl. by apply list_lookup_insert_eq.
      - apply lookup_insert_eq. }
    reflexivity. }
  unfold getitem, deref, lift, get_self, modify_self, ret, bind. simpl.
  rewrite list_insert_insert_eq, insert_insert_eq.
  rewrite list_lookup_insert_eq by done.
  rewrite lookup_insert_ne by done. rewrite Hid, Hhash.
  by rewrite union_empty_l_L.
Qed.

Lemma load_janitor_command_missing cmd s t fpre field fpost :
  heap s !! cmd = Some t →
  required_fields = fpre ++ field :: fpost →
  Forall (λ f, is_Some (t !! f)) fpre →
  t !! field = None →
  load_janitor_command cmd s =
  (Raise (SystemExit 1),
   {| self := self s; heap := heap s;
      log := log s ++ [missing_field_error field] |}).
Proof.
  intros Ht Hreq Hpre Hf. unfold load_janitor_command. rewrite Hreq.
  apply bind_raise. eapply for_each_raise.
  - by eapply require_fields_ok.
  - by eapply require_field_missing.
Qed.

Lemma parse_field_error lit body e :
  parse_field lit body = inl e → e = ValueError.
Proof.
  unfold parse_field. destruct (split_name body) as [name [[c r]|]]; [|done].
  destruct (Ascii.eqb c "!"%char); [|done].
  destruct r as [|conv [|c' spec]]; [congruence|done|].
  destruct (Ascii.eqb c' ":"%char); [done|congruence].
Qed.

(** The template parser raises no exception other than [ValueError]. *)
Lemma markup_error (s : string) (st : scan) (e : exn) :
  (markup st s).2 = Some e → e = ValueError.
Proof.
  remember (String.length s) as n eqn:Hn.
  assert (String.length s ≤ n) as Hle by lia. clear Hn.
  revert s st Hle. induction n as [|n IH]; intros s st Hle.
  - destruct s; [|simpl in Hle; lia].
    simpl. destruct st as [[|]|]; simpl; congruence.
  - destruct s as [|c r]; [simpl; destruct st as [[|]|]; simpl; congruence|].
    simpl in Hle.
    assert (∀ st', (markup st' r).2 = Some e → e = ValueError) as IHr
      by (intros st'; apply IH; lia).
    assert (∀ c' r' st', r = String c' r' →
              (markup st' r').2 = Some e → e = ValueError) as IHr'
      by (intros c' r' st' ->; apply IH; simpl in Hle; lia).
    cbn [markup]. destruct st as [lit|lit depth body].
    + destruct (Ascii.eqb c "{"%char).
      { destruct r as [|c' r']; [simpl; congruence|].
        destruct (Ascii.eqb c' "{"%char); [|by apply IHr].
        unfold yield. simpl. by eapply IHr'. }
      destruct (Ascii.eqb c "}"%char); [|by apply IHr].
      destruct r as [|c' r']; [simpl; congruence|].
      destruct (Ascii.eqb c' "}"%char); [|simpl; congruence].
      unfold yield. simpl. by eapply IHr'.
    + destruct (Ascii.eqb c "{"%char); [by apply IHr|].
      destruct (Ascii.eqb c "}"%char); [|by apply IHr].
      destruct depth as [|[|d]]; try by apply IHr.
      * destruct (parse_field lit body) as [e'|t] eqn:Hp.
        -- simpl. intros [= <-]. by eapply parse_field_error.
        -- unfold yield. simpl. by apply IHr.
      * destruct (parse_field lit body) as [e'|t] eqn:Hp.
        -- simpl. intros [= <-]. by eapply parse_field_error.
        -- unfold yield. simpl. by apply IHr.
Qed.

(** A definition with the four fields passes validation: whatever the
    rest of the loop body does with it, it does not exit. *)
Lemma load_janitor_command_no_exit cmd s t code s' :
  heap s !! cmd = Some t →
  Forall (λ f, is_Some (t !! f)) required_fields →
  load_janitor_command cmd s ≠ (Raise (SystemExit code), s').
Proof.
  intros Ht Hfields. unfold load_janitor_command.
  rewrite (bind_ok _ _ _ _ _ (require_fields_ok cmd _ s t Ht Hfields)).
  assert (cmd < length (heap s)) as Hlen by (by eapply lookup_lt_Some).
  assert (is_Some (t !! "argument")) as [arg Harg].
  { rewrite Forall_forall in Hfields. apply Hfields.
    unfold required_fields. rewrite !elem_of_cons. auto. }
  assert (is_Some (t !! "id")) as [idv Hid].
  { rewrite Forall_forall in Hfields. apply Hfields.
    unfold required_fields. rewrite !elem_of_cons. auto. }
  erewrite bind_ok; last first.
  { unfold setitem. rewrite Ht. reflexivity. }
  erewrite bind_ok; last first.
  { unfold getitem, deref, bind. simpl.
    rewrite list_lookup_insert_eq by done.
    rewrite lookup_insert_ne by done. rewrite Harg. reflexivity. }
  cbv beta iota.
  destruct arg as [template| | | | |]; try done.
  destruct (formatter_parse template) as [tokens err] eqn:Hp.
  destruct err as [e|].
  - erewrite bind_raise; last first.
    { erewrite bind_ok; last first.
      { eapply add_params_run.
        - simpl. by apply list_lookup_insert_eq.
        - apply lookup_insert_eq. }
      reflexivity. }
    assert (e = ValueError) as ->; [|done].
    apply (markup_error template (InLiteral EmptyString)).
    unfold formatter_parse in Hp. by rewrite Hp.
  - erewrite bind_ok; last first.
    { erewrite bind_ok; last first.
      { eapply add_params_run.
        - simpl. by apply list_lookup_insert_eq.
        - apply lookup_insert_eq. }
      reflexivity. }
    unfold getitem, deref, lift, get_self, modify_self, raise, ret, bind.
    simpl. rewrite list_insert_insert_eq.
    rewrite list_lookup_insert_eq by done.
    rewrite !lookup_insert_ne by done. rewrite Hid.
    by destruct idv.
Qed.

Lemma dict_get_set_eq {V} (k : hkey) (v : V) (d : pydict V) :
  dict_get k (dict_set k v d) = Some v.
Proof.
  induction d as [|[k' v'] d IH]; simpl.
  - by rewrite decide_True.
  - destruct (decide (k = k')) as [->|Hne]; simpl.
    + by rewrite decide_True.
    + by rewrite decide_False.
Qed.

Lemma dict_get_set_ne {V} (k k' : hkey) (v : V) (d : pydict V) :
  k ≠ k' → dict_get k' (dict_set k v d) = dict_get k' d.
Proof.
  intros Hne. induction d as [|[k'' v''] d IH]; simpl.
  - by rewrite decide_False.
  - destruct (decide (k = k'')) as [->|Hne']; simpl.
    + by rewrite !decide_False.
    + destruct (decide (k' = k'')); [done|apply IH].
Qed.

Lemma id_key_with_params t : id_key (with_params t) = id_key t.
Proof.
  unfold with_params, id_key. destruct (command_template t); [|done].
  by rewrite lookup_insert_ne.
Qed.

Lemma load_command_step_length st cmd :
  length (load_command_step st cmd).1 = length st.1.
Proof.
  unfold load_command_step. destruct (st.1 !! cmd) as [t|]; [|done].
  destruct (id_key t); [|done]. simpl. by rewrite length_insert.
Qed.

Lemma load_command_step_other st cmd c :
  c ≠ cmd → (load_command_step st cmd).1 !! c = st.1 !! c.
Proof.
  intros Hne. unfold load_command_step.
  destruct (st.1 !! cmd) as [t|]; [|done].
  destruct (id_key t); [|done]. simpl. by rewrite list_lookup_insert_ne.
Qed.

Lemma load_command_steps_other cmds st c :
  c ∉ cmds → (foldl load_command_step st cmds).1 !! c = st.1 !! c.
Proof.
  revert st. induction cmds as [|x r IH]; intros st Hc; [done|].
  apply not_elem_of_cons in Hc as [Hne Hc]. simpl.
  rewrite IH by done. by apply load_command_step_other.
Qed.

(** Every loaded definition carries the parameters of its template. *)
Lemma load_command_steps_params cmds st c t :
  NoDup cmds → c ∈ cmds → st.1 !! c = Some t → is_Some (id_key t) →
  (foldl load_command_step st cmds).1 !! c = Some (with_params t).
Proof.
  revert st. induction cmds as [|x r IH]; intros st Hnd Hc Ht Hk.
  { by apply elem_of_nil in Hc. }
  apply NoDup_cons in Hnd as [Hx Hnd]. simpl.
  destruct (decide (c = x)) as [->|Hne].
  - rewrite load_command_steps_other by done.
    unfold load_command_step. rewrite Ht. destruct Hk as [k ->]. simpl.
    apply list_lookup_insert_eq. by eapply lookup_lt_Some.
  - apply elem_of_cons in Hc as [?|Hc]; [done|].
    apply IH; [done..| |done]. by rewrite load_command_step_other.
Qed.

(** Every loaded definition has an entry under its id in the command
    table, which holds a definition of that id. *)
Lemma load_command_steps_table cmds st c t k :
  NoDup cmds → c ∈ cmds → st.1 !! c = Some t → id_key t = Some k →
  ∃ c' t', c' ∈ cmds ∧ st.1 !! c' = Some t' ∧ id_key t' = Some k ∧
           dict_get k (foldl load_command_step st cmds).2 = Some c'.
Proof.
  revert c t. induction cmds as [|x l IH] using rev_ind; intros c t Hnd Hc Ht Hk.
  { by apply elem_of_nil in Hc. }
  apply NoDup_app in Hnd as (Hnd & Hx & _).
  assert (x ∉ l) as Hxl by (intros ?; eapply Hx; [done|by left]).
  rewrite foldl_app. simpl.
  unfold load_command_step at 1.
  rewrite load_command_steps_other by done.
  destruct (st.1 !! x) as [tx|] eqn:Htx.
  - destruct (id_key tx) as [kx|] eqn:Hkx.
    + simpl. destruct (decide (kx = k)) as [->|Hne].
      * exists x, tx. rewrite dict_get_set_eq.
        split; [apply elem_of_app; right; by left|done].
      * rewrite dict_get_set_ne by done.
        apply elem_of_app in Hc as [Hc|Hc%list_elem_of_singleton].
        -- destruct (IH c t Hnd Hc Ht Hk) as (c' & t' & ? & ? & ? & ?).
           exists c', t'. split; [apply elem_of_app; by left|done].
        -- subst c. congruence.
    + apply elem_of_app in Hc as [Hc|Hc%list_elem_of_singleton].
      * destruct (IH c t Hnd Hc Ht Hk) as (c' & t' & ? & ? & ? & ?).
        exists c', t'. split; [apply elem_of_app; by left|done].
      * subst c. congruence.
  - apply elem_of_app in Hc as [Hc|Hc%list_elem_of_singleton].
    + destruct (IH c t Hnd Hc Ht Hk) as (c' & t' & ? & ? & ? & ?).
      exists c', t'. split; [apply elem_of_app; by left|done].
    + subst c. congruence.
Qed.

Lemma load_janitor_commands_loop cmds s :
  NoDup cmds →
  Forall (λ c, ∃ t, heap s !! c = Some t ∧ command_ok t) cmds →
  for_each cmds load_janitor_command s =
  (Ok (),
   {| self :=
        set_janitor_commands
          (foldl load_command_step (heap s, janitor_commands (self s)) cmds).2
          (self s);
      heap := (foldl load_command_step (heap s, janitor_commands (self s))
                     cmds).1;
      log := log s |}).
Proof.
  revert s. induction cmds as [|c r IH]; intros s Hnd Hok.
  - simpl. unfold ret. destruct s as [[] ? ?]. done.
  - apply NoDup_cons in Hnd as [Hc Hnd].
    apply Forall_cons in Hok as [(t & Ht & Hokt) Hok].
    destruct (proj1 (proj2 Hokt)) as [k Hk].
    rewrite for_each_cons.
    rewrite (bind_ok _ _ _ _ _ (load_janitor_command_ok c s t k Ht Hokt Hk)).
    assert (load_command_step (heap s, janitor_commands (self s)) c
            = (<[c := with_params t]> (heap s),
               dict_set k c (janitor_commands (self s)))) as Hstep
      by (unfold load_command_step; simpl; by rewrite Ht, Hk).
    rewrite IH; [|done|].
    + cbn [foldl]. rewrite Hstep. reflexivity.
    + simpl. rewrite Forall_forall in Hok. apply Forall_forall.
      intros c' Hc'. destruct (Hok c' Hc') as (t' & Ht' & Hokt').
      exists t'. split; [|done].
      rewrite list_lookup_insert_ne; [done|]. by intros ->.
Qed.

Lemma load_janitor_commands_unfold s d cmds :
  data (self s) = Some d → Doc.janitor_commands d = Some cmds →
  load_janitor_commands s =
  for_each cmds load_janitor_command
    {| self := set_janitor_commands [] (self s);
       heap := heap s; log := log s |}.
Proof.
  intros Hd Hcmds.
  unfold load_janitor_commands, get, get_self, modify_self, ret, bind.
  simpl. rewrite Hd. simpl. rewrite Hcmds. by destruct cmds.
Qed.

(** C6: the extracted [params] of a janitor command is the set of the
    names of the replacement fields of its argument template; the
    template [ban {target} for {reason}] gives [{target, reason}] and the
    template [list] gives the empty set. *)
Theorem janitor_command_params (s : state) (d : Doc.t loc) (cmds : list loc) :
  data (self s) = Some d →
  Doc.janitor_commands d = Some cmds →
  NoDup cmds →
  Forall (λ c, ∃ t, heap s !! c = Some t ∧ command_ok t) cmds →
  ∃ s', load_janitor_commands s = (Ok (), s') ∧
    ∀ c t gs,
      c ∈ cmds → heap s !! c = Some t →
      t !! "argument" = Some (VStr (render gs)) →
      Forall (λ g, simple g = true) gs →
      ∃ t', heap s' !! c = Some t' ∧
            t' !! "params" = Some (VSet (placeholders gs)).
Proof.
  intros Hd Hcmds Hnd Hok.
  rewrite (load_janitor_commands_unfold s d cmds Hd Hcmds).
  rewrite load_janitor_commands_loop by done.
  eexists. split; [done|]. simpl.
  intros c t gs Hc Ht Harg Hgs.
  rewrite Forall_forall in Hok. destruct (Hok c Hc) as (t0 & Ht0 & Hokt).
  assert (t0 = t) as -> by congruence.
  exists (with_params t). split.
  - apply load_command_steps_params; [done..|]. apply Hokt.
  - unfold with_params, command_template. rewrite Harg.
    rewrite lookup_insert_eq.
    by destruct (template_params_render gs Hgs) as [_ ->].
Qed.

Lemma command_def_ok id argument :
  (formatter_parse argument).2 = None → command_ok (command_def id argument).
Proof.
  intros Hp. split; [|split].
  - unfold required_fields, command_def.
    repeat constructor; eexists; by simplify_map_eq.
  - unfold id_key, command_def. by simplify_map_eq.
  - exists argument. split; [|done].
    unfold command_template, command_def. by simplify_map_eq.
Qed.

Lemma janitor_command_params_witness :
  ∃ s', load_janitor_commands (state_commands [ban_command; list_command])
        = (Ok (), s') ∧
    (∃ t', heap s' !! 0 = Some t' ∧
           t' !! "params" = Some (VSet {["target"; "reason"]})) ∧
    (∃ t', heap s' !! 1 = Some t' ∧ t' !! "params" = Some (VSet ∅)).
Proof.
  destruct (janitor_command_params
              (state_commands [ban_command; list_command])
              (doc_at 0 (config_with_commands [ban_command; list_command]))
              [0; 1] eq_refl eq_refl) as (s' & Hrun & Hparams).
  - apply NoDup_cons. split; [by intros ?%list_elem_of_singleton|].
    apply NoDup_singleton.
  - repeat constructor.
    + exists ban_command. split; [done|]. by apply command_def_ok.
    + exists list_command. split; [done|]. by apply command_def_ok.
  - exists s'. split; [exact Hrun|]. split.
    + destruct (Hparams 0 ban_command
                  [Text "ban "; Field "target"; Text " for "; Field "reason"])
        as (t' & Ht' & Hp); [by left|done|done|by repeat constructor|].
      exists t'. split; [done|]. rewrite Hp. unfold placeholders. simpl.
      by rewrite union_empty_r_L.
    + destruct (Hparams 1 list_command [Text "list"])
        as (t' & Ht' & Hp);
        [by right; left|done|done|by repeat constructor|].
      by exists t'.
Defined.

(** C7: a janitor command definition without one of the fields [id],
    [name], [action], [argument] makes the load exit (no command table
    results), the logged error naming the first field that is missing; a
    definition with the four fields passes the check, and when every
    definition is well formed each one is in the command table under its
    id. *)
Theorem janitor_command_required_fields (s : state) (d : Doc.t loc)
    (cmds : list loc) :
  data (self s) = Some d →
  Doc.janitor_commands d = Some cmds →
  NoDup cmds →
  (∀ pre c post t fpre field fpost,
     cmds = pre ++ c :: post →
     Forall (λ c', ∃ t', heap s !! c' = Some t' ∧ command_ok t') pre →
     heap s !! c = Some t →
     required_fields = fpre ++ field :: fpost →
     Forall (λ f, is_Some (t !! f)) fpre →
     t !! field = None →
     ∃ s', load_janitor_commands s = (Raise (SystemExit 1), s') ∧
           log s' = log s ++ [missing_field_error field]) ∧
  (∀ c t s1,
     heap s1 !! c = Some t →
     Forall (λ f, is_Some (t !! f)) required_fields →
     for_each required_fields (require_field c) s1 = (Ok (), s1) ∧
     ∀ code s', load_janitor_command c s1 ≠ (Raise (SystemExit code), s')) ∧
  (Forall (λ c, ∃ t, heap s !! c = Some t ∧ command_ok t) cmds →
   ∃ s', load_janitor_commands s = (Ok (), s') ∧ log s' = log s ∧
     ∀ c t k, c ∈ cmds → heap s !! c = Some t → id_key t = Some k →
       ∃ c' t', dict_get k (janitor_commands (self s')) = Some c' ∧
                c' ∈ cmds ∧ heap s !! c' = Some t' ∧
                id_key t' = Some k).
Proof.
  intros Hd Hcmds Hnd.
  rewrite (load_janitor_commands_unfold s d cmds Hd Hcmds).
  split; [|split].
  - intros pre c post t fpre field fpost -> Hpre Ht Hreq Hfpre Hfield.
    apply NoDup_app in Hnd as (Hndpre & Hdisj & _).
    assert (c ∉ pre) as Hc by (intros ?; eapply Hdisj; [done|by left]).
    eexists. split.
    + eapply for_each_raise.
      * by apply load_janitor_commands_loop.
      * eapply load_janitor_command_missing; [|done..].
        simpl. by rewrite load_command_steps_other.
    + done.
  - intros c t s1 Ht Hfields. split.
    + by eapply require_fields_ok.
    + intros code s'. by eapply load_janitor_command_no_exit.
  - intros Hok. rewrite load_janitor_commands_loop by done.
    eexists. split; [done|]. split; [done|]. simpl.
    intros c t k Hc Ht Hk.
    destruct (load_command_steps_table cmds (heap s, []) c t k)
      as (c' & t' & ? & ? & ? & ?); [done..|].
    by exists c', t'.
Qed.

Lemma janitor_command_required_fields_witness :
  ∃ s', load_janitor_commands (state_commands [ban_command; broken_command])
        = (Raise (SystemExit 1), s') ∧
        log s' = [] ++ [missing_field_error "action"].
Proof.
  destruct (janitor_command_required_fields
              (state_commands [ban_command; broken_command])
              (doc_at 0 (config_with_commands [ban_command; broken_command]))
              [0; 1] eq_refl eq_refl) as [Hexit _].
  - apply NoDup_cons. split; [by intros ?%list_elem_of_singleton|].
    apply NoDup_singleton.
  - apply (Hexit [0] 1 [] broken_command ["id"; "name"] "action" ["argument"]).
    + reflexivity.
    + repeat constructor. exists ban_command. split; [done|].
      by apply command_def_ok.
    + reflexivity.
    + reflexivity.
    + unfold broken_command. repeat constructor; eexists; by simplify_map_eq.
    + reflexivity.
Defined.

(** ** Game definitions *)

Lemma dict_set_absent {V} (k : hkey) (v : V) (d : pydict V) :
  dict_get k d = None → dict_set k v d = d ++ [(k, v)].
Proof.
  induction d as [|[k' v'] d IH]; simpl; [done|].
  destruct (decide (k = k')); [done|]. intros H. by rewrite IH.
Qed.

Lemma dict_get_app_new {V} (k k' : hkey) (v : V) (d : pydict V) :
  dict_get k' (d ++ [(k, v)]) =
  match dict_get k' d with
  | Some x => Some x
  | None => if decide (k' = k) then Some v else None
  end.
Proof.
  induction d as [|[k'' v''] d IH]; simpl; [done|].
  by destruct (decide (k' = k'')).
Qed.

Lemma game_desc_with_maps fs t : game_desc (with_maps fs t) = game_desc t.
Proof.
  unfold with_maps, game_desc.
  destruct (t !! "map_path") as [mp|] eqn:Hmp; [|by rewrite Hmp].
  destruct (t !! "score_path") as [sp|] eqn:Hsp; [|by rewrite Hmp, Hsp].
  destruct (toml_load fs mp ≫= Doc.maps); [|by rewrite Hmp, Hsp].
  by rewrite !lookup_insert_ne, Hmp, Hsp by done.
Qed.

Lemma game_desc_id_key t t' : game_desc t = game_desc t' → id_key t = id_key t'.
Proof. unfold game_desc, id_key. by intros [= -> _ _]. Qed.

Lemma game_desc_game_ok fs t t' :
  game_desc t = game_desc t' → game_ok fs t → game_ok fs t'.
Proof.
  intros Hd [Hk Hm]. split; [by rewrite <- (game_desc_id_key t t')|].
  unfold game_desc in Hd. injection Hd as Hid Hmp Hsp.
  unfold map_loads in *. by rewrite <- Hmp, <- Hsp.
Qed.

Lemma _load_game_map_ok fs g s t :
  heap s !! g = Some t → is_Some (t !! "id") → map_loads fs t = true →
  _load_game_map fs g s =
  (Ok (),
   {| self := self s; heap := <[g := with_maps fs t]> (heap s);
      log := log s ++
        match t !! "id", t !! "map_path", t !! "score_path" with
        | Some id, Some _, None =>
            [LogRecord WARNING
               "Not parsing game map for game definition '{0}' because it has no score_path"
               [id]]
        | _, _, _ => []
        end |}).
Proof.
  intros Ht [id Hid] Hm.
  unfold _load_game_map, map_loads, with_maps in *.
  unfold deref, getitem, deref, setitem, logging, sys_exit, raise, ret, bind.
  rewrite Ht, Hid.
  destruct (t !! "map_path") as [mp|] eqn:Hmp; simpl.
  - destruct (t !! "score_path") as [sp|] eqn:Hsp; simpl.
    + rewrite Ht, Hmp.
      destruct (toml_load fs mp) as [d|]; [|done]. simpl.
      destruct (Doc.maps d) as [m|]; [|done]. simpl.
      by rewrite Ht, app_nil_r.
    + rewrite Ht, Hid. by rewrite list_insert_id.
  - rewrite list_insert_id by done. rewrite app_nil_r. by destruct s.
Qed.

Lemma _load_game_data_dup fs g s t k :
  heap s !! g = Some t → id_key t = Some k →
  dict_get k (games (self s)) ≠ None →
  _load_game_data fs g s = (Raise ValueError, s).
Proof.
  intros Ht Hk Hreg. unfold id_key in Hk.
  destruct (t !! "id") as [id|] eqn:Hid; [|done].
  destruct (py_hash id) as [|k'] eqn:Hh; [done|]. injection Hk as ->.
  unfold _load_game_data, getitem, deref, lift, get_self, raise, ret, bind.
  rewrite Ht, Hid, Hh. unfold dict_mem.
  by destruct (dict_get k (games (self s))).
Qed.

Lemma _load_game_data_new fs g s t k :
  heap s !! g = Some t → id_key t = Some k → map_loads fs t = true →
  dict_get k (games (self s)) = None →
  _load_game_data fs g s =
  (Ok (),
   {| self := set_games (games (self s) ++ [(k, g)]) (self s);
      heap := <[g := with_maps fs t]> (heap s);
      log := log s ++ loaded_log t |}).
Proof.
  intros Ht Hk Hm Hreg. unfold id_key in Hk.
  destruct (t !! "id") as [id|] eqn:Hid; [|done].
  destruct (py_hash id) as [|k'] eqn:Hh; [done|]. injection Hk as ->.
  unfold _load_game_data.
  erewrite bind_ok; last first.
  { unfold getitem, deref, bind. rewrite Ht, Hid. reflexivity. }
  erewrite bind_ok; last first.
  { rewrite Hh. reflexivity. }
  erewrite bind_ok; last first.
  { reflexivity. }
  unfold dict_mem. rewrite Hreg.
  erewrite bind_ok; last first.
  { apply (_load_game_map_ok fs g s t Ht); [by rewrite Hid|done]. }
  unfold get_self, modify_self, logging, bind. simpl.
  rewrite dict_set_absent by done.
  unfold loaded_log. rewrite Hid. by rewrite <- app_assoc.
Qed.

Lemma key_at_desc h h' g :
  (game_desc <$> h) !! g = (game_desc <$> h') !! g → key_at h g = key_at h' g.
Proof.
  rewrite !list_lookup_fmap. unfold key_at.
  destruct (h !! g) as [t|], (h' !! g) as [t'|]; simpl; try done.
  unfold game_desc, id_key. by intros [= -> _ _].
Qed.

Lemma first_with_key_ext h h' k gs :
  (∀ g, g ∈ gs → key_at h g = key_at h' g) →
  first_with_key h k gs = first_with_key h' k gs.
Proof.
  unfold first_with_key. induction gs as [|g gs IH]; intros H; [done|].
  simpl. rewrite (H g) by by left.
  destruct (bool_decide _); [done|]. apply IH. intros g' ?. apply H. by right.
Qed.

Lemma first_with_key_snoc h k gs g :
  first_with_key h k (gs ++ [g]) =
  match first_with_key h k gs with
  | Some x => Some x
  | None => if bool_decide (key_at h g = Some k) then Some g else None
  end.
Proof.
  unfold first_with_key. induction gs as [|g' gs IH]; simpl; [done|].
  by destruct (bool_decide (key_at h g' = Some k)).
Qed.

Lemma first_with_key_Some h k gs g :
  first_with_key h k gs = Some g → g ∈ gs ∧ key_at h g = Some k.
Proof.
  unfold first_with_key. induction gs as [|g' gs IH]; simpl; [done|].
  destruct (bool_decide (key_at h g' = Some k)) eqn:Hb.
  - intros [= ->]. split; [by left|]. by apply bool_decide_eq_true_1 in Hb.
  - intros [? ?]%IH. split; [by right|done].
Qed.

Lemma first_with_key_None h k gs g :
  first_with_key h k gs = None → g ∈ gs → key_at h g ≠ Some k.
Proof.
  unfold first_with_key. induction gs as [|g' gs IH]; simpl.
  { by intros _ ?%elem_of_nil. }
  destruct (bool_decide (key_at h g' = Some k)) eqn:Hb; [done|].
  intros Hn [->|Hg]%elem_of_cons; [|by apply IH].
  by apply bool_decide_eq_false_1 in Hb.
Qed.

Lemma dict_get_elem_of {V} (k : hkey) (v : V) (d : pydict V) :
  dict_get k d = Some v → (k, v) ∈ d.
Proof.
  induction d as [|[k' v'] d IH]; simpl; [done|].
  destruct (decide (k = k')) as [->|]; [intros [= ->]; by left|].
  intros ?. right. by apply IH.
Qed.

Lemma elem_of_dict_get {V} (k : hkey) (v : V) (d : pydict V) :
  NoDup d.*1 → (k, v) ∈ d → dict_get k d = Some v.
Proof.
  induction d as [|[k' v'] d IH]; simpl; [by intros _ ?%elem_of_nil|].
  intros [Hk Hnd]%NoDup_cons [[= -> ->]|Hin]%elem_of_cons.
  - by rewrite decide_True.
  - destruct (decide (k = k')) as [->|]; [|by apply IH].
    exfalso. apply Hk. apply list_elem_of_fmap. by exists (k', v).
Qed.

Lemma dict_get_None_keys {V} (k : hkey) (d : pydict V) :
  dict_get k d = None → k ∉ d.*1.
Proof.
  induction d as [|[k' v'] d IH]; simpl; [by intros _ ?%elem_of_nil|].
  destruct (decide (k = k')); [done|]. intros H [->|Hin]%elem_of_cons; [done|].
  by apply IH.
Qed.

(** A registered game is a candidate with the key it is registered
    under. *)
Lemma games_inv_registered h0 p inline cs s k g :
  games_inv h0 p inline cs s → (k, g) ∈ games (self s) →
  g ∈ cs.*1 ∧ key_at (heap s) g = Some k ∧
  first_with_key (heap s) k cs.*1 = Some g.
Proof.
  intros Hinv Hin.
  assert (dict_get k (games (self s)) = Some g) as Hget
    by (apply elem_of_dict_get; [apply Hinv|done]).
  rewrite (inv_first _ _ _ _ _ Hinv) in Hget.
  destruct (first_with_key_Some _ _ _ _ Hget). done.
Qed.

Lemma registered_candidates h0 p inline cs s g :
  games_inv h0 p inline cs s → g ∈ registered s → g ∈ cs.*1.
Proof.
  intros Hinv (kg & -> & Hin)%list_elem_of_fmap. destruct kg as [k g].
  by destruct (games_inv_registered _ _ _ _ _ k g Hinv Hin).
Qed.

Lemma desc_insert_with_maps fs (h : list table) g t :
  h !! g = Some t →
  game_desc <$> <[g := with_maps fs t]> h = game_desc <$> h.
Proof.
  intros Ht. rewrite list_fmap_insert, game_desc_with_maps.
  apply list_insert_id. by rewrite list_lookup_fmap, Ht.
Qed.

Lemma fragment_locs_snoc cs g src :
  fragment_locs (cs ++ [(g, src)]) =
  fragment_locs cs ++ match src with Some _ => [g] | None => [] end.
Proof.
  unfold fragment_locs. rewrite omap_app. simpl. by destruct src.
Qed.

Lemma fragment_locs_subseteq cs g : g ∈ fragment_locs cs → g ∈ cs.*1.
Proof.
  unfold fragment_locs. intros ([g' src] & Hin & Heq)%list_elem_of_omap.
  simpl in Heq. destruct src; [|done]. injection Heq as ->.
  apply list_elem_of_fmap. by exists (g, Some s).
Qed.

Lemma snoc_split {A} (cs pre post : list A) (x y : A) :
  cs ++ [x] = pre ++ y :: post →
  (post = [] ∧ cs = pre ∧ x = y) ∨
  (∃ post', post = post' ++ [x] ∧ cs = pre ++ y :: post').
Proof.
  destruct post as [|z post' _] using rev_ind.
  - intros [-> ->]%app_inj_tail. by left.
  - intros H. right. exists post'.
    replace (pre ++ y :: post' ++ [z]) with ((pre ++ y :: post') ++ [z]) in H
      by (by rewrite <- app_assoc).
    apply app_inj_tail in H as [-> ->]. done.
Qed.

Lemma filter_ext_elem {A} (P1 P2 : A → Prop)
    `{!∀ x, Decision (P1 x), !∀ x, Decision (P2 x)} (l : list A) :
  (∀ x, x ∈ l → P1 x ↔ P2 x) → filter P1 l = filter P2 l.
Proof.
  induction l as [|a l IH]; intros Hiff; [done|].
  assert (filter P1 l = filter P2 l) as IH'
    by (apply IH; intros x Hx; apply Hiff; by right).
  assert (P1 a ↔ P2 a) as Ha by (apply Hiff; by left).
  destruct (decide (P1 a)) as [Ha1|Ha1].
  - rewrite !filter_cons_True by tauto. by rewrite IH'.
  - rewrite !filter_cons_False by tauto. done.
Qed.

(** The invariant is kept when a candidate is dropped as a duplicate. *)
Lemma games_inv_dup h0 p inline cs s g src t id k :
  games_inv h0 p inline cs s →
  g ∉ cs.*1 →
  heap s !! g = Some t → t !! "id" = Some id → id_key t = Some k →
  dict_get k (games (self s)) ≠ None →
  games_inv h0 p inline (cs ++ [(g, src)])
    {| self := self s; heap := heap s;
       log := log s ++ [dup_warning src p id] |}.
Proof.
  intros Hinv Hg Ht Hid Hk Hdup.
  destruct Hinv as [Hpath Hheap Hvalid Hnodup Hfirst Hkeys Hwarned Hdata].
  assert (key_at (heap s) g = Some k) as Hkey
    by (unfold key_at; by rewrite Ht).
  split; simpl; try done.
  - apply Forall_app. split; [done|]. repeat constructor. simpl.
    by eapply lookup_lt_Some.
  - rewrite fmap_app. apply NoDup_app. split; [done|]. split.
    + intros x Hx [->|[]%elem_of_nil]%elem_of_cons. done.
    + apply NoDup_singleton.
  - intros k'. rewrite fmap_app. simpl. rewrite first_with_key_snoc.
    rewrite <- Hfirst.
    destruct (dict_get k' (games (self s))) eqn:Hget; [done|].
    rewrite bool_decide_eq_false_2; [done|]. congruence.
  - intros pre g' src' post t' id' k' Hsplit Ht' Hid' Hk' Hfound.
    apply snoc_split in Hsplit as [(-> & -> & [= -> ->])|(post' & -> & ->)].
    + assert (t' = t) as -> by congruence.
      assert (id' = id) as -> by congruence.
      apply elem_of_app. right. by left.
    + apply elem_of_app. left. by eapply Hwarned.
  - destruct Hdata as (d & Hd & Hgames). exists d. split; [done|].
    rewrite Hgames, fragment_locs_snoc, filter_app.
    assert (g ∉ registered s) as Hreg.
    { intros (kg & -> & Hin)%list_elem_of_fmap. destruct kg as [k0 g0].
      apply Hg. simpl. apply elem_of_dict_get in Hin; [|done].
      rewrite Hfirst in Hin. by apply first_with_key_Some in Hin as [? _]. }
    destruct src; [|by rewrite filter_nil, app_nil_r].
    unfold registered. simpl.
    rewrite filter_cons_False by done. by rewrite filter_nil, app_nil_r.
Qed.

(** The invariant is kept when a candidate is registered. *)
Lemma games_inv_new fs h0 p inline cs s g src t k :
  games_inv h0 p inline cs s →
  g ∉ cs.*1 →
  heap s !! g = Some t → id_key t = Some k →
  dict_get k (games (self s)) = None →
  games_inv h0 p inline (cs ++ [(g, src)])
    {| self := append_game src g
                 (set_games (games (self s) ++ [(k, g)]) (self s));
       heap := <[g := with_maps fs t]> (heap s);
       log := log s ++ loaded_log t |}.
Proof.
  intros Hinv Hg Ht Hk Hnew.
  destruct Hinv as [Hpath Hheap Hvalid Hnodup Hfirst Hkeys Hwarned Hdata].
  assert (key_at (heap s) g = Some k) as Hkey
    by (unfold key_at; by rewrite Ht).
  assert (game_desc <$> <[g := with_maps fs t]> (heap s)
          = game_desc <$> heap s) as Hdesc
    by (by apply desc_insert_with_maps).
  assert (∀ k' gs, first_with_key (<[g := with_maps fs t]> (heap s)) k' gs
                   = first_with_key (heap s) k' gs) as Hfwk.
  { intros k' gs. apply first_with_key_ext. intros g' _.
    apply key_at_desc. by rewrite Hdesc. }
  destruct Hdata as (d & Hd & Hgames).
  assert (games (append_game src g
             (set_games (games (self s) ++ [(k, g)]) (self s)))
          = games (self s) ++ [(k, g)]) as Hgs.
  { unfold append_game. simpl. rewrite Hd. by destruct src. }
  split; simpl; rewrite ?Hgs.
  - unfold append_game. simpl. rewrite Hd. by destruct src.
  - by rewrite Hdesc.
  - rewrite length_insert. apply Forall_app. split; [done|].
    repeat constructor. simpl. by eapply lookup_lt_Some.
  - rewrite fmap_app. apply NoDup_app. split; [done|]. split.
    + intros x Hx [->|[]%elem_of_nil]%elem_of_cons. done.
    + apply NoDup_singleton.
  - intros k'. rewrite fmap_app. simpl.
    rewrite Hfwk, first_with_key_snoc, dict_get_app_new, <- Hfirst.
    destruct (dict_get k' (games (self s))); [done|].
    rewrite Hkey. destruct (decide (k' = k)) as [->|Hne].
    + by rewrite bool_decide_eq_true_2.
    + rewrite bool_decide_eq_false_2; [done|]. congruence.
  - rewrite fmap_app. apply NoDup_app. split; [done|]. split.
    + intros x Hx [->|[]%elem_of_nil]%elem_of_cons.
      by apply (dict_get_None_keys k (games (self s))).
    + apply NoDup_singleton.
  - intros pre g' src' post t' id' k' Hsplit Ht' Hid' Hk' Hfound.
    rewrite Hfwk in Hfound.
    apply snoc_split in Hsplit as [(-> & -> & [= -> ->])|(post' & -> & ->)].
    + exfalso. rewrite list_lookup_insert_eq in Ht'
        by (by eapply lookup_lt_Some).
      injection Ht' as <-.
      rewrite (game_desc_id_key _ t (game_desc_with_maps fs t)) in Hk'.
      assert (k' = k) as -> by congruence.
      by rewrite <- Hfirst in Hfound.
    + apply elem_of_app. left.
      assert (g' ≠ g) as Hne.
      { intros ->. apply Hg. rewrite fmap_app, fmap_cons. simpl.
        apply elem_of_app. right. by left. }
      rewrite list_lookup_insert_ne in Ht' by done.
      by eapply Hwarned.
  - assert (registered
              {| self := append_game src g
                           (set_games (games (self s) ++ [(k, g)]) (self s));
                 heap := <[g := with_maps fs t]> (heap s);
                 log := log s ++ loaded_log t |}
            = registered s ++ [g]) as Hreg.
    { unfold registered. simpl. rewrite Hgs. by rewrite fmap_app. }
    assert (filter (λ g0, g0 ∈ registered s ++ [g]) (fragment_locs cs)
            = filter (λ g0, g0 ∈ registered s) (fragment_locs cs)) as Hfil.
    { apply filter_ext_elem. intros g' Hg'.
      rewrite elem_of_app, list_elem_of_singleton.
      split; [|by left]. intros [?| ->]; [done|].
      exfalso. by apply Hg, fragment_locs_subseteq. }
    rewrite Hreg, fragment_locs_snoc, filter_app, Hfil.
    unfold append_game. simpl. rewrite Hd.
    destruct src as [f|]; simpl.
    + eexists. split; [done|]. simpl. rewrite Hgames. simpl.
      rewrite filter_cons_True
        by (apply elem_of_app; right; by left).
      by rewrite filter_nil, app_assoc.
    + exists d. split; [done|]. by rewrite filter_nil, app_nil_r.
Qed.

Lemma game_ok_id fs t :
  game_ok fs t → ∃ id k, t !! "id" = Some id ∧ id_key t = Some k.
Proof.
  intros [[k Hk] _]. unfold id_key in *.
  destruct (t !! "id") as [id|]; [|done]. by exists id, k.
Qed.

Lemma load_inline_game_step fs h0 p inline cs s g t :
  games_inv h0 p inline cs s → g ∉ cs.*1 →
  heap s !! g = Some t → game_ok fs t →
  ∃ s', load_inline_game fs g s = (Ok (), s') ∧
        games_inv h0 p inline (cs ++ [(g, None)]) s' ∧ stable s s'.
Proof.
  intros Hinv Hg Ht Hok.
  destruct (game_ok_id fs t Hok) as (id & k & Hid & Hk).
  unfold load_inline_game, try_except.
  destruct (dict_get k (games (self s))) as [g0|] eqn:Hget.
  - rewrite (_load_game_data_dup fs g s t k) by (done || congruence).
    rewrite decide_True by done.
    unfold getitem, deref, get_self, logging, ret, bind. rewrite Ht, Hid.
    eexists. split; [done|]. split; [|done].
    rewrite (inv_path _ _ _ _ _ Hinv).
    eapply (games_inv_dup _ _ _ _ _ _ None); try done. congruence.
  - rewrite (_load_game_data_new fs g s t k) by (done || apply Hok).
    eexists. split; [done|]. split.
    + by apply (games_inv_new fs _ _ _ _ _ _ None).
    + split; simpl; [by apply desc_insert_with_maps|done].
Qed.

Lemma load_fragment_game_step fs f h0 p inline cs s g t :
  games_inv h0 p inline cs s → g ∉ cs.*1 →
  heap s !! g = Some t → game_ok fs t →
  ∃ s', load_fragment_game fs f g s = (Ok (), s') ∧
        games_inv h0 p inline (cs ++ [(g, Some f)]) s' ∧ stable s s'.
Proof.
  intros Hinv Hg Ht Hok.
  destruct (game_ok_id fs t Hok) as (id & k & Hid & Hk).
  unfold load_fragment_game, try_except.
  destruct (dict_get k (games (self s))) as [g0|] eqn:Hget.
  - rewrite (bind_raise _ _ _ _ _ (_load_game_data_dup fs g s t k Ht Hk
                                     ltac:(congruence))).
    rewrite decide_True by done.
    unfold getitem, deref, get_self, logging, ret, bind. rewrite Ht, Hid.
    eexists. split; [done|]. split; [|done].
    eapply (games_inv_dup _ _ _ _ _ _ (Some f)); try done. congruence.
  - rewrite (bind_ok _ _ _ _ _ (_load_game_data_new fs g s t k Ht Hk
                                  (proj2 Hok) Hget)).
    destruct (inv_data _ _ _ _ _ Hinv) as (d & Hd & Hgames).
    unfold data_games_append, get_self, modify_self, raise, bind. simpl.
    rewrite Hd, Hgames.
    eexists. split; [done|]. split.
    + pose proof (games_inv_new fs _ _ _ _ _ _ (Some f) _ _ Hinv Hg Ht Hk Hget)
        as Hnew.
      unfold append_game in Hnew. simpl in Hnew. rewrite Hd, Hgames in Hnew.
      exact Hnew.
    + split; simpl; [by apply desc_insert_with_maps|by rewrite Hd].
Qed.

Lemma desc_lookup (h h' : list table) g t :
  game_desc <$> h' = game_desc <$> h → h !! g = Some t →
  ∃ t', h' !! g = Some t' ∧ game_desc t' = game_desc t.
Proof.
  intros Hd Ht.
  assert ((game_desc <$> h') !! g = Some (game_desc t)) as Hl
    by (by rewrite Hd, list_lookup_fmap, Ht).
  rewrite list_lookup_fmap in Hl.
  destruct (h' !! g) as [t'|]; [|done]. exists t'. split; [done|].
  simpl in Hl. unfold game_desc in *. congruence.
Qed.

(** A loop that registers the definitions [gs] from one source. *)
Lemma register_loop fs h0 p inline (body : loc → M unit)
    (src : option string) :
  (∀ cs s g t,
     games_inv h0 p inline cs s → g ∉ cs.*1 →
     heap s !! g = Some t → game_ok fs t →
     ∃ s', body g s = (Ok (), s') ∧
           games_inv h0 p inline (cs ++ [(g, src)]) s' ∧ stable s s') →
  ∀ gs cs s,
    games_inv h0 p inline cs s → NoDup gs →
    (∀ g, g ∈ gs → g ∉ cs.*1) →
    Forall (λ g, ∃ t, heap s !! g = Some t ∧ game_ok fs t) gs →
    ∃ s', for_each gs body s = (Ok (), s') ∧
          games_inv h0 p inline (cs ++ ((λ g, (g, src)) <$> gs)) s' ∧
          stable s s'.
Proof.
  intros Hstep gs. induction gs as [|g gs IH]; intros cs s Hinv Hnd Hfresh Hok.
  - exists s. rewrite app_nil_r. done.
  - apply NoDup_cons in Hnd as [Hg Hnd].
    apply Forall_cons in Hok as [(t & Ht & Hokt) Hok].
    destruct (Hstep cs s g t Hinv) as (s1 & Hrun & Hinv1 & Hdesc1 & Hdir1);
      [apply Hfresh; by left|done..|].
    destruct (IH (cs ++ [(g, src)]) s1 Hinv1 Hnd)
      as (s' & Hrun' & Hinv' & Hdesc' & Hdir').
    + intros g' Hg'. rewrite fmap_app. simpl.
      rewrite elem_of_app, list_elem_of_singleton.
      intros [?| ->]; [|done]. eapply Hfresh; [by right|done].
    + eapply Forall_impl; [exact Hok|]. intros g' (t' & Ht' & Hok').
      destruct (desc_lookup _ _ _ _ Hdesc1 Ht') as (t'' & Ht'' & Hd'').
      exists t''. split; [done|]. by eapply game_desc_game_ok.
    + exists s'. rewrite for_each_cons, (bind_ok _ _ _ _ _ Hrun).
      split; [done|]. split; [|split; congruence].
      rewrite fmap_cons. by rewrite <- app_assoc in Hinv'.
Qed.

(** The invariant is kept when fresh objects are allocated and records
    are logged. *)
Lemma games_inv_alloc h0 p inline cs s ts extra :
  games_inv h0 p inline cs s →
  games_inv h0 p inline cs
    {| self := self s; heap := heap s ++ ts; log := log s ++ extra |}.
Proof.
  intros [Hpath Hheap Hvalid Hnodup Hfirst Hkeys Hwarned Hdata].
  assert (∀ g, g ∈ cs.*1 → g < length (heap s)) as Hlt.
  { intros g ([g' src] & -> & Hin)%list_elem_of_fmap.
    rewrite Forall_forall in Hvalid. by apply (Hvalid (g', src)). }
  assert (∀ k gs, (∀ g, g ∈ gs → g ∈ cs.*1) →
            first_with_key (heap s ++ ts) k gs = first_with_key (heap s) k gs)
    as Hfwk.
  { intros k gs Hgs. apply first_with_key_ext. intros g Hg.
    unfold key_at. by rewrite lookup_app_l by (apply Hlt, Hgs, Hg). }
  split; simpl; try done.
  - etrans; [exact Hheap|]. rewrite fmap_app. by apply prefix_app_r.
  - eapply Forall_impl; [exact Hvalid|]. intros c Hc. simpl in *.
    rewrite length_app. lia.
  - intros k. by rewrite Hfwk.
  - intros pre g src post t id k -> Ht Hid Hk Hfound.
    assert (g ∈ (pre ++ (g, src) :: post).*1) as Hg.
    { rewrite fmap_app, fmap_cons. apply elem_of_app. right. by left. }
    rewrite lookup_app_l in Ht by by apply Hlt.
    rewrite Hfwk in Hfound.
    + apply elem_of_app. left. by eapply Hwarned.
    + intros g' Hg'. rewrite fmap_app. apply elem_of_app. by left.
Qed.

Lemma games_inv_log h0 p inline cs s extra :
  games_inv h0 p inline cs s →
  games_inv h0 p inline cs
    {| self := self s; heap := heap s; log := log s ++ extra |}.
Proof.
  intros Hinv. pose proof (games_inv_alloc _ _ _ _ _ [] extra Hinv) as H.
  by rewrite app_nil_r in H.
Qed.

Lemma load_fragment_file_step fs h0 p inline cs s f :
  games_inv h0 p inline cs s → fragment_ok fs f →
  ∃ s', load_fragment_file fs f s = (Ok (), s') ∧
        games_inv h0 p inline
          (cs ++ ((λ g, (g, Some f))
                    <$> seq (length (heap s)) (length (fragment_tables fs f))))
          s' ∧
        game_desc <$> heap s'
        = (game_desc <$> heap s) ++ (game_desc <$> fragment_tables fs f).
Proof.
  intros Hinv Hok. unfold load_fragment_file, fragment_tables.
  unfold logging at 1. unfold bind at 1.
  destruct (isfile fs f) eqn:Hfile; simpl.
  - destruct (Hok Hfile) as ((lines & Hopen) & d & Htoml & Hgames).
    unfold logging at 1. unfold bind at 1. simpl.
    rewrite Hopen, Htoml.
    destruct (Doc.games d) as [ts|] eqn:Hts; simpl in *.
    + unfold bind at 1. rewrite alloc_all_run. simpl.
      rewrite <- app_assoc. simpl.
      pose proof (games_inv_alloc _ _ _ _ _ ts
                    [LogRecord INFO "file {0}" [VStr f];
                     LogRecord DEBUG "Loading {0}" [VStr f]] Hinv) as Hinv2.
      destruct (register_loop fs h0 p inline (load_fragment_game fs f)
                  (Some f) (load_fragment_game_step fs f h0 p inline)
                  (seq (length (heap s)) (length ts)) cs _ Hinv2)
        as (s' & Hrun & Hinv' & Hdesc & _).
      * apply NoDup_seq.
      * intros g Hg%elem_of_seq ([g' src] & -> & Hin)%list_elem_of_fmap.
        pose proof (inv_valid _ _ _ _ _ Hinv) as Hvalid.
        rewrite Forall_forall in Hvalid. specialize (Hvalid _ Hin).
        simpl in *. lia.
      * apply Forall_forall. intros g Hg%elem_of_seq. simpl.
        destruct (lookup_lt_is_Some_2 ts (g - length (heap s)))
          as [t Ht]; [lia|].
        exists t. split.
        -- rewrite lookup_app_r by lia. done.
        -- rewrite Forall_forall in Hgames. apply Hgames.
           by eapply list_elem_of_lookup_2.
      * exists s'. split; [done|]. split; [done|].
        rewrite Hdesc. simpl. by rewrite fmap_app.
    + eexists. split; [done|]. simpl. rewrite !app_nil_r. split; [|done].
      pose proof (games_inv_log _ _ _ _ _
                    [LogRecord INFO "file {0}" [VStr f];
                     LogRecord DEBUG "Loading {0}" [VStr f];
                     LogRecord WARNING
                       "No games specifications found in game config file {0}, skipping."
                       [VStr f]] Hinv) as Hinv2.
      by rewrite <- !app_assoc.
  - eexists. split; [done|]. simpl. rewrite !app_nil_r. split; [|done].
    pose proof (games_inv_log _ _ _ _ _
                  [LogRecord INFO "file {0}" [VStr f];
                   LogRecord WARNING "Skipping non-file {0}" [VStr f]] Hinv)
      as Hinv2.
    by rewrite <- !app_assoc.
Qed.

Lemma load_fragment_files_run fs h0 p inline files cs s :
  games_inv h0 p inline cs s → Forall (fragment_ok fs) files →
  ∃ s', for_each files (load_fragment_file fs) s = (Ok (), s') ∧
        games_inv h0 p inline
          (cs ++ fragment_candidates fs (length (heap s)) files) s' ∧
        game_desc <$> heap s'
        = (game_desc <$> heap s)
          ++ (game_desc <$> concat (fragment_tables fs <$> files)).
Proof.
  revert cs s. induction files as [|f files IH]; intros cs s Hinv Hok.
  - exists s. simpl. rewrite !app_nil_r. done.
  - apply Forall_cons in Hok as [Hf Hok].
    destruct (load_fragment_file_step fs h0 p inline cs s f Hinv Hf)
      as (s1 & Hrun1 & Hinv1 & Hdesc1).
    destruct (IH _ s1 Hinv1 Hok) as (s' & Hrun' & Hinv' & Hdesc').
    assert (length (heap s1)
            = length (heap s) + length (fragment_tables fs f)) as Hlen.
    { rewrite <- (length_fmap game_desc (heap s1)), Hdesc1.
      by rewrite length_app, !length_fmap. }
    exists s'. rewrite for_each_cons, (bind_ok _ _ _ _ _ Hrun1).
    split; [done|]. split.
    + simpl. rewrite Hlen in Hinv'. by rewrite <- app_assoc in Hinv'.
    + rewrite Hdesc', Hdesc1. simpl. by rewrite fmap_app, app_assoc.
Qed.

Lemma _load_game_conf_dir_run fs h0 p inline cs s d :
  games_inv h0 p inline cs s →
  data (self s) = Some d →
  Forall (fragment_ok fs) (fragment_files fs d) →
  ∃ s', _load_game_conf_dir fs s = (Ok (), s') ∧
        games_inv h0 p inline
          (cs ++ fragment_candidates fs (length (heap s)) (fragment_files fs d))
          s' ∧
        game_desc <$> heap s'
        = (game_desc <$> heap s)
          ++ (game_desc <$> concat (fragment_tables fs <$> fragment_files fs d)).
Proof.
  intros Hinv Hd Hok.
  unfold _load_game_conf_dir, fragment_files in *.
  unfold get, get_self, ret, bind. rewrite Hd.
  destruct (Doc.games_conf_d d) as [[|c dir]|]; simpl.
  - exists s. by rewrite !app_nil_r.
  - destruct (isdir fs (String c dir)); simpl.
    + by apply load_fragment_files_run.
    + eexists. split; [done|]. simpl. rewrite !app_nil_r. split; [|done].
      by apply games_inv_log.
  - exists s. by rewrite !app_nil_r.
Qed.

(** [load_games] on well-formed definitions: it returns, and the
    invariant holds of all candidates, the games of the main config file
    first and then those of the fragment files in sorted order. *)
Lemma load_games_run fs s d :
  data (self s) = Some d →
  NoDup (default [] (Doc.games d)) →
  Forall (λ g, ∃ t, heap s !! g = Some t ∧ game_ok fs t)
         (default [] (Doc.games d)) →
  Forall (fragment_ok fs) (fragment_files fs d) →
  ∃ s', load_games fs s = (Ok (), s') ∧
        games_inv (heap s) (path (self s)) (default [] (Doc.games d))
          (inline_candidates (default [] (Doc.games d))
           ++ fragment_candidates fs (length (heap s)) (fragment_files fs d))
          s' ∧
        game_desc <$> heap s'
        = (game_desc <$> heap s)
          ++ (game_desc <$> concat (fragment_tables fs <$> fragment_files fs d)).
Proof.
  intros Hd Hnd Hok Hfiles.
  unfold load_games. unfold modify_self at 1. unfold bind at 1.
  unfold bind at 1. unfold get at 1. unfold get_self at 1, bind at 1.
  simpl. rewrite Hd. unfold ret at 1.
  destruct (nonempty_list (Doc.games d)) eqn:Hne.
  - (* the main config file has games *)
    destruct (Doc.games d) as [[|g0 gs]|] eqn:Hgames; try done.
    simpl in Hnd, Hok. simpl default.
    assert (games_inv (heap s) (path (self s)) (g0 :: gs) []
              {| self := set_games [] (self s); heap := heap s;
                 log := log s |}) as Hinv0.
    { split; simpl.
      - done.
      - done.
      - constructor.
      - constructor.
      - done.
      - constructor.
      - intros pre g src post t id k Hnil. by destruct pre.
      - exists d. by rewrite Hgames, app_nil_r. }
    destruct (register_loop fs _ _ _ (load_inline_game fs) None
                (load_inline_game_step fs _ _ _) (g0 :: gs) [] _ Hinv0 Hnd)
      as (s1 & Hrun1 & Hinv1 & Hdesc1 & Hdir1).
    { intros g _ []%elem_of_nil. }
    { done. }
    simpl in Hdesc1, Hdir1, Hinv1. rewrite Hd in Hdir1. simpl in Hdir1.
    destruct (inv_data _ _ _ _ _ Hinv1) as (d1 & Hd1 & _).
    rewrite Hd1 in Hdir1. simpl in Hdir1.
    destruct (_load_game_conf_dir_run fs _ _ _ _ s1 d1 Hinv1 Hd1)
      as (s' & Hrun' & Hinv' & Hdesc').
    { unfold fragment_files in *. by rewrite Hdir1. }
    assert (length (heap s1) = length (heap s)) as Hlen
      by (by rewrite <- (length_fmap game_desc (heap s1)), Hdesc1, length_fmap).
    assert (fragment_files fs d1 = fragment_files fs d) as Hff
      by (unfold fragment_files; by rewrite Hdir1).
    exists s'. rewrite (bind_ok _ _ _ _ _ Hrun1).
    split; [done|]. rewrite Hlen, Hff in Hinv'. split; [done|].
    by rewrite Hdesc', Hdesc1, Hff.
  - (* no game in the main config file *)
    assert (default [] (Doc.games d) = []) as Hnil
      by (by destruct (Doc.games d) as [[|]|]).
    rewrite Hnil in *.
    assert (games_inv (heap s) (path (self s)) [] []
              {| self := set_data (Doc.with_games (Some []) d)
                                  (set_games [] (self s));
                 heap := heap s; log := log s |}) as Hinv0.
    { split; simpl.
      - done.
      - done.
      - constructor.
      - constructor.
      - done.
      - constructor.
      - intros pre g src post t id k Hnil'. by destruct pre.
      - eexists. split; [done|]. done. }
    destruct (_load_game_conf_dir_run fs _ _ _ _ _ _ Hinv0 eq_refl)
      as (s' & Hrun' & Hinv' & Hdesc').
    { done. }
    exists s'. split; [|done].
    erewrite bind_ok; last first.
    { unfold get_self, modify_self, bind. simpl. rewrite Hd. reflexivity. }
    exact Hrun'.
Qed.

Lemma inline_candidates_locs inline : (inline_candidates inline).*1 = inline.
Proof.
  unfold inline_candidates. rewrite <- list_fmap_compose.
  rewrite <- (list_fmap_id inline) at 2. done.
Qed.

Lemma inline_candidates_fragment_locs inline :
  fragment_locs (inline_candidates inline) = [].
Proof. induction inline as [|g l IH]; [done|]. simpl. exact IH. Qed.

Lemma fragment_locs_of_file (f : string) (l : list loc) :
  fragment_locs ((λ g, (g, Some f)) <$> l) = l.
Proof.
  induction l as [|x l IH]; [done|].
  unfold fragment_locs in *. simpl. by f_equal.
Qed.

Lemma fragment_candidates_locs fs n files :
  (fragment_candidates fs n files).*1
  = seq n (length (concat (fragment_tables fs <$> files))) ∧
  fragment_locs (fragment_candidates fs n files)
  = seq n (length (concat (fragment_tables fs <$> files))).
Proof.
  revert n. induction files as [|f files IH]; intros n; [done|].
  simpl. destruct (IH (n + length (fragment_tables fs f))) as [IH1 IH2].
  rewrite length_app, seq_app. split.
  - rewrite fmap_app, IH1. f_equal.
    rewrite <- list_fmap_compose.
    rewrite <- (list_fmap_id (seq n _)) at 2. done.
  - assert (∀ a b, fragment_locs (a ++ b)
                   = fragment_locs a ++ fragment_locs b) as Happ
      by (intros a b; unfold fragment_locs; by rewrite omap_app).
    by rewrite Happ, IH2, fragment_locs_of_file.
Qed.

Lemma fragment_candidates_elem fs n files f t :
  f ∈ files → t ∈ fragment_tables fs f →
  ∃ pre g post,
    fragment_candidates fs n files = pre ++ (g, Some f) :: post ∧
    n ≤ g ∧
    concat (fragment_tables fs <$> files) !! (g - n) = Some t.
Proof.
  revert n. induction files as [|f' files IH]; intros n Hf Ht.
  { by apply elem_of_nil in Hf. }
  simpl. destruct (decide (f = f')) as [<-|Hne].
  - apply list_elem_of_lookup in Ht as [i Hi].
    pose proof (lookup_lt_Some _ _ _ Hi) as Hlt.
    exists ((λ g, (g, Some f)) <$> seq n i), (n + i),
      (((λ g, (g, Some f))
          <$> seq (n + S i) (length (fragment_tables fs f) - S i))
       ++ fragment_candidates fs (n + length (fragment_tables fs f)) files).
    split; [|split; [lia|]].
    + replace (length (fragment_tables fs f))
        with (i + S (length (fragment_tables fs f) - S i)) at 1 by lia.
      rewrite seq_app, fmap_app. simpl. rewrite <- app_assoc. simpl.
      by replace (n + S i) with (S (n + i)) by lia.
    + replace (n + i - n) with i by lia. by rewrite lookup_app_l.
  - apply elem_of_cons in Hf as [?|Hf]; [done|].
    destruct (IH (n + length (fragment_tables fs f')) Hf Ht)
      as (pre & g & post & Heq & Hle & Hl).
    exists (((λ g, (g, Some f')) <$> seq n (length (fragment_tables fs f')))
            ++ pre), g, post.
    split; [by rewrite Heq, <- app_assoc|]. split; [lia|].
    rewrite lookup_app_r by lia.
    by replace (g - n - length (fragment_tables fs f'))
      with (g - (n + length (fragment_tables fs f'))) by lia.
Qed.

Lemma first_with_key_app_l h k l1 l2 :
  first_with_key h k l1 ≠ None →
  first_with_key h k (l1 ++ l2) = first_with_key h k l1.
Proof.
  unfold first_with_key. induction l1 as [|g l1 IH]; simpl; [done|].
  destruct (bool_decide (key_at h g = Some k)); [done|]. apply IH.
Qed.

(** The keys of the objects of the initial heap do not change. *)
Lemma key_at_initial (h h' : list table) (extra : list table) g :
  game_desc <$> h' = (game_desc <$> h) ++ (game_desc <$> extra) →
  g < length h → key_at h' g = key_at h g.
Proof.
  intros Hd Hg. apply key_at_desc. rewrite Hd.
  by rewrite lookup_app_l by (by rewrite length_fmap).
Qed.

Lemma lookup_initial (h h' : list table) (extra : list table) g t :
  game_desc <$> h' = (game_desc <$> h) ++ (game_desc <$> extra) →
  h !! g = Some t →
  ∃ t', h' !! g = Some t' ∧ game_desc t' = game_desc t.
Proof.
  intros Hd Ht.
  assert ((game_desc <$> h') !! g = Some (game_desc t)) as Hl.
  { rewrite Hd, lookup_app_l by (rewrite length_fmap; by eapply lookup_lt_Some).
    by rewrite list_lookup_fmap, Ht. }
  rewrite list_lookup_fmap in Hl.
  destruct (h' !! g) as [t'|]; [|done]. exists t'. split; [done|].
  simpl in Hl. unfold game_desc in *. congruence.
Qed.

Lemma lookup_fragment (h h' : list table) (extra : list table) g t :
  game_desc <$> h' = (game_desc <$> h) ++ (game_desc <$> extra) →
  length h ≤ g → extra !! (g - length h) = Some t →
  ∃ t', h' !! g = Some t' ∧ game_desc t' = game_desc t.
Proof.
  intros Hd Hg Ht.
  assert ((game_desc <$> h') !! g = Some (game_desc t)) as Hl.
  { rewrite Hd, lookup_app_r by (by rewrite length_fmap).
    by rewrite length_fmap, list_lookup_fmap, Ht. }
  rewrite list_lookup_fmap in Hl.
  destruct (h' !! g) as [t'|]; [|done]. exists t'. split; [done|].
  simpl in Hl. unfold game_desc in *. congruence.
Qed.

(** C1: duplicate game ids are rejected, the first definition winning.
    For well-formed definitions [load_games] returns; the registry has one
    entry per id; an id defined in the main config file is registered with
    its first definition there, whatever the fragment files define; every
    later definition of that id, in the main config file or in a fragment
    file, is dropped with a warning that names it. *)
Theorem duplicate_game_first_definition_wins (fs : FileSystem) (s : state)
    (d : Doc.t loc) :
  data (self s) = Some d →
  NoDup (default [] (Doc.games d)) →
  Forall (λ g, ∃ t, heap s !! g = Some t ∧ game_ok fs t)
         (default [] (Doc.games d)) →
  Forall (fragment_ok fs) (fragment_files fs d) →
  ∃ s', load_games fs s = (Ok (), s') ∧
    NoDup (games (self s')).*1 ∧
    (∀ k g0,
       first_with_key (heap s) k (default [] (Doc.games d)) = Some g0 →
       dict_get k (games (self s')) = Some g0) ∧
    (∀ pre g post t id k,
       default [] (Doc.games d) = pre ++ g :: post →
       heap s !! g = Some t → t !! "id" = Some id → id_key t = Some k →
       first_with_key (heap s) k pre ≠ None →
       dup_warning None (path (self s)) id ∈ log s') ∧
    (∀ f t id k,
       f ∈ fragment_files fs d → t ∈ fragment_tables fs f →
       t !! "id" = Some id → id_key t = Some k →
       first_with_key (heap s) k (default [] (Doc.games d)) ≠ None →
       dup_warning (Some f) (path (self s)) id ∈ log s').
Proof.
  intros Hd Hnd Hok Hfiles.
  destruct (load_games_run fs s d Hd Hnd Hok Hfiles)
    as (s' & Hrun & Hinv & Hdesc).
  set (inline := default [] (Doc.games d)) in *.
  assert (∀ g, g ∈ inline → g < length (heap s)) as Hlt.
  { intros g Hg. rewrite Forall_forall in Hok.
    destruct (Hok g Hg) as (t & Ht & _). by eapply lookup_lt_Some. }
  assert (∀ k gs, (∀ g, g ∈ gs → g ∈ inline) →
            first_with_key (heap s') k gs = first_with_key (heap s) k gs)
    as Hfwk.
  { intros k gs Hgs. apply first_with_key_ext. intros g Hg.
    eapply key_at_initial; [exact Hdesc|]. by apply Hlt, Hgs. }
  exists s'. split; [done|]. split; [apply Hinv|]. split; [|split].
  - intros k g0 Hfirst.
    rewrite (inv_first _ _ _ _ _ Hinv), fmap_app, inline_candidates_locs.
    rewrite first_with_key_app_l; rewrite Hfwk by done; by rewrite ?Hfirst.
  - intros pre g post t id k Hsplit Ht Hid Hk Hfound.
    destruct (lookup_initial _ _ _ _ _ Hdesc Ht) as (t' & Ht' & Hdt).
    eapply (inv_warned _ _ _ _ _ Hinv (inline_candidates pre) g None
              (inline_candidates post ++ _) t' id k).
    + unfold inline_candidates in *. rewrite Hsplit, fmap_app, fmap_cons.
      by rewrite <- app_assoc.
    + done.
    + unfold game_desc in Hdt. congruence.
    + by rewrite (game_desc_id_key _ _ Hdt).
    + rewrite inline_candidates_locs, Hfwk; [done|].
      intros g' Hg'. rewrite Hsplit. apply elem_of_app. by left.
  - intros f t id k Hf Ht Hid Hk Hfound.
    destruct (fragment_candidates_elem fs (length (heap s)) _ f t Hf Ht)
      as (pre & g & post & Heq & Hle & Hl).
    destruct (lookup_fragment _ _ _ _ _ Hdesc Hle Hl) as (t' & Ht' & Hdt).
    eapply (inv_warned _ _ _ _ _ Hinv (inline_candidates inline ++ pre) g
              (Some f) post t' id k).
    + by rewrite Heq, <- app_assoc.
    + done.
    + unfold game_desc in Hdt. congruence.
    + by rewrite (game_desc_id_key _ _ Hdt).
    + rewrite fmap_app, inline_candidates_locs.
      rewrite first_with_key_app_l; by rewrite Hfwk.
Qed.

(** C9: the games list of the document, which is sent to the client, is
    not kept consistent with the registry.  After [load_games] it holds
    every game of the main config file and then the fragment games that
    were registered; a fragment game that was dropped as a duplicate is
    not in it, but a duplicate declared in the main config file stays in
    it although it is not registered. *)
Theorem games_list_keeps_inline_duplicates (fs : FileSystem) (s : state)
    (d : Doc.t loc) :
  data (self s) = Some d →
  NoDup (default [] (Doc.games d)) →
  Forall (λ g, ∃ t, heap s !! g = Some t ∧ game_ok fs t)
         (default [] (Doc.games d)) →
  Forall (fragment_ok fs) (fragment_files fs d) →
  ∃ s' d' added,
    load_games fs s = (Ok (), s') ∧
    data (self s') = Some d' ∧
    Doc.games d' = Some (default [] (Doc.games d) ++ added) ∧
    (∀ g, g ∈ added ↔
          length (heap s) ≤ g < length (heap s') ∧ g ∈ registered s') ∧
    (∀ pre g post k,
       default [] (Doc.games d) = pre ++ g :: post →
       key_at (heap s) g = Some k →
       first_with_key (heap s) k pre ≠ None →
       g ∈ default [] (Doc.games d) ++ added ∧ g ∉ registered s').
Proof.
  intros Hd Hnd Hok Hfiles.
  destruct (load_games_run fs s d Hd Hnd Hok Hfiles)
    as (s' & Hrun & Hinv & Hdesc).
  set (inline := default [] (Doc.games d)) in *.
  set (files := fragment_files fs d) in *.
  destruct (inv_data _ _ _ _ _ Hinv) as (d' & Hd' & Hgames).
  assert (∀ g, g ∈ inline → g < length (heap s)) as Hlt.
  { intros g Hg. rewrite Forall_forall in Hok.
    destruct (Hok g Hg) as (t & Ht & _). by eapply lookup_lt_Some. }
  assert (∀ k gs, (∀ g, g ∈ gs → g ∈ inline) →
            first_with_key (heap s') k gs = first_with_key (heap s) k gs)
    as Hfwk.
  { intros k gs Hgs. apply first_with_key_ext. intros g Hg.
    eapply key_at_initial; [exact Hdesc|]. by apply Hlt, Hgs. }
  assert (length (heap s')
          = length (heap s) + length (concat (fragment_tables fs <$> files)))
    as Hlen.
  { rewrite <- (length_fmap game_desc (heap s')), Hdesc.
    by rewrite length_app, !length_fmap. }
  assert (fragment_locs (inline_candidates inline
                         ++ fragment_candidates fs (length (heap s)) files)
          = seq (length (heap s))
                (length (concat (fragment_tables fs <$> files)))) as Hfrag.
  { unfold fragment_locs. rewrite omap_app.
    fold (fragment_locs (inline_candidates inline)).
    fold (fragment_locs (fragment_candidates fs (length (heap s)) files)).
    rewrite inline_candidates_fragment_locs.
    by destruct (fragment_candidates_locs fs (length (heap s)) files)
      as [_ ->]. }
  rewrite Hfrag in Hgames.
  eexists s', d', _. split; [done|]. split; [done|]. split; [exact Hgames|].
  split.
  - intros g. rewrite list_elem_of_filter, elem_of_seq. rewrite Hlen.
    tauto.
  - intros pre g post k Hsplit Hkey Hfound. split.
    + apply elem_of_app. left. rewrite Hsplit. apply elem_of_app.
      right. by left.
    + intros (kg & -> & Hin)%list_elem_of_fmap. destruct kg as [k' g].
      destruct (games_inv_registered _ _ _ _ _ k' g Hinv Hin)
        as (_ & Hkey' & Hfirst). simpl in *.
      assert (g ∈ inline) as Hg
        by (rewrite Hsplit; apply elem_of_app; right; by left).
      rewrite (key_at_initial _ _ _ _ Hdesc (Hlt g Hg)) in Hkey'.
      assert (k' = k) as -> by congruence.
      rewrite fmap_app, inline_candidates_locs in Hfirst.
      rewrite Hsplit in Hfirst.
      rewrite <- app_assoc in Hfirst.
      rewrite first_with_key_app_l in Hfirst.
      * rewrite Hfwk in Hfirst.
        -- apply first_with_key_Some in Hfirst as [Hpre _].
           rewrite Hsplit in Hnd. apply NoDup_app in Hnd as (_ & Hdisj & _).
           apply (Hdisj g Hpre). by left.
        -- intros g' Hg'. rewrite Hsplit. apply elem_of_app. by left.
      * rewrite Hfwk; [done|].
        intros g' Hg'. rewrite Hsplit. apply elem_of_app. by left.
Qed.

Lemma game_def_ok fs id mode version : game_ok fs (game_def id mode version).
Proof.
  split.
  - unfold id_key, game_def. by simplify_map_eq.
  - unfold map_loads, game_def. by simplify_map_eq.
Qed.

Lemma fs_dup_games_wf :
  data (self (loaded fs_dup_games "config.toml"))
    = Some (doc_at 0 config_dup_games) ∧
  NoDup (default [] (Doc.games (doc_at 0 config_dup_games))) ∧
  Forall (λ g, ∃ t, heap (loaded fs_dup_games "config.toml") !! g = Some t ∧
                    game_ok fs_dup_games t)
         (default [] (Doc.games (doc_at 0 config_dup_games))) ∧
  Forall (fragment_ok fs_dup_games)
         (fragment_files fs_dup_games (doc_at 0 config_dup_games)).
Proof.
  split; [reflexivity|]. split; [|split].
  - simpl. apply NoDup_cons. split; [by intros ?%list_elem_of_singleton|].
    apply NoDup_singleton.
  - simpl. repeat constructor.
    + exists (game_def "a" "dcss" "0.25"). split; [reflexivity|].
      apply game_def_ok.
    + exists (game_def "a" "dcss" "0.24"). split; [reflexivity|].
      apply game_def_ok.
  - assert (fragment_files fs_dup_games (doc_at 0 config_dup_games)
            = ["games.d/extra.toml"]) as -> by (vm_compute; reflexivity).
    apply Forall_cons. split; [|constructor].
    intros _. split; [by eexists|].
    exists (Doc.with_games (Some [game_def "a" "sprint" "0.25";
                                  game_def "b" "sprint" "0.25"]) Doc.empty).
    split; [reflexivity|]. simpl.
    apply Forall_cons. split; [apply game_def_ok|].
    apply Forall_cons. split; [apply game_def_ok|constructor].
Qed.

Lemma duplicate_game_first_definition_wins_witness :
  ∃ s', load_games fs_dup_games (loaded fs_dup_games "config.toml")
        = (Ok (), s') ∧
    NoDup (games (self s')).*1 ∧
    dict_get (KStr "a") (games (self s')) = Some 0 ∧
    dup_warning None "config.toml" (VStr "a") ∈ log s' ∧
    dup_warning (Some "games.d/extra.toml") "config.toml" (VStr "a") ∈ log s'.
Proof.
  destruct fs_dup_games_wf as (Hd & Hnd & Hok & Hfiles).
  destruct (duplicate_game_first_definition_wins fs_dup_games
              (loaded fs_dup_games "config.toml")
              (doc_at 0 config_dup_games) Hd Hnd Hok Hfiles)
    as (s' & Hrun & Hkeys & Hfirst & Hinline & Hfrag).
  exists s'. split; [exact Hrun|]. split; [exact Hkeys|]. split; [|split].
  - apply Hfirst. vm_compute. reflexivity.
  - apply (Hinline [0] 1 [] (game_def "a" "dcss" "0.24") (VStr "a") (KStr "a"));
      [reflexivity..|]. vm_compute. discriminate.
  - apply (Hfrag "games.d/extra.toml" (game_def "a" "sprint" "0.25")
             (VStr "a") (KStr "a")).
    + vm_compute. by left.
    + assert (fragment_tables fs_dup_games "games.d/extra.toml"
              = [game_def "a" "sprint" "0.25"; game_def "b" "sprint" "0.25"])
        as -> by (vm_compute; reflexivity).
      by left.
    + reflexivity.
    + reflexivity.
    + vm_compute. discriminate.
Defined.

Lemma games_list_keeps_inline_duplicates_witness :
  ∃ s' d' added,
    load_games fs_dup_games (loaded fs_dup_games "config.toml")
      = (Ok (), s') ∧
    data (self s') = Some d' ∧
    Doc.games d' = Some ([0; 1] ++ added) ∧
    (∀ g, g ∈ added → g ∈ registered s') ∧
    1 ∈ [0; 1] ++ added ∧ 1 ∉ registered s'.
Proof.
  destruct fs_dup_games_wf as (Hd & Hnd & Hok & Hfiles).
  destruct (games_list_keeps_inline_duplicates fs_dup_games
              (loaded fs_dup_games "config.toml")
              (doc_at 0 config_dup_games) Hd Hnd Hok Hfiles)
    as (s' & d' & added & Hrun & Hd' & Hgames & Hadded & Hdup).
  exists s', d', added.
  split; [exact Hrun|]. split; [exact Hd'|]. split; [exact Hgames|]. split.
  - intros g Hg. by apply Hadded.
  - apply (Hdup [0] 1 [] (KStr "a")); [reflexivity|reflexivity|].
    vm_compute. discriminate.
Defined.

(** ** Identity sets after a load *)

Lemma hoare_bind {A B} (P : state → Prop) (m : M A) (R : A → state → Prop)
    (k : A → M B) (Q : B → state → Prop) :
  hoare P m R → (∀ a, hoare (R a) (k a) Q) → hoare P (bind m k) Q.
Proof.
  intros Hm Hk s b s' HP. unfold bind.
  destruct (m s) as [[a|e] s1] eqn:Hms; [|done].
  intros Hks. eapply Hk; [|exact Hks]. by eapply Hm.
Qed.

Lemma hoare_weaken {A} (P P' : state → Prop) (m : M A)
    (Q Q' : A → state → Prop) :
  hoare P' m Q' → (∀ s, P s → P' s) → (∀ a s, Q' a s → Q a s) →
  hoare P m Q.
Proof. intros Hm HP HQ s a s' Hs Hrun. eapply HQ, Hm; eauto. Qed.

Lemma hoare_raise {A} (P : state → Prop) (e : exn) (Q : A → state → Prop) :
  hoare P (raise e) Q.
Proof. by intros s a s' _. Qed.

Lemma hoare_ret {A} (P : state → Prop) (a : A) :
  hoare P (ret a) (λ _ s, P s).
Proof. intros s a' s' HP [= _ <-]. done. Qed.

Lemma hoare_frame {A} (Pc : Conf → Prop) (m : M A) :
  frame m → hoare (λ s, Pc (self s)) m (λ _ s, Pc (self s)).
Proof. intros Hf s a s' HP Hrun. by rewrite (Hf _ _ _ Hrun). Qed.

Lemma hoare_modify_self (f : Conf → Conf) (Pc Qc : Conf → Prop) :
  (∀ c, Pc c → Qc (f c)) →
  hoare (λ s, Pc (self s)) (modify_self f) (λ _ s, Qc (self s)).
Proof. intros H s a s' HP [= _ <-]. by apply H. Qed.

Lemma hoare_for_each {A} (I : state → Prop) (l : list A) (body : A → M unit) :
  (∀ x, hoare I (body x) (λ _ s, I s)) →
  hoare I (for_each l body) (λ _ s, I s).
Proof.
  intros Hbody. induction l as [|x l IH]; simpl.
  - apply hoare_ret.
  - eapply hoare_bind; [apply Hbody|]. intros ?. exact IH.
Qed.

Lemma frame_bind {A B} (m : M A) (k : A → M B) :
  frame m → (∀ a, frame (k a)) → frame (bind m k).
Proof.
  intros Hm Hk s r s'. unfold bind.
  destruct (m s) as [[a|e] s1] eqn:Hms.
  - intros Hks. rewrite (Hk _ _ _ _ Hks). by eapply Hm.
  - intros [= _ <-]. by eapply Hm.
Qed.

Lemma frame_ret {A} (a : A) : frame (ret a).
Proof. by intros s r s' [= _ <-]. Qed.

Lemma frame_raise {A} (e : exn) : frame (@raise A e).
Proof. by intros s r s' [= _ <-]. Qed.

Lemma frame_logging l fmt args : frame (logging l fmt args).
Proof. by intros s r s' [= _ <-]. Qed.

Lemma frame_get_self : frame get_self.
Proof. by intros s r s' [= _ <-]. Qed.

Lemma frame_get {A} (key : Doc.t loc → option A) : frame (get key).
Proof.
  apply frame_bind; [apply frame_get_self|]. intros c.
  destruct (data c); [apply frame_ret|apply frame_raise].
Qed.

Lemma frame_getattr_missing {A} name : frame (@getattr_missing A name).
Proof.
  apply frame_bind; [apply frame_get_self|]. intros c.
  destruct (data c); apply frame_raise.
Qed.

Lemma frame_get_player_titles : frame get_player_titles.
Proof.
  apply frame_bind; [apply frame_get_self|]. intros c.
  destruct (player_titles c); [apply frame_ret|apply frame_getattr_missing].
Qed.

Lemma frame_deref a : frame (deref a).
Proof.
  intros s r s'. unfold deref. destruct (heap s !! a); by intros [= _ <-].
Qed.

Lemma frame_getitem a key : frame (getitem a key).
Proof.
  apply frame_bind; [apply frame_deref|]. intros t.
  destruct (t !! key); [apply frame_ret|apply frame_raise].
Qed.

Lemma frame_setitem a key v : frame (setitem a key v).
Proof.
  intros s r s'. unfold setitem. destruct (heap s !! a); by intros [= _ <-].
Qed.

Lemma frame_lift {A} (r : exn + A) : frame (lift r).
Proof. destruct r; [apply frame_raise|apply frame_ret]. Qed.

Lemma frame_for_each {A} (l : list A) (body : A → M unit) :
  (∀ x, frame (body x)) → frame (for_each l body).
Proof.
  intros Hbody. induction l as [|x l IH]; simpl; [apply frame_ret|].
  apply frame_bind; [apply Hbody|]. by intros ?.
Qed.

Lemma frame_alloc_doc d : frame (alloc_doc d).
Proof. intros s r s'. rewrite alloc_doc_eq. by intros [= _ <-]. Qed.

Lemma frame_require_field cmd field : frame (require_field cmd field).
Proof.
  apply frame_bind; [apply frame_deref|]. intros t. unfold when.
  destruct (negb _); [|apply frame_ret].
  apply frame_bind; [apply frame_logging|]. intros ?. apply frame_raise.
Qed.

Lemma frame_add_param cmd tok : frame (add_param cmd tok).
Proof.
  unfold add_param. destruct (field_name tok) as [[|c n]|];
    try apply frame_ret.
  apply frame_bind; [apply frame_getitem|]. intros p.
  destruct p; (apply frame_raise || apply frame_setitem).
Qed.

(** Assigning the other attributes keeps the identity sets. *)
Lemma identity_sets_set_player_titles t c :
  identity_sets c → identity_sets (set_player_titles t c).
Proof. by intros (a & j & ? & ? & ?); exists a, j. Qed.

Lemma identity_sets_set_janitor_commands t c :
  identity_sets c → identity_sets (set_janitor_commands t c).
Proof. by intros (a & j & ? & ? & ?); exists a, j. Qed.

Lemma identity_sets_set_devteam t c :
  identity_sets c → identity_sets (set_devteam t c).
Proof. by intros (a & j & ? & ? & ?); exists a, j. Qed.

Lemma load_player_titles_identity_sets fs :
  hoare (λ s, identity_sets (self s)) (load_player_titles fs)
        (λ _ s, identity_sets (self s)).
Proof.
  unfold load_player_titles.
  eapply hoare_bind; [apply (hoare_frame identity_sets), frame_get|].
  intros title_names. cbv beta.
  eapply hoare_bind; [apply (hoare_frame identity_sets), frame_get|].
  intros title_file. cbv beta.
  destruct (negb _); [apply hoare_ret|].
  destruct (open_file fs _).
  - eapply hoare_bind; [apply (hoare_frame identity_sets), frame_logging|].
    intros ?. apply hoare_raise.
  - eapply hoare_bind.
    + apply (hoare_modify_self _ identity_sets identity_sets).
      apply identity_sets_set_player_titles.
    + intros ?. apply hoare_for_each. intros row.
      destruct row as [|r0 alts]; [apply hoare_raise|]. simpl.
      eapply hoare_bind;
        [apply (hoare_frame identity_sets), frame_get_player_titles|].
      intros t. apply (hoare_modify_self _ identity_sets identity_sets).
      apply identity_sets_set_player_titles.
Qed.

Lemma load_janitor_command_identity_sets cmd :
  hoare (λ s, identity_sets (self s)) (load_janitor_command cmd)
        (λ _ s, identity_sets (self s)).
Proof.
  unfold load_janitor_command.
  eapply hoare_bind.
  { apply (hoare_frame identity_sets), frame_for_each.
    apply frame_require_field. }
  intros ?. eapply hoare_bind;
    [apply (hoare_frame identity_sets), frame_setitem|].
  intros ?. eapply hoare_bind;
    [apply (hoare_frame identity_sets), frame_getitem|].
  intros argument. eapply hoare_bind.
  { apply (hoare_frame identity_sets).
    destruct argument; try apply frame_raise.
    destruct (formatter_parse s) as [tokens err].
    apply frame_bind; [apply frame_for_each, frame_add_param|].
    intros ?. destruct err; [apply frame_raise|apply frame_ret]. }
  intros ?. eapply hoare_bind;
    [apply (hoare_frame identity_sets), frame_getitem|].
  intros id. eapply hoare_bind;
    [apply (hoare_frame identity_sets), frame_lift|].
  intros k. eapply hoare_bind;
    [apply (hoare_frame identity_sets), frame_get_self|].
  intros c. apply (hoare_modify_self _ identity_sets identity_sets).
  apply identity_sets_set_janitor_commands.
Qed.

Lemma load_janitor_commands_identity_sets :
  hoare (λ s, identity_sets (self s)) load_janitor_commands
        (λ _ s, identity_sets (self s)).
Proof.
  unfold load_janitor_commands.
  eapply hoare_bind.
  { apply (hoare_modify_self _ identity_sets identity_sets).
    apply identity_sets_set_janitor_commands. }
  intros ?. eapply hoare_bind;
    [apply (hoare_frame identity_sets), frame_get|].
  intros cmds. cbv beta. destruct (negb _); [apply hoare_ret|].
  apply hoare_for_each. intros cmd.
  apply load_janitor_command_identity_sets.
Qed.

Lemma devteam_row_identity_sets row :
  hoare (λ s, identity_sets (self s)) (devteam_row row)
        (λ _ s, identity_sets (self s)).
Proof.
  intros s u s' (a & j & Ha & Hj & Hsub).
  destruct row as [|r0 alts]; [done|].
  unfold devteam_row, get, get_janitors, get_self, modify_self, when, ret,
    raise, bind. simpl.
  destruct (data (self s)) as [d|]; [|done]. simpl.
  destruct (is_true (Doc.devs_are_server_janitors d)); simpl.
  - rewrite Hj. intros [= _ <-]. simpl.
    exists a, (j ∪ ({[r0]} ∪ list_to_set alts)).
    split; [done|split; [done|]]. by apply union_subseteq_l'.
  - intros [= _ <-]. simpl. by exists a, j.
Qed.

(** Whenever [load] returns, from a new or an already loaded [Conf]
    object, every admin is a janitor. *)
Lemma load_identity_sets fs :
  hoare (λ _, True) (load fs) (λ _ s, identity_sets (self s)).
Proof.
  unfold load.
  eapply hoare_bind;
    [apply (hoare_modify_self _ (λ _, True) (λ _, True)); done|].
  intros []. eapply hoare_bind;
    [apply (hoare_frame (λ _, True)), frame_get_self|].
  intros c. eapply hoare_bind with (R := λ _ _, True).
  { by intros s0 v0 s1 _ _. }
  intros []. eapply hoare_bind with (R := λ _ _, True).
  { by intros s0 v0 s1 _ _. }
  intros server_admins. eapply hoare_bind with (R := λ _ _, True).
  { by intros s0 v0 s1 _ _. }
  intros []. eapply hoare_bind with (R := λ _ _, True).
  { by intros s0 v0 s1 _ _. }
  intros server_janitors. eapply hoare_bind with (R := λ _ _, True).
  { by intros s0 v0 s1 _ _. }
  intros [].
  eapply hoare_bind with (R := λ j s, janitors (self s) = Some j).
  { intros s0 j0 s1 _.
    unfold get_janitors, getattr_missing, get_self, raise, ret, bind.
    destruct (janitors (self s0)) as [j'|] eqn:Hj.
    - by intros [= <- <-].
    - by destruct (data (self s0)). }
  intros j.
  eapply hoare_bind
    with (R := λ a s, janitors (self s) = Some j ∧ admins (self s) = Some a).
  { intros s0 a0 s1 Hj.
    unfold get_admins, getattr_missing, get_self, raise, ret, bind.
    destruct (admins (self s0)) as [a'|] eqn:Ha.
    - by intros [= <- <-].
    - by destruct (data (self s0)). }
  intros a.
  eapply hoare_bind with (R := λ _ s, identity_sets (self s)).
  { apply (hoare_modify_self _
      (λ c, janitors c = Some j ∧ admins c = Some a) identity_sets).
    intros c' [Hj Ha]. exists a, (j ∪ a).
    split; [done|split; [done|]]. apply union_subseteq_r. }
  intros []. eapply hoare_bind;
    [apply (hoare_frame identity_sets), frame_get|].
  intros devteam_file. cbv beta.
  eapply hoare_bind with (R := λ _ s, identity_sets (self s)).
  { unfold when. destruct (nonempty_str devteam_file); [|apply hoare_ret].
    destruct (open_file fs _).
    - eapply hoare_bind; [apply (hoare_frame identity_sets), frame_logging|].
      intros []. apply hoare_raise.
    - apply hoare_for_each. apply devteam_row_identity_sets. }
  intros []. eapply hoare_bind;
    [apply load_player_titles_identity_sets|].
  intros []. apply load_janitor_commands_identity_sets.
Qed.

(** C2: whenever [load] returns, on a new [Conf] object or on a reload,
    and whatever keys the primary document has or omits, both identity
    sets are assigned and the janitors set includes the admins set; so
    every user [is_server_admin] accepts, [is_server_janitor] accepts. *)
Theorem load_janitors_include_admins (fs : FileSystem) (s s' : state) :
  load fs s = (Ok (), s') →
  (∃ a j, admins (self s') = Some a ∧ janitors (self s') = Some j ∧ a ⊆ j) ∧
  ∀ username,
    (is_server_admin username s').1 = Ok true →
    (is_server_janitor username s').1 = Ok true.
Proof.
  intros Hrun.
  destruct (load_identity_sets fs s () s' I Hrun) as (a & j & Ha & Hj & Hsub).
  split; [by exists a, j|].
  intros username.
  unfold is_server_admin, is_server_janitor, get_admins, get_janitors,
    get_self, ret, bind.
  rewrite Ha, Hj. simpl. intros [= Hin].
  apply andb_true_iff in Hin as [_ Hin].
  apply bool_decide_eq_true in Hin.
  assert (lower username ∈ j) as Hj' by by apply Hsub.
  f_equal. apply andb_true_iff. split.
  - apply negb_true_iff, bool_decide_eq_false. intros ->.
    by apply not_elem_of_empty in Hj'.
  - by apply bool_decide_eq_true.
Qed.

Lemma load_janitors_include_admins_witness :
  (load fs_devteam (init_state "config.toml")).1 = Ok () ∧
  (load fs_no_admins state_devteam).1 = Ok () ∧
  janitors (self state_reloaded)
    = Some {["jan"; "root"; "Alice"; "al"; "bob"]} ∧
  (∃ a j, admins (self state_reloaded) = Some a ∧
          janitors (self state_reloaded) = Some j ∧ a ⊆ j) ∧
  (is_server_janitor "ROOT" state_reloaded).1 = Ok true.
Proof.
  split; [vm_compute; reflexivity|].
  split; [vm_compute; reflexivity|].
  split; [vm_compute; reflexivity|].
  assert (load fs_no_admins state_devteam = (Ok (), state_reloaded)) as Hrun
    by (vm_compute; reflexivity).
  destruct (load_janitors_include_admins fs_no_admins state_devteam
              state_reloaded Hrun) as [Hsets Hadmin].
  split; [exact Hsets|].
  apply Hadmin. vm_compute. reflexivity.
Defined.

(** C3: with [devs_are_server_janitors] set and the roster row
    [Alice al], the janitors set receives the row as it is spelt, so it
    holds [Alice] and not [alice]; [is_server_janitor] looks the lowercased
    query up and answers false for the developer [Alice] in any letter
    case, while the all-lowercase names [al] and [bob] are janitors in any
    letter case. *)
Theorem devteam_janitors_not_lowercased :
  (load fs_devteam (init_state "config.toml")).1 = Ok () ∧
  devteam (self state_devteam) = [(KStr "Alice", ["al"]); (KStr "bob", [])] ∧
  janitors (self state_devteam)
    = Some {["jan"; "root"; "Alice"; "al"; "bob"]} ∧
  (get_devname insertion_order "alice" state_devteam).1 = Ok (Some "Alice") ∧
  (is_server_janitor "Alice" state_devteam).1 = Ok false ∧
  (is_server_janitor "alice" state_devteam).1 = Ok false ∧
  (is_server_janitor "AL" state_devteam).1 = Ok true ∧
  (is_server_janitor "Bob" state_devteam).1 = Ok true.
Proof. vm_compute. done. Qed.

(** * Further properties of the loader and the accessors *)

(** ** What a run leaves as it was *)

Section preserves.
Context (R : state → state → Prop) `{!PreOrder R}.

Lemma preserves_ret {A} (a : A) : preserves R (ret a).
Proof. intros s r s' [= _ <-]. reflexivity. Qed.

Lemma preserves_raise {A} (e : exn) : preserves R (@raise A e).
Proof. intros s r s' [= _ <-]. reflexivity. Qed.

Lemma preserves_bind {A B} (m : M A) (k : A → M B) :
  preserves R m → (∀ a, preserves R (k a)) → preserves R (bind m k).
Proof.
  intros Hm Hk s r s'. unfold bind.
  destruct (m s) as [[a|e] s1] eqn:Hms.
  - intros Hks. etrans; [by eapply Hm|by eapply Hk].
  - intros [= _ <-]. by eapply Hm.
Qed.

Lemma preserves_for_each {A} (l : list A) (body : A → M unit) :
  (∀ x, preserves R (body x)) → preserves R (for_each l body).
Proof.
  intros Hbody. induction l as [|x l IH]; simpl; [apply preserves_ret|].
  apply preserves_bind; [apply Hbody|]. by intros [].
Qed.

Lemma preserves_try_except {A} (m : M A) (e : exn) (h : M A) :
  preserves R m → preserves R h → preserves R (try_except m e h).
Proof.
  intros Hm Hh s r s'. unfold try_except.
  destruct (m s) as [[a|e'] s1] eqn:Hms.
  - intros [= <- <-]. by eapply Hm.
  - destruct (decide (e' = e)).
    + intros Hhs. etrans; [by eapply Hm|by eapply Hh].
    + intros [= <- <-]. by eapply Hm.
Qed.

Lemma preserves_when (b : bool) (m : M unit) :
  preserves R m → preserves R (when b m).
Proof. destruct b; [done|]. intros _. apply preserves_ret. Qed.
End preserves.

#[global] Instance on_self_preorder (Rc : Conf → Conf → Prop) :
  PreOrder Rc → PreOrder (on_self Rc).
Proof.
  intros [Hr Ht]. split.
  - intros s. apply Hr.
  - intros s1 s2 s3. apply Ht.
Qed.

Lemma preserves_frame {A} (Rc : Conf → Conf → Prop) `{!Reflexive Rc}
    (m : M A) :
  frame m → preserves (on_self Rc) m.
Proof.
  intros Hf s r s' Hrun. unfold on_self. by rewrite (Hf _ _ _ Hrun).
Qed.

Lemma preserves_modify_self (Rc : Conf → Conf → Prop) (f : Conf → Conf) :
  (∀ c, Rc c (f c)) → preserves (on_self Rc) (modify_self f).
Proof. intros H s r s' [= _ <-]. apply H. Qed.

#[global] Instance same_but_games_preorder : PreOrder same_but_games.
Proof.
  split.
  - by intros c.
  - intros c1 c2 c3 (?&?&?&?&?&?&?) (?&?&?&?&?&?&?).
    repeat split; congruence.
Qed.

#[global] Instance same_registry_preorder : PreOrder same_registry.
Proof.
  split.
  - by intros c.
  - intros c1 c2 c3 [? ?] [? ?]. split; congruence.
Qed.

#[global] Instance same_but_titles_preorder : PreOrder same_but_titles.
Proof.
  split.
  - by intros c.
  - intros c1 c2 c3 (?&?&?&?&?&?&?) (?&?&?&?&?&?&?).
    repeat split; congruence.
Qed.

#[global] Instance same_but_commands_preorder : PreOrder same_but_commands.
Proof.
  split.
  - by intros c.
  - intros c1 c2 c3 (?&?&?&?&?&?&?) (?&?&?&?&?&?&?).
    repeat split; congruence.
Qed.

Lemma frame_when (b : bool) (m : M unit) : frame m → frame (when b m).
Proof. destruct b; [done|]. intros _. apply frame_ret. Qed.

Lemma frame_alloc_all ts : frame (alloc_all ts).
Proof. intros s r s'. rewrite alloc_all_run. by intros [= _ <-]. Qed.

Lemma frame_get_admins : frame get_admins.
Proof.
  apply frame_bind; [apply frame_get_self|]. intros c.
  destruct (admins c); [apply frame_ret|apply frame_getattr_missing].
Qed.

Lemma frame_get_janitors : frame get_janitors.
Proof.
  apply frame_bind; [apply frame_get_self|]. intros c.
  destruct (janitors c); [apply frame_ret|apply frame_getattr_missing].
Qed.

Lemma frame_log_exit {A} l fmt args code :
  frame (logging l fmt args >> @sys_exit A code).
Proof.
  apply frame_bind; [apply frame_logging|]. intros _. apply frame_raise.
Qed.

Lemma frame__load_game_map fs game : frame (_load_game_map fs game).
Proof.
  apply frame_bind; [apply frame_deref|]. intros t.
  destruct (negb _); [apply frame_ret|].
  destruct (negb _).
  { apply frame_bind; [apply frame_getitem|]. intros id. apply frame_logging. }
  apply frame_bind; [apply frame_getitem|]. intros map_path.
  destruct (toml_load fs map_path) as [d|]; [|apply frame_log_exit].
  destruct (Doc.maps d); [apply frame_setitem|apply frame_log_exit].
Qed.

Lemma same_but_games_set_games g c : same_but_games c (set_games g c).
Proof. done. Qed.

Lemma same_but_games_with_games g d c :
  data c = Some d → same_but_games c (set_data (Doc.with_games g d) c).
Proof.
  intros Hd. repeat split. unfold settings. simpl. by rewrite Hd.
Qed.

Lemma _load_game_data_same_but_games fs game :
  preserves (on_self same_but_games) (_load_game_data fs game).
Proof.
  unfold _load_game_data.
  apply preserves_bind; [apply _|apply preserves_frame, frame_getitem; apply _|].
  intros id.
  apply preserves_bind; [apply _|apply preserves_frame, frame_lift; apply _|].
  intros k.
  apply preserves_bind; [apply _|apply preserves_frame, frame_get_self; apply _|].
  intros c. destruct (dict_mem k (games c)); [apply preserves_raise; apply _|].
  apply preserves_bind;
    [apply _|apply preserves_frame, frame__load_game_map; apply _|].
  intros []. apply preserves_bind;
    [apply _|apply preserves_frame, frame_get_self; apply _|].
  intros c'. apply preserves_bind; [apply _| |].
  - apply preserves_modify_self. intros c0. apply same_but_games_set_games.
  - intros []. apply preserves_frame, frame_logging; apply _.
Qed.

Lemma data_games_append_same_but_games game :
  preserves (on_self same_but_games) (data_games_append game).
Proof.
  intros s r s'. unfold data_games_append, get_self, bind.
  destruct (data (self s)) as [d|] eqn:Hd; [|by intros [= _ <-]].
  destruct (Doc.games d) as [l|]; [|by intros [= _ <-]].
  intros [= _ <-]. by apply same_but_games_with_games.
Qed.

Lemma load_inline_game_same_but_games fs game :
  preserves (on_self same_but_games) (load_inline_game fs game).
Proof.
  apply preserves_try_except; [apply _|apply _load_game_data_same_but_games|].
  apply preserves_frame; [apply _|].
  apply frame_bind; [apply frame_getitem|]. intros id.
  apply frame_bind; [apply frame_get_self|]. intros c. apply frame_logging.
Qed.

Lemma load_fragment_game_same_but_games fs f game :
  preserves (on_self same_but_games) (load_fragment_game fs f game).
Proof.
  apply preserves_try_except; [apply _| |].
  - apply preserves_bind; [apply _|apply _load_game_data_same_but_games|].
    intros []. apply data_games_append_same_but_games.
  - apply preserves_frame; [apply _|].
    apply frame_bind; [apply frame_getitem|]. intros id. apply frame_logging.
Qed.

Lemma load_fragment_file_same_but_games fs f :
  preserves (on_self same_but_games) (load_fragment_file fs f).
Proof.
  unfold load_fragment_file.
  apply preserves_bind; [apply _|apply preserves_frame, frame_logging; apply _|].
  intros []. destruct (negb _);
    [apply preserves_frame, frame_logging; apply _|].
  apply preserves_bind; [apply _|apply preserves_frame, frame_logging; apply _|].
  intros []. destruct (open_file fs f);
    [apply preserves_frame, frame_log_exit; apply _|].
  destruct (toml_load fs (VStr f)) as [d|];
    [|apply preserves_frame, frame_log_exit; apply _].
  destruct (Doc.games d) as [gs|];
    [|apply preserves_frame, frame_logging; apply _].
  apply preserves_bind;
    [apply _|apply preserves_frame, frame_alloc_all; apply _|].
  intros gs'. apply preserves_for_each; [apply _|].
  intros g. apply load_fragment_game_same_but_games.
Qed.

Lemma _load_game_conf_dir_same_but_games fs :
  preserves (on_self same_but_games) (_load_game_conf_dir fs).
Proof.
  unfold _load_game_conf_dir.
  apply preserves_bind; [apply _|apply preserves_frame, frame_get; apply _|].
  intros conf_dir. destruct (negb _); [apply preserves_ret; apply _|].
  destruct (negb _); [apply preserves_frame, frame_logging; apply _|].
  apply preserves_for_each; [apply _|].
  intros f. apply load_fragment_file_same_but_games.
Qed.

Lemma load_games_same_but_games fs :
  preserves (on_self same_but_games) (load_games fs).
Proof.
  unfold load_games.
  apply preserves_bind; [apply _| |].
  { apply preserves_modify_self. intros c. apply same_but_games_set_games. }
  intros []. apply preserves_bind;
    [apply _|apply preserves_frame, frame_get; apply _|].
  intros gs. apply preserves_bind; [apply _| |].
  - destruct (nonempty_list gs).
    + apply preserves_for_each; [apply _|].
      intros g. apply load_inline_game_same_but_games.
    + intros s r s'. unfold get_self, modify_self, bind.
      destruct (data (self s)) as [d|] eqn:Hd; intros [= _ <-]; [|done].
      by apply same_but_games_with_games.
  - intros []. apply _load_game_conf_dir_same_but_games.
Qed.

(** X3: whatever its outcome (also when it raises or exits),
    [load_games] assigns nothing but the registry and the document's
    [games] entry: the path, the identity sets, the rosters, the command
    table and every other key of the document are as before. *)
Theorem load_games_assigns_games_only (fs : FileSystem) (s : state) :
  let c := self s in
  let c' := self (load_games fs s).2 in
  path c' = path c ∧
  Doc.with_games None <$> data c' = Doc.with_games None <$> data c ∧
  devteam c' = devteam c ∧ admins c' = admins c ∧ janitors c' = janitors c ∧
  player_titles c' = player_titles c ∧
  janitor_commands c' = janitor_commands c.
Proof.
  apply (load_games_same_but_games fs s (load_games fs s).1).
  by destruct (load_games fs s).
Qed.

Lemma player_title_row_same_but_titles row :
  preserves (on_self same_but_titles) (player_title_row row).
Proof.
  destruct row as [|r0 alts]; [apply preserves_raise; apply _|].
  apply preserves_bind;
    [apply _|apply preserves_frame, frame_get_player_titles; apply _|].
  intros t. by apply preserves_modify_self.
Qed.

Lemma load_player_titles_same_but_titles fs :
  preserves (on_self same_but_titles) (load_player_titles fs).
Proof.
  unfold load_player_titles.
  apply preserves_bind; [apply _|apply preserves_frame, frame_get; apply _|].
  intros title_names.
  apply preserves_bind; [apply _|apply preserves_frame, frame_get; apply _|].
  intros title_file. destruct (negb _); [apply preserves_ret; apply _|].
  destruct (open_file fs _);
    [apply preserves_frame, frame_log_exit; apply _|].
  apply preserves_bind; [apply _|by apply preserves_modify_self|].
  intros []. apply preserves_for_each; [apply _|].
  apply player_title_row_same_but_titles.
Qed.

Lemma load_janitor_command_same_but_commands cmd :
  preserves (on_self same_but_commands) (load_janitor_command cmd).
Proof.
  unfold load_janitor_command.
  apply preserves_bind; [apply _| |].
  { apply preserves_frame; [apply _|].
    apply frame_for_each, frame_require_field. }
  intros []. apply preserves_bind;
    [apply _|apply preserves_frame, frame_setitem; apply _|].
  intros []. apply preserves_bind;
    [apply _|apply preserves_frame, frame_getitem; apply _|].
  intros argument. apply preserves_bind; [apply _| |].
  { apply preserves_frame; [apply _|].
    destruct argument; try apply frame_raise.
    destruct (formatter_parse s) as [tokens err].
    apply frame_bind; [apply frame_for_each, frame_add_param|].
    intros _. destruct err; [apply frame_raise|apply frame_ret]. }
  intros []. apply preserves_bind;
    [apply _|apply preserves_frame, frame_getitem; apply _|].
  intros id. apply preserves_bind;
    [apply _|apply preserves_frame, frame_lift; apply _|].
  intros k. apply preserves_bind;
    [apply _|apply preserves_frame, frame_get_self; apply _|].
  intros c. by apply preserves_modify_self.
Qed.

Lemma load_janitor_commands_same_but_commands :
  preserves (on_self same_but_commands) load_janitor_commands.
Proof.
  unfold load_janitor_commands.
  apply preserves_bind; [apply _|by apply preserves_modify_self|].
  intros []. apply preserves_bind;
    [apply _|apply preserves_frame, frame_get; apply _|].
  intros cmds. destruct (negb _); [apply preserves_ret; apply _|].
  apply preserves_for_each; [apply _|].
  apply load_janitor_command_same_but_commands.
Qed.

Lemma preserves_weaken {A} (R R' : state → state → Prop) (m : M A) :
  (∀ s s', R s s' → R' s s') → preserves R m → preserves R' m.
Proof. intros HR Hm s r s' Hrun. by eapply HR, Hm. Qed.

Lemma devteam_row_same_registry row :
  preserves (on_self same_registry) (devteam_row row).
Proof.
  destruct row as [|r0 alts]; [apply preserves_raise; apply _|].
  apply preserves_bind;
    [apply _|apply preserves_frame, frame_get_self; apply _|].
  intros c. apply preserves_bind; [apply _|by apply preserves_modify_self|].
  intros []. apply preserves_bind;
    [apply _|apply preserves_frame, frame_get; apply _|].
  intros flag. apply preserves_when; [apply _|].
  apply preserves_bind;
    [apply _|apply preserves_frame, frame_get_janitors; apply _|].
  intros j. by apply preserves_modify_self.
Qed.

Lemma load_same_registry fs : preserves (on_self same_registry) (load fs).
Proof.
  unfold load.
  apply preserves_bind; [apply _|by apply preserves_modify_self|].
  intros []. apply preserves_bind;
    [apply _|apply preserves_frame, frame_get_self; apply _|].
  intros c. apply preserves_bind; [apply _| |].
  { destruct (open_file fs (path c));
      [apply preserves_frame, frame_log_exit; apply _|].
    destruct (toml_load fs (VStr (path c))) as [d|];
      [|apply preserves_frame, frame_log_exit; apply _].
    apply preserves_bind;
      [apply _|apply preserves_frame, frame_alloc_doc; apply _|].
    intros d'. by apply preserves_modify_self. }
  intros []. apply preserves_bind;
    [apply _|apply preserves_frame, frame_get; apply _|].
  intros server_admins. apply preserves_bind; [apply _| |].
  { apply preserves_when; [apply _|]. by apply preserves_modify_self. }
  intros []. apply preserves_bind;
    [apply _|apply preserves_frame, frame_get; apply _|].
  intros server_janitors. apply preserves_bind; [apply _| |].
  { apply preserves_when; [apply _|]. by apply preserves_modify_self. }
  intros []. apply preserves_bind;
    [apply _|apply preserves_frame, frame_get_janitors; apply _|].
  intros j. apply preserves_bind;
    [apply _|apply preserves_frame, frame_get_admins; apply _|].
  intros a. apply preserves_bind; [apply _|by apply preserves_modify_self|].
  intros []. apply preserves_bind;
    [apply _|apply preserves_frame, frame_get; apply _|].
  intros devteam_file. apply preserves_bind; [apply _| |].
  { apply preserves_when; [apply _|].
    destruct (open_file fs _);
      [apply preserves_frame, frame_log_exit; apply _|].
    apply preserves_for_each; [apply _|]. apply devteam_row_same_registry. }
  intros []. apply preserves_bind; [apply _| |].
  { eapply preserves_weaken; [|apply load_player_titles_same_but_titles].
    intros s s' (?&?&?&?&?&?&?). by split. }
  intros []. eapply preserves_weaken;
    [|apply load_janitor_commands_same_but_commands].
  intros s s' (?&?&?&?&?&?&?). by split.
Qed.

(** X4: whatever their outcome, [load] assigns neither the path nor the
    game registry, [load_player_titles] assigns nothing but the title
    roster and [load_janitor_commands] nothing but the command table. *)
Theorem reloads_assign_their_own_attributes (fs : FileSystem) (s : state) :
  (let c' := self (load fs s).2 in
   path c' = path (self s) ∧ games c' = games (self s)) ∧
  (let c' := self (load_player_titles fs s).2 in
   path c' = path (self s) ∧ data c' = data (self s) ∧
   devteam c' = devteam (self s) ∧ admins c' = admins (self s) ∧
   janitors c' = janitors (self s) ∧
   janitor_commands c' = janitor_commands (self s) ∧
   games c' = games (self s)) ∧
  (let c' := self (load_janitor_commands s).2 in
   path c' = path (self s) ∧ data c' = data (self s) ∧
   devteam c' = devteam (self s) ∧ admins c' = admins (self s) ∧
   janitors c' = janitors (self s) ∧
   player_titles c' = player_titles (self s) ∧
   games c' = games (self s)).
Proof.
  split; [|split].
  - apply (load_same_registry fs s (load fs s).1). by destruct (load fs s).
  - apply (load_player_titles_same_but_titles fs s (load_player_titles fs s).1).
    by destruct (load_player_titles fs s).
  - apply (load_janitor_commands_same_but_commands s
             (load_janitor_commands s).1).
    by destruct (load_janitor_commands s).
Qed.

(** ** The dict objects through [load_games] *)

#[global] Instance heap_evolves_preorder : PreOrder heap_evolves.
Proof.
  split.
  - intros s g t Ht. by exists t.
  - intros s1 s2 s3 H12 H23 g t Ht.
    destruct (H12 g t Ht) as (t2 & Ht2 & E2).
    destruct (H23 g t2 Ht2) as (t3 & Ht3 & E3).
    exists t3. split; [done|]. by rewrite E3.
Qed.

Lemma preserves_keeps_heap {A} (m : M A) :
  keeps_heap m → preserves heap_evolves m.
Proof.
  intros Hm s r s' Hrun g t Ht. exists t. by rewrite (Hm _ _ _ Hrun).
Qed.

Lemma keeps_heap_bind {A B} (m : M A) (k : A → M B) :
  keeps_heap m → (∀ a, keeps_heap (k a)) → keeps_heap (bind m k).
Proof.
  intros Hm Hk s r s'. unfold bind.
  destruct (m s) as [[a|e] s1] eqn:Hms.
  - intros Hks. rewrite (Hk _ _ _ _ Hks). by eapply Hm.
  - intros [= _ <-]. by eapply Hm.
Qed.

Lemma keeps_heap_ret {A} (a : A) : keeps_heap (ret a).
Proof. by intros s r s' [= _ <-]. Qed.

Lemma keeps_heap_raise {A} (e : exn) : keeps_heap (@raise A e).
Proof. by intros s r s' [= _ <-]. Qed.

Lemma keeps_heap_logging l fmt args : keeps_heap (logging l fmt args).
Proof. by intros s r s' [= _ <-]. Qed.

Lemma keeps_heap_get_self : keeps_heap get_self.
Proof. by intros s r s' [= _ <-]. Qed.

Lemma keeps_heap_modify_self f : keeps_heap (modify_self f).
Proof. by intros s r s' [= _ <-]. Qed.

Lemma keeps_heap_get {A} (key : Doc.t loc → option A) : keeps_heap (get key).
Proof.
  apply keeps_heap_bind; [apply keeps_heap_get_self|]. intros c.
  destruct (data c); [apply keeps_heap_ret|apply keeps_heap_raise].
Qed.

Lemma keeps_heap_deref a : keeps_heap (deref a).
Proof.
  intros s r s'. unfold deref. destruct (heap s !! a); by intros [= _ <-].
Qed.

Lemma keeps_heap_getitem a key : keeps_heap (getitem a key).
Proof.
  apply keeps_heap_bind; [apply keeps_heap_deref|]. intros t.
  destruct (t !! key); [apply keeps_heap_ret|apply keeps_heap_raise].
Qed.

Lemma keeps_heap_lift {A} (r : exn + A) : keeps_heap (lift r).
Proof. destruct r; [apply keeps_heap_raise|apply keeps_heap_ret]. Qed.

Lemma keeps_heap_log_exit {A} l fmt args code :
  keeps_heap (logging l fmt args >> @sys_exit A code).
Proof.
  apply keeps_heap_bind; [apply keeps_heap_logging|].
  intros _. apply keeps_heap_raise.
Qed.

Lemma alloc_all_heap_evolves ts : preserves heap_evolves (alloc_all ts).
Proof.
  intros s r s'. rewrite alloc_all_run. intros [= _ <-] g t Ht.
  exists t. split; [|done]. simpl. by apply lookup_app_l_Some.
Qed.

Lemma set_game_maps_heap_evolves game m :
  preserves heap_evolves (setitem game "game_maps" m).
Proof.
  intros s r s'. unfold setitem.
  destruct (heap s !! game) as [t0|] eqn:Hg; intros [= _ <-]; [|reflexivity].
  intros g t Ht. simpl. destruct (decide (g = game)) as [->|Hne].
  - exists (<["game_maps" := m]> t0). split.
    + apply list_lookup_insert_eq. by eapply lookup_lt_Some.
    + rewrite delete_insert_eq. congruence.
  - exists t. by rewrite list_lookup_insert_ne.
Qed.

Lemma _load_game_map_heap_evolves fs game :
  preserves heap_evolves (_load_game_map fs game).
Proof.
  unfold _load_game_map.
  apply preserves_bind;
    [apply _|apply preserves_keeps_heap, keeps_heap_deref|].
  intros t. destruct (negb _); [apply preserves_ret; apply _|].
  destruct (negb _).
  { apply preserves_keeps_heap, keeps_heap_bind; [apply keeps_heap_getitem|].
    intros id. apply keeps_heap_logging. }
  apply preserves_bind;
    [apply _|apply preserves_keeps_heap, keeps_heap_getitem|].
  intros map_path.
  destruct (toml_load fs map_path) as [d|];
    [|apply preserves_keeps_heap, keeps_heap_log_exit].
  destruct (Doc.maps d);
    [apply set_game_maps_heap_evolves
    |apply preserves_keeps_heap, keeps_heap_log_exit].
Qed.

Lemma _load_game_data_heap_evolves fs game :
  preserves heap_evolves (_load_game_data fs game).
Proof.
  unfold _load_game_data.
  apply preserves_bind;
    [apply _|apply preserves_keeps_heap, keeps_heap_getitem|].
  intros id. apply preserves_bind;
    [apply _|apply preserves_keeps_heap, keeps_heap_lift|].
  intros k. apply preserves_bind;
    [apply _|apply preserves_keeps_heap, keeps_heap_get_self|].
  intros c. destruct (dict_mem k (games c)); [apply preserves_raise; apply _|].
  apply preserves_bind; [apply _|apply _load_game_map_heap_evolves|].
  intros []. apply preserves_keeps_heap.
  apply keeps_heap_bind; [apply keeps_heap_get_self|]. intros c'.
  apply keeps_heap_bind; [apply keeps_heap_modify_self|]. intros _.
  apply keeps_heap_logging.
Qed.

Lemma data_games_append_keeps_heap game : keeps_heap (data_games_append game).
Proof.
  apply keeps_heap_bind; [apply keeps_heap_get_self|]. intros c.
  destruct (data c) as [d|]; [|apply keeps_heap_raise].
  destruct (Doc.games d); [apply keeps_heap_modify_self|apply keeps_heap_raise].
Qed.

Lemma load_inline_game_heap_evolves fs game :
  preserves heap_evolves (load_inline_game fs game).
Proof.
  apply preserves_try_except; [apply _|apply _load_game_data_heap_evolves|].
  apply preserves_keeps_heap.
  apply keeps_heap_bind; [apply keeps_heap_getitem|]. intros id.
  apply keeps_heap_bind; [apply keeps_heap_get_self|]. intros c.
  apply keeps_heap_logging.
Qed.

Lemma load_fragment_game_heap_evolves fs f game :
  preserves heap_evolves (load_fragment_game fs f game).
Proof.
  apply preserves_try_except; [apply _| |].
  - apply preserves_bind; [apply _|apply _load_game_data_heap_evolves|].
    intros []. apply preserves_keeps_heap, data_games_append_keeps_heap.
  - apply preserves_keeps_heap.
    apply keeps_heap_bind; [apply keeps_heap_getitem|]. intros id.
    apply keeps_heap_logging.
Qed.

Lemma load_fragment_file_heap_evolves fs f :
  preserves heap_evolves (load_fragment_file fs f).
Proof.
  unfold load_fragment_file.
  apply preserves_bind;
    [apply _|apply preserves_keeps_heap, keeps_heap_logging|].
  intros []. destruct (negb _);
    [apply preserves_keeps_heap, keeps_heap_logging|].
  apply preserves_bind;
    [apply _|apply preserves_keeps_heap, keeps_heap_logging|].
  intros []. destruct (open_file fs f);
    [apply preserves_keeps_heap, keeps_heap_log_exit|].
  destruct (toml_load fs (VStr f)) as [d|];
    [|apply preserves_keeps_heap, keeps_heap_log_exit].
  destruct (Doc.games d) as [gs|];
    [|apply preserves_keeps_heap, keeps_heap_logging].
  apply preserves_bind; [apply _|apply alloc_all_heap_evolves|].
  intros gs'. apply preserves_for_each; [apply _|].
  intros g. apply load_fragment_game_heap_evolves.
Qed.

Lemma load_games_heap_evolves fs : preserves heap_evolves (load_games fs).
Proof.
  unfold load_games.
  apply preserves_bind;
    [apply _|apply preserves_keeps_heap, keeps_heap_modify_self|].
  intros []. apply preserves_bind;
    [apply _|apply preserves_keeps_heap, keeps_heap_get|].
  intros gs. apply preserves_bind; [apply _| |].
  - destruct (nonempty_list gs).
    + apply preserves_for_each; [apply _|].
      intros g. apply load_inline_game_heap_evolves.
    + apply preserves_keeps_heap.
      apply keeps_heap_bind; [apply keeps_heap_get_self|]. intros c.
      destruct (data c); [apply keeps_heap_modify_self|apply keeps_heap_raise].
  - intros []. unfold _load_game_conf_dir.
    apply preserves_bind;
      [apply _|apply preserves_keeps_heap, keeps_heap_get|].
    intros conf_dir. destruct (negb _); [apply preserves_ret; apply _|].
    destruct (negb _); [apply preserves_keeps_heap, keeps_heap_logging|].
    apply preserves_for_each; [apply _|].
    intros f. apply load_fragment_file_heap_evolves.
Qed.

(** X5: whatever its outcome, [load_games] removes no dict object and
    changes no field of an existing one other than [game_maps]: a game
    definition keeps what the configuration file says of it. *)
Theorem load_games_only_attaches_maps (fs : FileSystem) (s : state)
    (g : loc) (t : table) :
  heap s !! g = Some t →
  ∃ t', heap (load_games fs s).2 !! g = Some t' ∧
        ∀ key, key ≠ "game_maps" → t' !! key = t !! key.
Proof.
  intros Ht.
  assert (heap_evolves s (load_games fs s).2) as Hev.
  { apply (load_games_heap_evolves fs s (load_games fs s).1).
    by destruct (load_games fs s). }
  destruct (Hev g t Ht) as (t' & Ht' & E).
  exists t'. split; [done|]. intros key Hkey.
  by rewrite <- (lookup_delete_ne t' "game_maps" key),
     <- (lookup_delete_ne t "game_maps" key), E.
Qed.

(** ** Exits *)

Section exits.
Context (ok : log_record → Prop).

Lemma exits_no_exit {A} (m : M A) : no_exit m → exits_logged ok m.
Proof. intros Hm s code s' Hrun. by destruct (Hm s code s'). Qed.

Lemma exits_bind {A B} (m : M A) (k : A → M B) :
  exits_logged ok m → (∀ a, exits_logged ok (k a)) →
  exits_logged ok (bind m k).
Proof.
  intros Hm Hk s code s'. unfold bind.
  destruct (m s) as [[a|e] s1] eqn:Hms.
  - apply Hk.
  - intros [= -> <-]. by eapply Hm.
Qed.

Lemma exits_ret {A} (a : A) : exits_logged ok (ret a).
Proof. by intros s code s'. Qed.

Lemma exits_for_each {A} (l : list A) (body : A → M unit) :
  (∀ x, exits_logged ok (body x)) → exits_logged ok (for_each l body).
Proof.
  intros Hbody. induction l as [|x l IH]; simpl; [apply exits_ret|].
  apply exits_bind; [apply Hbody|]. by intros [].
Qed.

Lemma exits_when (b : bool) (m : M unit) :
  exits_logged ok m → exits_logged ok (when b m).
Proof. destruct b; [done|]. intros _. apply exits_ret. Qed.

Lemma exits_try_except {A} (m : M A) (e : exn) (h : M A) :
  exits_logged ok m → exits_logged ok h → exits_logged ok (try_except m e h).
Proof.
  intros Hm Hh s code s'. unfold try_except.
  destruct (m s) as [[a|e'] s1] eqn:Hms; [done|].
  destruct (decide (e' = e)); [apply Hh|].
  intros [= -> <-]. by eapply Hm.
Qed.

Lemma exits_log_exit {A} l fmt args :
  ok (LogRecord l fmt args) →
  exits_logged ok (logging l fmt args >> @sys_exit A 1).
Proof.
  intros Hok s code s' [= <- <-]. split; [done|].
  exists (LogRecord l fmt args). simpl. by rewrite last_snoc.
Qed.
End exits.

Lemma no_exit_bind {A B} (m : M A) (k : A → M B) :
  no_exit m → (∀ a, no_exit (k a)) → no_exit (bind m k).
Proof.
  intros Hm Hk s code s'. unfold bind.
  destruct (m s) as [[a|e] s1] eqn:Hms; [apply Hk|].
  intros [= -> <-]. by eapply Hm.
Qed.

Lemma no_exit_ret {A} (a : A) : no_exit (ret a).
Proof. by intros s code s'. Qed.

Lemma no_exit_raise {A} (e : exn) :
  (∀ code, e ≠ SystemExit code) → no_exit (@raise A e).
Proof. intros He s code s' [= -> _]. by eapply He. Qed.

Lemma no_exit_logging l fmt args : no_exit (logging l fmt args).
Proof. by intros s code s'. Qed.

Lemma no_exit_get_self : no_exit get_self.
Proof. by intros s code s'. Qed.

Lemma no_exit_modify_self f : no_exit (modify_self f).
Proof. by intros s code s'. Qed.

Lemma no_exit_get {A} (key : Doc.t loc → option A) : no_exit (get key).
Proof.
  apply no_exit_bind; [apply no_exit_get_self|]. intros c.
  destruct (data c); [apply no_exit_ret|by apply no_exit_raise].
Qed.

Lemma no_exit_getattr_missing {A} name : no_exit (@getattr_missing A name).
Proof.
  apply no_exit_bind; [apply no_exit_get_self|]. intros c.
  destruct (data c); by apply no_exit_raise.
Qed.

Lemma no_exit_get_admins : no_exit get_admins.
Proof.
  apply no_exit_bind; [apply no_exit_get_self|]. intros c.
  destruct (admins c); [apply no_exit_ret|apply no_exit_getattr_missing].
Qed.

Lemma no_exit_get_janitors : no_exit get_janitors.
Proof.
  apply no_exit_bind; [apply no_exit_get_self|]. intros c.
  destruct (janitors c); [apply no_exit_ret|apply no_exit_getattr_missing].
Qed.

Lemma no_exit_get_player_titles : no_exit get_player_titles.
Proof.
  apply no_exit_bind; [apply no_exit_get_self|]. intros c.
  destruct (player_titles c);
    [apply no_exit_ret|apply no_exit_getattr_missing].
Qed.

Lemma no_exit_deref a : no_exit (deref a).
Proof. intros s code s'. unfold deref. by destruct (heap s !! a). Qed.

Lemma no_exit_getitem a key : no_exit (getitem a key).
Proof.
  apply no_exit_bind; [apply no_exit_deref|]. intros t.
  destruct (t !! key); [apply no_exit_ret|by apply no_exit_raise].
Qed.

Lemma no_exit_setitem a key v : no_exit (setitem a key v).
Proof. intros s code s'. unfold setitem. by destruct (heap s !! a). Qed.

Lemma no_exit_py_hash v : no_exit (lift (py_hash v)).
Proof. destruct v; simpl; (apply no_exit_ret || by apply no_exit_raise). Qed.

Lemma no_exit_alloc_all ts : no_exit (alloc_all ts).
Proof. intros s code s'. by rewrite alloc_all_run. Qed.

Lemma no_exit_alloc_doc d : no_exit (alloc_doc d).
Proof. intros s code s'. by rewrite alloc_doc_eq. Qed.

Lemma no_exit_for_each {A} (l : list A) (body : A → M unit) :
  (∀ x, no_exit (body x)) → no_exit (for_each l body).
Proof.
  intros Hbody. induction l as [|x l IH]; simpl; [apply no_exit_ret|].
  apply no_exit_bind; [apply Hbody|]. by intros [].
Qed.

Lemma no_exit_when (b : bool) (m : M unit) : no_exit m → no_exit (when b m).
Proof. destruct b; [done|]. intros _. apply no_exit_ret. Qed.

Lemma no_exit_devteam_row row : no_exit (devteam_row row).
Proof.
  destruct row as [|r0 alts]; [by apply no_exit_raise|].
  apply no_exit_bind; [apply no_exit_get_self|]. intros c.
  apply no_exit_bind; [apply no_exit_modify_self|]. intros [].
  apply no_exit_bind; [apply no_exit_get|]. intros flag.
  apply no_exit_when, no_exit_bind; [apply no_exit_get_janitors|].
  intros j. apply no_exit_modify_self.
Qed.

Lemma no_exit_player_title_row row : no_exit (player_title_row row).
Proof.
  destruct row as [|r0 alts]; [by apply no_exit_raise|].
  apply no_exit_bind; [apply no_exit_get_player_titles|].
  intros t. apply no_exit_modify_self.
Qed.

Lemma no_exit_add_param cmd tok : no_exit (add_param cmd tok).
Proof.
  unfold add_param. destruct (field_name tok) as [[|c n]|];
    try apply no_exit_ret.
  apply no_exit_bind; [apply no_exit_getitem|]. intros p.
  destruct p; (by apply no_exit_raise) || apply no_exit_setitem.
Qed.

Lemma load_exit_message_ok fmt args :
  fmt ∈ load_exit_messages → load_exit_record (LogRecord ERROR fmt args).
Proof. by split. Qed.

Lemma load_player_titles_exits fs :
  exits_logged load_exit_record (load_player_titles fs).
Proof.
  unfold load_player_titles.
  apply exits_bind; [apply exits_no_exit, no_exit_get|]. intros title_names.
  apply exits_bind; [apply exits_no_exit, no_exit_get|]. intros title_file.
  destruct (negb _); [apply exits_ret|].
  destruct (open_file fs _).
  - apply exits_log_exit, load_exit_message_ok.
    unfold load_exit_messages. set_solver.
  - apply exits_no_exit, no_exit_bind; [apply no_exit_modify_self|].
    intros []. apply no_exit_for_each, no_exit_player_title_row.
Qed.

Lemma load_janitor_command_exits cmd :
  exits_logged load_exit_record (load_janitor_command cmd).
Proof.
  unfold load_janitor_command.
  apply exits_bind.
  { apply exits_for_each. intros field.
    apply exits_bind; [apply exits_no_exit, no_exit_deref|]. intros t.
    apply exits_when, exits_log_exit, load_exit_message_ok.
    unfold load_exit_messages. set_solver. }
  intros []. apply exits_no_exit.
  apply no_exit_bind; [apply no_exit_setitem|]. intros [].
  apply no_exit_bind; [apply no_exit_getitem|]. intros argument.
  apply no_exit_bind.
  { destruct argument; try by apply no_exit_raise.
    destruct (formatter_parse s) as [tokens err] eqn:Hparse.
    apply no_exit_bind; [apply no_exit_for_each, no_exit_add_param|].
    intros []. destruct err as [e|]; [|apply no_exit_ret].
    apply no_exit_raise. intros code ->.
    assert ((formatter_parse s).2 = Some (SystemExit code)) as Herr
      by by rewrite Hparse.
    by apply markup_error in Herr. }
  intros []. apply no_exit_bind; [apply no_exit_getitem|]. intros id.
  apply no_exit_bind; [apply no_exit_py_hash|]. intros k.
  apply no_exit_bind; [apply no_exit_get_self|]. intros c.
  apply no_exit_modify_self.
Qed.

Lemma load_exits fs : exits_logged load_exit_record (load fs).
Proof.
  unfold load.
  apply exits_bind; [apply exits_no_exit, no_exit_modify_self|]. intros [].
  apply exits_bind; [apply exits_no_exit, no_exit_get_self|]. intros c.
  apply exits_bind.
  { destruct (open_file fs (path c)).
    - apply exits_log_exit, load_exit_message_ok.
      unfold load_exit_messages. set_solver.
    - destruct (toml_load fs (VStr (path c))) as [d|].
      + apply exits_no_exit, no_exit_bind; [apply no_exit_alloc_doc|].
        intros d'. apply no_exit_modify_self.
      + apply exits_log_exit, load_exit_message_ok.
        unfold load_exit_messages. set_solver. }
  intros []. apply exits_bind; [apply exits_no_exit, no_exit_get|].
  intros server_admins. apply exits_bind.
  { apply exits_no_exit, no_exit_when, no_exit_modify_self. }
  intros []. apply exits_bind; [apply exits_no_exit, no_exit_get|].
  intros server_janitors. apply exits_bind.
  { apply exits_no_exit, no_exit_when, no_exit_modify_self. }
  intros []. apply exits_bind; [apply exits_no_exit, no_exit_get_janitors|].
  intros j. apply exits_bind; [apply exits_no_exit, no_exit_get_admins|].
  intros a. apply exits_bind; [apply exits_no_exit, no_exit_modify_self|].
  intros []. apply exits_bind; [apply exits_no_exit, no_exit_get|].
  intros devteam_file. apply exits_bind.
  { apply exits_when. destruct (open_file fs _).
    - apply exits_log_exit, load_exit_message_ok.
      unfold load_exit_messages. set_solver.
    - apply exits_no_exit, no_exit_for_each, no_exit_devteam_row. }
  intros []. apply exits_bind; [apply load_player_titles_exits|].
  intros []. unfold load_janitor_commands.
  apply exits_bind; [apply exits_no_exit, no_exit_modify_self|]. intros [].
  apply exits_bind; [apply exits_no_exit, no_exit_get|]. intros cmds.
  destruct (negb _); [apply exits_ret|].
  apply exits_for_each, load_janitor_command_exits.
Qed.

(** X1: [load] ends the process only with exit status 1, and then the
    last log record is an ERROR record with one of five messages: the
    config file, the devteam file or the title file could not be opened,
    the config file could not be parsed, or a janitor command lacks a
    required field. *)
Theorem load_exits_after_error (fs : FileSystem) (s s' : state) (code : Z) :
  load fs s = (Raise (SystemExit code), s') →
  code = 1%Z ∧
  ∃ fmt args, last (log s') = Some (LogRecord ERROR fmt args) ∧
              fmt ∈ load_exit_messages.
Proof.
  intros Hrun. destruct (load_exits fs s code s' Hrun) as [-> (r & Hr & Hok)].
  split; [done|]. destruct r as [l fmt args], Hok as [Hl Hf].
  simpl in Hl, Hf. subst l. by exists fmt, args.
Qed.

Lemma load_exits_after_error_witness :
  ∃ s', load fs_nothing (init_state "config.toml")
        = (Raise (SystemExit 1), s') ∧
    ∃ fmt args, last (log s') = Some (LogRecord ERROR fmt args) ∧
                fmt ∈ load_exit_messages.
Proof.
  eexists. split; [vm_compute; reflexivity|].
  eapply (load_exits_after_error fs_nothing (init_state "config.toml")).
  vm_compute. reflexivity.
Defined.

Lemma _load_game_map_exits fs game :
  exits_logged load_games_exit_record (_load_game_map fs game).
Proof.
  unfold _load_game_map.
  apply exits_bind; [apply exits_no_exit, no_exit_deref|]. intros t.
  destruct (negb _); [apply exits_ret|].
  destruct (negb _).
  { apply exits_no_exit, no_exit_bind; [apply no_exit_getitem|].
    intros id. apply no_exit_logging. }
  apply exits_bind; [apply exits_no_exit, no_exit_getitem|]. intros map_path.
  destruct (toml_load fs map_path) as [d|].
  - destruct (Doc.maps d); [apply exits_no_exit, no_exit_setitem|].
    apply exits_log_exit.
    unfold load_games_exit_record, load_games_exit_messages. set_solver.
  - apply exits_log_exit.
    unfold load_games_exit_record, load_games_exit_messages. set_solver.
Qed.

Lemma _load_game_data_exits fs game :
  exits_logged load_games_exit_record (_load_game_data fs game).
Proof.
  unfold _load_game_data.
  apply exits_bind; [apply exits_no_exit, no_exit_getitem|]. intros id.
  apply exits_bind; [apply exits_no_exit, no_exit_py_hash|]. intros k.
  apply exits_bind; [apply exits_no_exit, no_exit_get_self|]. intros c.
  destruct (dict_mem k (games c)); [by apply exits_no_exit, no_exit_raise|].
  apply exits_bind; [apply _load_game_map_exits|]. intros [].
  apply exits_no_exit, no_exit_bind; [apply no_exit_get_self|]. intros c'.
  apply no_exit_bind; [apply no_exit_modify_self|]. intros [].
  apply no_exit_logging.
Qed.

Lemma no_exit_data_games_append game : no_exit (data_games_append game).
Proof.
  apply no_exit_bind; [apply no_exit_get_self|]. intros c.
  destruct (data c) as [d|]; [|by apply no_exit_raise].
  destruct (Doc.games d); [apply no_exit_modify_self|by apply no_exit_raise].
Qed.

Lemma load_fragment_file_exits fs f :
  exits_logged load_games_exit_record (load_fragment_file fs f).
Proof.
  unfold load_fragment_file.
  apply exits_bind; [apply exits_no_exit, no_exit_logging|]. intros [].
  destruct (negb _); [apply exits_no_exit, no_exit_logging|].
  apply exits_bind; [apply exits_no_exit, no_exit_logging|]. intros [].
  destruct (open_file fs f).
  { apply exits_log_exit.
    unfold load_games_exit_record, load_games_exit_messages. set_solver. }
  destruct (toml_load fs (VStr f)) as [d|].
  - destruct (Doc.games d) as [gs|]; [|apply exits_no_exit, no_exit_logging].
    apply exits_bind; [apply exits_no_exit, no_exit_alloc_all|]. intros gs'.
    apply exits_for_each. intros g. apply exits_try_except.
    + apply exits_bind; [apply _load_game_data_exits|]. intros [].
      apply exits_no_exit, no_exit_data_games_append.
    + apply exits_no_exit, no_exit_bind; [apply no_exit_getitem|].
      intros id. apply no_exit_logging.
  - apply exits_log_exit.
    unfold load_games_exit_record, load_games_exit_messages. set_solver.
Qed.

Lemma load_games_exits fs :
  exits_logged load_games_exit_record (load_games fs).
Proof.
  unfold load_games.
  apply exits_bind; [apply exits_no_exit, no_exit_modify_self|]. intros [].
  apply exits_bind; [apply exits_no_exit, no_exit_get|]. intros gs.
  apply exits_bind.
  - destruct (nonempty_list gs).
    + apply exits_for_each. intros g. apply exits_try_except.
      * apply _load_game_data_exits.
      * apply exits_no_exit, no_exit_bind; [apply no_exit_getitem|].
        intros id. apply no_exit_bind; [apply no_exit_get_self|].
        intros c. apply no_exit_logging.
    + apply exits_no_exit, no_exit_bind; [apply no_exit_get_self|].
      intros c. destruct (data c);
        [apply no_exit_modify_self|by apply no_exit_raise].
  - intros []. unfold _load_game_conf_dir.
    apply exits_bind; [apply exits_no_exit, no_exit_get|]. intros conf_dir.
    destruct (negb _); [apply exits_ret|].
    destruct (negb _); [apply exits_no_exit, no_exit_logging|].
    apply exits_for_each, load_fragment_file_exits.
Qed.

(** X2: [load_games] ends the process only with exit status 1, and then
    the last log record tells why: a map file did not load or has no
    [maps] section, or a fragment file could not be parsed (ERROR), or a
    fragment file could not be opened (WARNING).  A duplicate or a
    fragment file without games never ends the process. *)
Theorem load_games_exits_after_record (fs : FileSystem) (s s' : state)
    (code : Z) :
  load_games fs s = (Raise (SystemExit code), s') →
  code = 1%Z ∧
  ∃ l fmt args, last (log s') = Some (LogRecord l fmt args) ∧
                (l, fmt) ∈ load_games_exit_messages.
Proof.
  intros Hrun.
  destruct (load_games_exits fs s code s' Hrun) as [-> (r & Hr & Hok)].
  split; [done|]. destruct r as [l fmt args]. by exists l, fmt, args.
Qed.

Lemma load_games_exits_after_record_witness :
  ∃ s', load_games fs_no_maps_section (loaded fs_no_maps_section "config.toml")
        = (Raise (SystemExit 1), s') ∧
    last (log s')
    = Some (LogRecord ERROR "maps section missing from game map file {0}"
                      [VStr "maps.toml"]) ∧
    ∃ l fmt args, last (log s') = Some (LogRecord l fmt args) ∧
                  (l, fmt) ∈ load_games_exit_messages.
Proof.
  eexists. split; [vm_compute; reflexivity|].
  split; [vm_compute; reflexivity|].
  eapply (load_games_exits_after_record fs_no_maps_section
            (loaded fs_no_maps_section "config.toml")).
  vm_compute. reflexivity.
Defined.

(** ** The state after [load] *)

Lemma first_blank_row (rows : list (list string)) :
  Forall (λ row, row ≠ []) rows ∨
  ∃ pre post, rows = pre ++ [] :: post ∧ Forall (λ row, row ≠ []) pre.
Proof.
  induction rows as [|row rows IH]; [by left|].
  destruct row as [|r0 alts].
  - right. by exists [], rows.
  - destruct IH as [IH|(pre & post & -> & Hpre)].
    + left. by constructor.
    + right. exists ((r0 :: alts) :: pre), post. split; [done|].
      by constructor.
Qed.

Lemma devteam_rows_blank pre post s d j :
  data (self s) = Some d → janitors (self s) = Some j →
  Forall (λ row, row ≠ []) pre →
  (for_each (pre ++ [] :: post) devteam_row s).1 = Raise IndexError.
Proof.
  intros Hd Hj Hpre.
  by erewrite for_each_raise; [|by apply devteam_rows_ok|reflexivity].
Qed.

Lemma janitors_of_nil {O} (d : Doc.t O) : janitors_of d [] = janitor_set d.
Proof.
  unfold janitors_of. destruct (is_true _); [|done].
  simpl. by rewrite union_empty_r_L.
Qed.

(** [load] up to the devteam file. *)
Lemma load_prefix (fs : FileSystem) (s : state) (d : Doc.t table)
    (lines0 : list string) :
  open_file fs (path (self s)) = inr lines0 →
  toml_load fs (VStr (path (self s))) = Some d →
  nonempty_list (Doc.server_admins d) = true →
  nonempty_list (Doc.server_janitors d) = true →
  load fs s =
  (when (nonempty_str (Doc.devteam_file d))
     (match open_file fs (default EmptyString (Doc.devteam_file d)) with
      | inl strerror =>
          logging ERROR "Could not open devteam file {0} ({1})"
                  [VStr (default EmptyString (Doc.devteam_file d));
                   VStr strerror] >>
          sys_exit 1
      | inr lines => for_each (csv_reader lines) devteam_row
      end) >>
   load_player_titles fs >> load_janitor_commands)
    (state_after_rows s d []).
Proof.
  intros Hopen Htoml Ha Hj.
  unfold load, get, get_janitors, get_admins, get_self, when, modify_self,
    ret, bind. simpl.
  rewrite Hopen, Htoml, alloc_doc_eq. simpl. rewrite Ha. simpl.
  rewrite Hj. simpl.
  unfold state_after_rows. rewrite janitors_of_nil.
  reflexivity.
Qed.

(** When [load] returns, the devteam rows were all read and the rest of
    the load ran from [state_after_rows]. *)
Lemma load_ok_inv (fs : FileSystem) (s s' : state) (d : Doc.t table) :
  toml_load fs (VStr (path (self s))) = Some d →
  nonempty_list (Doc.server_admins d) = true →
  nonempty_list (Doc.server_janitors d) = true →
  load fs s = (Ok (), s') →
  Forall (λ row, row ≠ []) (devteam_rows fs d) ∧
  (load_player_titles fs >> load_janitor_commands)
    (state_after_rows s d (devteam_rows fs d)) = (Ok (), s').
Proof.
  intros Htoml Ha Hj Hrun.
  destruct (open_file fs (path (self s))) as [e|lines0] eqn:Hopen.
  { revert Hrun. unfold load, get_self, modify_self, logging, sys_exit,
      raise, bind. simpl. by rewrite Hopen. }
  rewrite (load_prefix fs s d lines0) in Hrun by done.
  unfold devteam_rows.
  destruct (Doc.devteam_file d) as [[|c file]|] eqn:Hfile;
    try (split; [constructor|exact Hrun]).
  revert Hrun. unfold when, nonempty_str, default.
  change (id (String c file)) with (String c file).
  destruct (open_file fs (String c file)) as [e|lines]; [done|].
  destruct (first_blank_row (csv_reader lines))
    as [Hrows|(pre & post & Hsplit & Hpre)].
  - intros Hrun. split; [done|]. revert Hrun. unfold bind at 1.
    rewrite (devteam_rows_ok _ _ (doc_at (length (heap s)) d) (janitor_set d))
      by (done || by rewrite <- janitors_of_nil).
    intros Hrun. rewrite <- Hrun. f_equal.
  - unfold bind at 1. rewrite Hsplit.
    pose proof (devteam_rows_blank pre post (state_after_rows s d [])
                  (doc_at (length (heap s)) d) (janitor_set d)) as Hblank.
    destruct (for_each (pre ++ [] :: post) devteam_row
                (state_after_rows s d [])) as [[u|e] s1]; [|done].
    simpl in Hblank. discriminate Hblank; [done| |done].
    simpl. by rewrite janitors_of_nil.
Qed.

Lemma bind_ok_inv {A B} (m : M A) (k : A → M B) s b s' :
  bind m k s = (Ok b, s') → ∃ a s1, m s = (Ok a, s1) ∧ k a s1 = (Ok b, s').
Proof.
  unfold bind. destruct (m s) as [[a|e] s1]; [|done]. by exists a, s1.
Qed.

(** The [Conf] object when [load] has returned. *)
Lemma load_ok_conf (fs : FileSystem) (s s' : state) (d : Doc.t table) :
  toml_load fs (VStr (path (self s))) = Some d →
  nonempty_list (Doc.server_admins d) = true →
  nonempty_list (Doc.server_janitors d) = true →
  load fs s = (Ok (), s') →
  Forall (λ row, row ≠ []) (devteam_rows fs d) ∧
  path (self s') = path (self s) ∧
  data (self s') = Some (doc_at (length (heap s)) d) ∧
  devteam (self s') = roster id (devteam_rows fs d) ∧
  admins (self s') = Some (admin_set d) ∧
  janitors (self s') = Some (janitors_of d (devteam_rows fs d)) ∧
  games (self s') = games (self s).
Proof.
  intros Htoml Ha Hj Hrun.
  destruct (load_ok_inv fs s s' d Htoml Ha Hj Hrun) as [Hrows Hrest].
  split; [done|].
  apply bind_ok_inv in Hrest as ([] & s1 & Htitles & Hcmds).
  apply load_player_titles_same_but_titles in Htitles
    as (Hp1 & Hd1 & Hdev1 & Ha1 & Hj1 & _ & Hg1).
  apply load_janitor_commands_same_but_commands in Hcmds
    as (Hp2 & Hd2 & Hdev2 & Ha2 & Hj2 & _ & Hg2).
  rewrite Hp2, Hd2, Hdev2, Ha2, Hj2, Hg2, Hp1, Hd1, Hdev1, Ha1, Hj1, Hg1.
  done.
Qed.

Lemma elem_of_lower_set (u : string) (l : list string) :
  lower u ∈ (list_to_set (lower <$> l) : gset string) ↔
  ∃ a, a ∈ l ∧ lower a = lower u.
Proof.
  rewrite elem_of_list_to_set, list_elem_of_fmap. split.
  - intros (a & Heq & Ha). by exists a.
  - intros (a & Ha & Heq). by exists a.
Qed.

Lemma elem_of_concat {A} (x : A) (ls : list (list A)) :
  x ∈ concat ls ↔ ∃ l, l ∈ ls ∧ x ∈ l.
Proof.
  induction ls as [|l ls IH]; simpl.
  - split; [by intros ?%elem_of_nil|]. by intros (l & ?%elem_of_nil & _).
  - rewrite elem_of_app, IH. split.
    + intros [Hx|(l' & Hl' & Hx)].
      * exists l. split; [apply list_elem_of_here|done].
      * exists l'. split; [by apply list_elem_of_further|done].
    + intros (l' & [->|Hl']%elem_of_cons & Hx); [by left|].
      right. by exists l'.
Qed.

Lemma is_server_admin_run (u : string) (s : state) (a : gset string) :
  admins (self s) = Some a →
  is_server_admin u s = (Ok (bool_decide (lower u ∈ a)), s).
Proof.
  intros Ha. unfold is_server_admin, get_admins, get_self, ret, bind.
  rewrite Ha. f_equal. f_equal.
  destruct (bool_decide (lower u ∈ a)) eqn:Hin; [|by rewrite andb_false_r].
  rewrite andb_true_r. apply negb_true_iff, bool_decide_eq_false.
  intros ->. by apply bool_decide_eq_true in Hin.
Qed.

Lemma is_server_janitor_run (u : string) (s : state) (j : gset string) :
  janitors (self s) = Some j →
  is_server_janitor u s = (Ok (bool_decide (lower u ∈ j)), s).
Proof.
  intros Hj. unfold is_server_janitor, get_janitors, get_self, ret, bind.
  rewrite Hj. f_equal. f_equal.
  destruct (bool_decide (lower u ∈ j)) eqn:Hin; [|by rewrite andb_false_r].
  rewrite andb_true_r. apply negb_true_iff, bool_decide_eq_false.
  intros ->. by apply bool_decide_eq_true in Hin.
Qed.

(** X6: after [load] of a document with server admins and server
    janitors, from a new or a loaded object: a user is a server admin
    exactly when the lowercased username is the lowercased form of a
    configured admin; a user is a server janitor exactly when it is that
    of a configured admin or janitor or, with [devs_are_server_janitors],
    when the lowercased username is a token of the developer roster as
    the file spells it. *)
Theorem identity_lookups_after_load (fs : FileSystem) (s s' : state)
    (d : Doc.t table) (username : string) :
  toml_load fs (VStr (path (self s))) = Some d →
  nonempty_list (Doc.server_admins d) = true →
  nonempty_list (Doc.server_janitors d) = true →
  load fs s = (Ok (), s') →
  (∃ b, is_server_admin username s' = (Ok b, s') ∧
        (b = true ↔
         ∃ a, a ∈ default [] (Doc.server_admins d) ∧
              lower a = lower username)) ∧
  (∃ b, is_server_janitor username s' = (Ok b, s') ∧
        (b = true ↔
         (∃ a, a ∈ default [] (Doc.server_janitors d)
                   ++ default [] (Doc.server_admins d) ∧
               lower a = lower username) ∨
         (is_true (Doc.devs_are_server_janitors d) = true ∧
          ∃ row, row ∈ devteam_rows fs d ∧ lower username ∈ row))).
Proof.
  intros Htoml Ha Hj Hrun.
  destruct (load_ok_conf fs s s' d Htoml Ha Hj Hrun)
    as (_ & _ & _ & _ & Hadm & Hjan & _).
  split.
  - eexists. split; [by apply is_server_admin_run|].
    rewrite bool_decide_eq_true. apply elem_of_lower_set.
  - eexists. split; [by apply is_server_janitor_run|].
    rewrite bool_decide_eq_true. unfold janitors_of, janitor_set, admin_set.
    assert (lower username ∈
              (list_to_set (lower <$> default [] (Doc.server_janitors d))
               ∪ list_to_set (lower <$> default [] (Doc.server_admins d))
               : gset string) ↔
            ∃ a, a ∈ default [] (Doc.server_janitors d)
                     ++ default [] (Doc.server_admins d) ∧
                 lower a = lower username) as Hset.
    { rewrite elem_of_union, !elem_of_lower_set. split.
      - intros [(a & Hin & Heq)|(a & Hin & Heq)]; exists a;
          (split; [apply elem_of_app; by (left + right)|done]).
      - intros (a & [Hin|Hin]%elem_of_app & Heq); [left|right]; by exists a. }
    destruct (is_true (Doc.devs_are_server_janitors d)).
    + rewrite elem_of_union, Hset, elem_of_list_to_set, elem_of_concat. split.
      * intros [H|H]; [by left|by right].
      * intros [H|[_ H]]; [by left|by right].
    + rewrite Hset. split; [by left|]. by intros [H|[? _]].
Qed.

(** ** Rosters *)

Lemma add_row_other key t row k :
  row_key key row ≠ Some k →
  dict_get (KStr k) (add_row key t row) = dict_get (KStr k) t.
Proof.
  destruct row as [|r0 alts]; [done|]. simpl. intros Hne.
  apply dict_get_set_ne. intros [= E]. apply Hne.
  unfold row_key. simpl. by rewrite E.
Qed.

Lemma add_rows_other key t rows k :
  Forall (λ row, row_key key row ≠ Some k) rows →
  dict_get (KStr k) (foldl (add_row key) t rows) = dict_get (KStr k) t.
Proof.
  intros Hrows. revert t. induction Hrows as [|row rows Hrow _ IH]; intros t.
  - done.
  - simpl. by rewrite IH, add_row_other.
Qed.

(** The last row of a key decides its entry. *)
Lemma roster_last_row key pre r0 alts post :
  Forall (λ row, row_key key row ≠ Some (key r0)) post →
  dict_get (KStr (key r0)) (roster key (pre ++ (r0 :: alts) :: post))
  = Some (lower <$> alts).
Proof.
  intros Hpost. unfold roster. rewrite foldl_app. simpl.
  rewrite add_rows_other by done. apply dict_get_set_eq.
Qed.

Lemma dict_set_keys {V} (P : hkey → Prop) (k : hkey) (v : V) (d : pydict V) :
  P k → Forall (λ kv, P kv.1) d → Forall (λ kv, P kv.1) (dict_set k v d).
Proof.
  intros Hk Hd. induction Hd as [|[k' v'] d Hkv Hd IH]; simpl.
  - by repeat constructor.
  - destruct (decide (k = k')); constructor; done.
Qed.

Lemma roster_keys key rows :
  Forall (λ kv, ∃ r, kv.1 = KStr (key r)) (roster key rows).
Proof.
  unfold roster.
  assert (∀ t, Forall (λ kv : hkey * list string, ∃ r, kv.1 = KStr (key r)) t →
            Forall (λ kv, ∃ r, kv.1 = KStr (key r))
                   (foldl (add_row key) t rows)) as H; [|by apply H].
  induction rows as [|row rows IH]; intros t Ht; [done|].
  simpl. apply IH. destruct row as [|r0 alts]; [done|]. simpl.
  apply (dict_set_keys (λ k, ∃ r, k = KStr (key r))); [by exists r0|done].
Qed.

Lemma dict_set_elem {V} (k k' : hkey) (v v' : V) (d : pydict V) :
  (k', v') ∈ dict_set k v d → (k', v') ∈ d ∨ (k' = k ∧ v' = v).
Proof.
  induction d as [|[k0 v0] d IH]; simpl.
  - intros [= -> ->]%list_elem_of_singleton. by right.
  - destruct (decide (k = k0)) as [->|Hne].
    + intros [[= -> ->]|Hin]%elem_of_cons; [by right|].
      left. by apply list_elem_of_further.
    + intros [[= -> ->]|Hin]%elem_of_cons; [left; apply list_elem_of_here|].
      destruct (IH Hin) as [?|?]; [left; by apply list_elem_of_further|by right].
Qed.

(** Every entry of a roster holds lowercased alternates. *)
Lemma roster_alts key rows :
  Forall (λ kv : hkey * list string, ∃ alts, kv.2 = lower <$> alts)
         (roster key rows).
Proof.
  unfold roster.
  assert (∀ t, Forall (λ kv : hkey * list string,
                         ∃ alts, kv.2 = lower <$> alts) t →
            Forall (λ kv : hkey * list string, ∃ alts, kv.2 = lower <$> alts)
                   (foldl (add_row key) t rows)) as H; [|by apply H].
  induction rows as [|row rows IH]; intros t Ht; [done|].
  simpl. apply IH. destruct row as [|r0 alts]; [done|]. simpl.
  apply Forall_forall. intros [k' v'] Hin.
  apply dict_set_elem in Hin as [Hin|[_ ->]].
  - by apply (proj1 (Forall_forall _ _) Ht (k', v')).
  - by exists alts.
Qed.

Lemma lower_ascii_idemp (c : ascii) : lower_ascii (lower_ascii c) = lower_ascii c.
Proof. by destruct c as [[] [] [] [] [] [] [] []]. Qed.

Lemma lower_idemp (s : string) : lower (lower s) = lower s.
Proof.
  induction s as [|c s IH]; [done|]. simpl. by rewrite lower_ascii_idemp, IH.
Qed.

(** ** The title roster *)

Lemma load_player_titles_unconfigured fs s d :
  data (self s) = Some d → titles_configured d = false →
  load_player_titles fs s = (Ok (), s).
Proof.
  intros Hd Hconf.
  unfold load_player_titles, get, get_self, ret, bind.
  rewrite Hd. cbv beta iota. rewrite Hd. cbv beta iota.
  unfold titles_configured in Hconf. by rewrite Hconf.
Qed.

Lemma load_player_titles_configured fs s d :
  data (self s) = Some d → titles_configured d = true →
  load_player_titles fs s =
  match open_file fs (default EmptyString (Doc.player_title_file d)) with
  | inl strerror =>
      (Raise (SystemExit 1),
       {| self := self s; heap := heap s;
          log := log s ++
            [LogRecord ERROR "Could not open player title file {0} ({1})"
               [VStr (default EmptyString (Doc.player_title_file d));
                VStr strerror]] |})
  | inr lines =>
      for_each (csv_reader lines) player_title_row
        {| self := set_player_titles [] (self s);
           heap := heap s; log := log s |}
  end.
Proof.
  intros Hd Hconf.
  unfold load_player_titles, get, get_self, ret, bind.
  rewrite Hd. cbv beta iota. rewrite Hd. cbv beta iota.
  unfold titles_configured in Hconf. rewrite Hconf. cbv beta iota. simpl.
  by destruct (open_file fs _).
Qed.

(** The state when [load_player_titles] has returned. *)
Lemma load_player_titles_ok_inv fs s s' d :
  data (self s) = Some d →
  load_player_titles fs s = (Ok (), s') →
  if titles_configured d then
    (∃ lines, open_file fs (default EmptyString (Doc.player_title_file d))
              = inr lines) ∧
    Forall (λ row, row ≠ []) (title_rows fs d) ∧
    s' = {| self := set_player_titles (roster lower (title_rows fs d)) (self s);
            heap := heap s; log := log s |}
  else s' = s.
Proof.
  intros Hd. destruct (titles_configured d) eqn:Hconf.
  - rewrite (load_player_titles_configured fs s d) by done.
    unfold title_rows.
    destruct (open_file fs _) as [e|lines]; [done|].
    destruct (first_blank_row (csv_reader lines))
      as [Hrows|(pre & post & Hsplit & Hpre)].
    + rewrite (player_title_rows_ok _ _ []) by done.
      intros [= <-]. split; [by exists lines|]. split; [done|].
      by destruct s.
    + rewrite Hsplit.
      erewrite for_each_raise;
        [done|by apply (player_title_rows_ok _ _ [])|done].
  - rewrite (load_player_titles_unconfigured fs s d) by done. by intros [= <-].
Qed.

(** X7: in the title roster the last row of a title decides its members:
    of the rows whose first tokens are the same in lower case, the
    members of the last one replace those of the earlier ones (they are
    not merged). *)
Theorem title_roster_last_row_wins (fs : FileSystem) (s s' : state)
    (d : Doc.t loc) (pre : list (list string)) (r0 : string)
    (alts : list string) (post : list (list string)) :
  data (self s) = Some d →
  titles_configured d = true →
  load_player_titles fs s = (Ok (), s') →
  title_rows fs d = pre ++ (r0 :: alts) :: post →
  Forall (λ row, lower <$> head row ≠ Some (lower r0)) post →
  ∃ pt, player_titles (self s') = Some pt ∧
        dict_get (KStr (lower r0)) pt = Some (lower <$> alts).
Proof.
  intros Hd Hconf Hrun Hrows Hpost.
  pose proof (load_player_titles_ok_inv fs s s' d Hd Hrun) as Hinv.
  rewrite Hconf in Hinv. destruct Hinv as (_ & _ & ->).
  eexists. split; [reflexivity|]. rewrite Hrows.
  apply roster_last_row. exact Hpost.
Qed.

(** X8: in the developer roster the last row of a primary name, as the
    file spells it, decides its alternates. *)
Theorem devteam_last_row_wins (fs : FileSystem) (s s' : state)
    (d : Doc.t table) (pre : list (list string)) (r0 : string)
    (alts : list string) (post : list (list string)) :
  toml_load fs (VStr (path (self s))) = Some d →
  nonempty_list (Doc.server_admins d) = true →
  nonempty_list (Doc.server_janitors d) = true →
  load fs s = (Ok (), s') →
  devteam_rows fs d = pre ++ (r0 :: alts) :: post →
  Forall (λ row, head row ≠ Some r0) post →
  dict_get (KStr r0) (devteam (self s')) = Some (lower <$> alts).
Proof.
  intros Htoml Ha Hj Hrun Hrows Hpost.
  destruct (load_ok_conf fs s s' d Htoml Ha Hj Hrun)
    as (_ & _ & _ & -> & _).
  rewrite Hrows. apply (roster_last_row id).
  eapply Forall_impl; [exact Hpost|]. intros row Hrow.
  unfold row_key. simpl in Hrow. destruct (head row) as [x|]; [|done].
  intros [= E]. apply Hrow. unfold id in E. by rewrite E.
Qed.

Lemma _get_player_title_loop_Some u pt names acc t :
  _get_player_title_loop u pt names acc = Some t →
  acc = Some t ∨ (t ∈ names ∧ holds_title pt u t = true).
Proof.
  revert acc. induction names as [|n names IH]; intros acc; [by left|].
  rewrite _get_player_title_loop_step. intros Hloop.
  destruct (IH _ Hloop) as [Hacc|[Hin Hholds]].
  - destruct (holds_title pt u n) eqn:Hn; [|by left].
    injection Hacc as ->. right. split; [apply list_elem_of_here|done].
  - right. split; [by apply list_elem_of_further|done].
Qed.

(** X9: a title [_get_player_title] returns is one of the configured
    [title_names] and is spelt in lower case, since the keys of the title
    roster are lowercased when the file is read and the configured names
    are looked up as they are: a configured name with a capital letter
    is never returned. *)
Theorem player_title_is_lowercase (fs : FileSystem) (s s' : state)
    (d : Doc.t loc) (username t : string) :
  data (self s) = Some d →
  titles_configured d = true →
  load_player_titles fs s = (Ok (), s') →
  (_get_player_title username s').1 = Ok (Some t) →
  t ∈ default [] (Doc.title_names d) ∧ lower t = t.
Proof.
  intros Hd Hconf Hrun.
  pose proof (load_player_titles_ok_inv fs s s' d Hd Hrun) as Hinv.
  rewrite Hconf in Hinv. destruct Hinv as (_ & _ & ->).
  unfold _get_player_title, get_player_titles, get, get_self, ret, bind.
  simpl.
  destruct (roster lower (title_rows fs d)) as [|e pt] eqn:Hpt; [done|].
  simpl. rewrite Hd.
  destruct (negb (nonempty_list (Doc.title_names d))); [done|]. simpl.
  intros [= Hloop].
  apply _get_player_title_loop_Some in Hloop as [?|[Hin Hholds]]; [done|].
  split; [done|]. unfold holds_title in Hholds.
  destruct (dict_get (KStr t) (e :: pt)) as [members|] eqn:Hget; [|done].
  apply dict_get_elem_of in Hget. rewrite <- Hpt in Hget.
  destruct (proj1 (Forall_forall _ _) (roster_keys lower (title_rows fs d))
              _ Hget) as (r & [= ->]).
  apply lower_idemp.
Qed.

(** ** Developer lookup *)

Lemma get_devname_loop_spec lname (items : pydict (list string)) s :
  Forall (λ kv, str_key kv.1) items →
  (∃ pre d alts post,
      items = pre ++ (KStr d, alts) :: post ∧
      Forall (λ kv, dev_matches lname kv = false) pre ∧
      dev_matches lname (KStr d, alts) = true ∧
      get_devname_loop lname items s = (Ok (Some d), s))
  ∨ (Forall (λ kv, dev_matches lname kv = false) items ∧
     get_devname_loop lname items s = (Ok None, s)).
Proof.
  intros Hkeys. induction Hkeys as [|[k alts] items [d Hk] _ IH].
  - right. by split.
  - simpl in Hk. subst k. simpl.
    destruct (String.eqb (lower d) lname || bool_decide (lname ∈ alts))
      eqn:Hm.
    + left. exists [], d, alts, items. by repeat split.
    + destruct IH as [(pre & d' & alts' & post & -> & Hpre & Hd' & Hrun)
                     |[Hall Hrun]].
      * left. exists ((KStr d, alts) :: pre), d', alts', post.
        repeat split; [|done|done]. by constructor.
      * right. split; [by constructor|done].
Qed.

Lemma dev_matches_iff lname d alts :
  dev_matches lname (KStr d, alts) = true ↔ lower d = lname ∨ lname ∈ alts.
Proof.
  unfold dev_matches. simpl.
  rewrite orb_true_iff, String.eqb_eq, bool_decide_eq_true. done.
Qed.

Lemma get_devname_run (iter : dict_order) (s : state) (username : string) :
  Forall (λ kv, str_key kv.1) (iter _ (devteam (self s))) →
  (∃ pre d alts post,
      iter _ (devteam (self s)) = pre ++ (KStr d, alts) :: post ∧
      Forall (λ kv, dev_matches (lower username) kv = false) pre ∧
      dev_matches (lower username) (KStr d, alts) = true ∧
      get_devname iter username s = (Ok (Some d), s))
  ∨ ((devteam (self s) = [] ∨
      Forall (λ kv, dev_matches (lower username) kv = false)
             (iter _ (devteam (self s)))) ∧
     get_devname iter username s = (Ok None, s)).
Proof.
  intros Hkeys. unfold get_devname, get_self, bind.
  destruct (devteam (self s)) as [|e l] eqn:Hdev.
  { right. split; [by left|done]. }
  destruct (get_devname_loop_spec (lower username) _ s Hkeys)
    as [(pre & d & alts & post & Hsplit & Hpre & Hd & Hrun)|[Hall Hrun]].
  - left. by exists pre, d, alts, post.
  - right. split; [by right|done].
Qed.

(** X10: [get_devname] returns the first roster entry, in the iteration
    order of the dict, whose primary name in lower case equals the
    lowercased username or whose alternates hold it; it returns [None]
    exactly when no entry does, and never changes the state. *)
Theorem get_devname_first_in_iteration_order (iter : dict_order)
    (s : state) (username : string) :
  (∀ d : pydict (list string), iter _ d ≡ₚ d) →
  Forall (λ kv, str_key kv.1) (devteam (self s)) →
  ∃ r, get_devname iter username s = (Ok r, s) ∧
    match r with
    | Some d =>
        ∃ pre alts post,
          iter _ (devteam (self s)) = pre ++ (KStr d, alts) :: post ∧
          Forall (λ kv, dev_matches (lower username) kv = false) pre ∧
          (KStr d, alts) ∈ devteam (self s) ∧
          (lower d = lower username ∨ lower username ∈ alts)
    | None =>
        Forall (λ kv, dev_matches (lower username) kv = false)
               (devteam (self s))
    end.
Proof.
  intros Hperm Hkeys.
  assert (Forall (λ kv, str_key kv.1) (iter _ (devteam (self s)))) as Hkeys'
    by by rewrite Hperm.
  destruct (get_devname_run iter s username Hkeys')
    as [(pre & d & alts & post & Hsplit & Hpre & Hd & Hrun)|[Hall Hrun]].
  - exists (Some d). split; [done|]. exists pre, alts, post.
    repeat split; [done|done| |by apply dev_matches_iff].
    rewrite <- (Hperm (devteam (self s))), Hsplit.
    apply elem_of_app. right. apply list_elem_of_here.
  - exists None. split; [done|]. destruct Hall as [->|Hall]; [done|].
    by rewrite <- (Hperm (devteam (self s))).
Qed.

Lemma get_devname_first_in_iteration_order_witness :
  ∃ r, get_devname insertion_order "AL" state_devteam
       = (Ok r, state_devteam) ∧
    match r with
    | Some d =>
        ∃ pre alts post,
          insertion_order _ (devteam (self state_devteam))
            = pre ++ (KStr d, alts) :: post ∧
          Forall (λ kv, dev_matches (lower "AL") kv = false) pre ∧
          (KStr d, alts) ∈ devteam (self state_devteam) ∧
          (lower d = lower "AL" ∨ lower "AL" ∈ alts)
    | None =>
        Forall (λ kv, dev_matches (lower "AL") kv = false)
               (devteam (self state_devteam))
    end.
Proof.
  apply (get_devname_first_in_iteration_order insertion_order state_devteam
           "AL").
  - done.
  - vm_compute. repeat constructor; by eexists.
Defined.

(** X11: after [load], every developer is found by the primary name and
    by each alternate of the last row of that primary name, whatever the
    letter case of the query: [get_devname] returns an entry of the roster
    that matches the lowercased query. *)
Theorem get_devname_any_letter_case (fs : FileSystem) (s s' : state)
    (d : Doc.t table) (iter : dict_order) (pre : list (list string))
    (r0 : string) (alts : list string) (post : list (list string))
    (tok username : string) :
  toml_load fs (VStr (path (self s))) = Some d →
  nonempty_list (Doc.server_admins d) = true →
  nonempty_list (Doc.server_janitors d) = true →
  load fs s = (Ok (), s') →
  (∀ d : pydict (list string), iter _ d ≡ₚ d) →
  devteam_rows fs d = pre ++ (r0 :: alts) :: post →
  Forall (λ row, head row ≠ Some r0) post →
  tok ∈ r0 :: alts →
  lower username = lower tok →
  ∃ dname members,
    get_devname iter username s' = (Ok (Some dname), s') ∧
    (KStr dname, members) ∈ devteam (self s') ∧
    (lower dname = lower username ∨ lower username ∈ members).
Proof.
  intros Htoml Ha Hj Hrun Hperm Hrows Hpost Htok Hlow.
  assert (dict_get (KStr r0) (devteam (self s')) = Some (lower <$> alts))
    as Hget.
  { destruct (load_ok_conf fs s s' d Htoml Ha Hj Hrun)
      as (_ & _ & _ & -> & _).
    rewrite Hrows. apply (roster_last_row id).
    eapply Forall_impl; [exact Hpost|]. intros row Hrow.
    unfold row_key. simpl in Hrow. destruct (head row) as [x|]; [|done].
    intros [= E]. apply Hrow. unfold id in E. by rewrite E. }
  assert (Forall (λ kv, str_key kv.1) (devteam (self s'))) as Hkeys.
  { destruct (load_ok_conf fs s s' d Htoml Ha Hj Hrun)
      as (_ & _ & _ & -> & _).
    eapply Forall_impl; [apply (roster_keys id)|].
    intros kv [r Hr]. by exists (id r). }
  assert (Forall (λ kv, str_key kv.1) (iter _ (devteam (self s')))) as Hkeys'
    by by rewrite Hperm.
  apply dict_get_elem_of in Hget.
  destruct (get_devname_run iter s' username Hkeys')
    as [(pre' & dname & members & post' & Hsplit & _ & Hm & Hrun')
       |[Hnone Hrun']].
  - exists dname, members. split; [done|]. split; [|by apply dev_matches_iff].
    rewrite <- (Hperm (devteam (self s'))), Hsplit.
    apply elem_of_app. right. apply list_elem_of_here.
  - assert (dev_matches (lower username) (KStr r0, lower <$> alts) = false)
      as Hno.
    { destruct Hnone as [Hnil|Hall].
      - rewrite Hnil in Hget. by apply elem_of_nil in Hget.
      - rewrite (Hperm (devteam (self s'))) in Hall.
        by apply (proj1 (Forall_forall _ _) Hall _ Hget). }
    apply not_true_iff_false in Hno. destruct Hno.
    apply dev_matches_iff. rewrite Hlow.
    apply elem_of_cons in Htok as [->|Htok]; [by left|right].
    apply list_elem_of_fmap. by exists tok.
Qed.

(** ** Classification without a title roster *)

Lemma get_devname_loop_pure lname items s :
  (get_devname_loop lname items s).2 = s.
Proof.
  induction items as [|[[d|n] alts] items IH]; simpl; [done| |done].
  by destruct (_ || _).
Qed.

Lemma get_devname_pure (iter : dict_order) (username : string) (s : state) :
  (get_devname iter username s).2 = s.
Proof.
  unfold get_devname, get_self, bind.
  destruct (devteam (self s)); [done|]. apply get_devname_loop_pure.
Qed.

(** When the document does not configure the title roster, [load] leaves
    the [player_titles] attribute as it was. *)
Lemma load_ok_titles_unconfigured (fs : FileSystem) (s s' : state)
    (d : Doc.t table) :
  toml_load fs (VStr (path (self s))) = Some d →
  nonempty_list (Doc.server_admins d) = true →
  nonempty_list (Doc.server_janitors d) = true →
  load fs s = (Ok (), s') →
  titles_configured d = false →
  player_titles (self s') = player_titles (self s).
Proof.
  intros Htoml Ha Hj Hrun Hconf.
  destruct (load_ok_inv fs s s' d Htoml Ha Hj Hrun) as [_ Hrest].
  apply bind_ok_inv in Hrest as ([] & s1 & Htitles & Hcmds).
  rewrite (load_player_titles_unconfigured fs _ (doc_at (length (heap s)) d))
    in Htitles by done.
  injection Htitles as <-.
  by apply load_janitor_commands_same_but_commands in Hcmds
    as (_ & _ & _ & _ & _ & -> & _).
Qed.

(** X12: on an object whose title roster was never loaded, after [load]
    of a document that does not configure it ([title_names] or
    [player_title_file] absent or empty), [get_nerd] classifies admins and
    developers, and for every other user it raises [AttributeError]: the
    attribute [player_titles] does not exist. *)
Theorem get_nerd_without_title_roster (fs : FileSystem) (s s' : state)
    (d : Doc.t table) (iter : dict_order) (username : string) :
  toml_load fs (VStr (path (self s))) = Some d →
  nonempty_list (Doc.server_admins d) = true →
  nonempty_list (Doc.server_janitors d) = true →
  load fs s = (Ok (), s') →
  player_titles (self s) = None →
  titles_configured d = false →
  ((is_server_admin username s').1 = Ok true →
   get_nerd iter username s' = (Ok (Nerd "admins" None), s')) ∧
  (∀ c n, (is_server_admin username s').1 = Ok false →
     (get_devname iter username s').1 = Ok (Some (String c n)) →
     get_nerd iter username s'
     = (Ok (Nerd "devteam" (Some (String c n))), s')) ∧
  ((is_server_admin username s').1 = Ok false →
   (get_devname iter username s').1 = Ok None →
   get_nerd iter username s' = (Raise (AttributeError "player_titles"), s')).
Proof.
  intros Htoml Ha Hj Hrun Hnone Hconf.
  destruct (load_ok_conf fs s s' d Htoml Ha Hj Hrun)
    as (_ & _ & Hdata & _ & Hadm & _).
  pose proof (load_ok_titles_unconfigured fs s s' d Htoml Ha Hj Hrun Hconf)
    as Htitles. rewrite Hnone in Htitles.
  rewrite (is_server_admin_run username s' _ Hadm). cbn [fst].
  pose proof (get_devname_pure iter username s') as Hpure.
  split; [|split].
  - intros [= Hb]. unfold get_nerd. unfold bind at 1.
    by rewrite (is_server_admin_run username s' _ Hadm), Hb.
  - intros c n [= Hb] Hdev. unfold get_nerd. unfold bind at 1.
    rewrite (is_server_admin_run username s' _ Hadm), Hb. unfold bind.
    destruct (get_devname iter username s') as [r s1].
    simpl in Hpure, Hdev. subst. reflexivity.
  - intros [= Hb] Hdev. unfold get_nerd. unfold bind at 1.
    rewrite (is_server_admin_run username s' _ Hadm), Hb. unfold bind at 1.
    destruct (get_devname iter username s') as [r s1].
    simpl in Hpure, Hdev. subst.
    unfold _get_player_title, get_player_titles, getattr_missing, get_self,
      raise, bind.
    by rewrite Htitles, Hdata.
Qed.

Lemma get_nerd_without_title_roster_witness :
  get_nerd insertion_order "carol" (loaded fs_devteam "config.toml")
  = (Raise (AttributeError "player_titles"), loaded fs_devteam "config.toml").
Proof.
  assert (load fs_devteam (init_state "config.toml")
          = (Ok (), loaded fs_devteam "config.toml")) as Hrun
    by (vm_compute; reflexivity).
  destruct (get_nerd_without_title_roster fs_devteam
              (init_state "config.toml") (loaded fs_devteam "config.toml")
              config_with_devteam insertion_order "carol"
              eq_refl eq_refl eq_refl Hrun eq_refl eq_refl)
    as (_ & _ & Hother).
  apply Hother; vm_compute; reflexivity.
Defined.

(** ** Janitor commands by id *)

Lemma last_filter_cons {A} (P : A → Prop) `{!∀ x, Decision (P x)}
    (x : A) (l : list A) :
  last (filter P (x :: l)) =
  match last (filter P l) with
  | Some y => Some y
  | None => if decide (P x) then Some x else None
  end.
Proof.
  rewrite filter_cons. destruct (decide (P x)) as [Hx|Hx]; [|by destruct (last _)].
  destruct (filter P l) as [|y l'] eqn:Hl; [done|].
  change (last (x :: y :: l')) with (last (y :: l')).
  destruct (last (y :: l')) eqn:Hlast; [done|].
  by apply last_None in Hlast.
Qed.

Lemma key_at_insert_ne (h : list table) (c c' : loc) (t : table) :
  c ≠ c' → key_at (<[c := t]> h) c' = key_at h c'.
Proof. intros Hne. unfold key_at. by rewrite list_lookup_insert_ne. Qed.

Lemma last_with_key_insert (h : list table) (c : loc) (t : table) k cs :
  c ∉ cs → last_with_key (<[c := t]> h) k cs = last_with_key h k cs.
Proof.
  intros Hc. unfold last_with_key. f_equal. apply filter_ext_elem.
  intros c' Hc'. rewrite key_at_insert_ne; [done|]. by intros ->.
Qed.

Lemma load_command_steps_last cmds st k :
  NoDup cmds →
  Forall (λ c, ∃ t, st.1 !! c = Some t ∧ is_Some (id_key t)) cmds →
  dict_get k (foldl load_command_step st cmds).2 =
  match last_with_key st.1 k cmds with
  | Some c => Some c
  | None => dict_get k st.2
  end.
Proof.
  revert st. induction cmds as [|c r IH]; intros st Hnd Hok; [done|].
  apply NoDup_cons in Hnd as [Hc Hnd].
  apply Forall_cons in Hok as [(t & Ht & [kc Hkc]) Hok].
  assert (load_command_step st c
          = (<[c := with_params t]> st.1, dict_set kc c st.2)) as Hstep
    by (unfold load_command_step; by rewrite Ht, Hkc).
  cbn [foldl]. rewrite IH; [|done|]; last first.
  { rewrite Hstep. simpl. rewrite Forall_forall in Hok. apply Forall_forall.
    intros c' Hc'. destruct (Hok c' Hc') as (t' & Ht' & Hk').
    exists t'. split; [|done].
    rewrite list_lookup_insert_ne; [done|]. by intros ->. }
  rewrite Hstep. cbn [fst snd]. rewrite last_with_key_insert by done.
  unfold last_with_key at 2. rewrite last_filter_cons.
  fold (last_with_key st.1 k r).
  destruct (last_with_key st.1 k r) as [c'|]; [done|].
  assert (key_at st.1 c = Some kc) as Hkey
    by (unfold key_at; by rewrite Ht).
  destruct (decide (key_at st.1 c = Some k)) as [Hk|Hk].
  - assert (k = kc) as -> by congruence. apply dict_get_set_eq.
  - apply dict_get_set_ne. intros ->. by apply Hk.
Qed.

(** X13: the command table holds exactly the ids of the document's
    definitions, each with the last definition of that id: unlike a game,
    a janitor command defined again replaces the earlier definition, and
    a command of an earlier load that the document no longer defines is
    gone. *)
Theorem janitor_command_last_definition_wins (s : state) (d : Doc.t loc)
    (cmds : list loc) :
  data (self s) = Some d →
  Doc.janitor_commands d = Some cmds →
  NoDup cmds →
  Forall (λ c, ∃ t, heap s !! c = Some t ∧ command_ok t) cmds →
  ∃ s', load_janitor_commands s = (Ok (), s') ∧
    ∀ k, dict_get k (janitor_commands (self s'))
         = last_with_key (heap s) k cmds.
Proof.
  intros Hd Hcmds Hnd Hok.
  rewrite (load_janitor_commands_unfold s d cmds) by done.
  rewrite load_janitor_commands_loop by done.
  eexists. split; [reflexivity|]. intros k. simpl.
  rewrite load_command_steps_last; [|done|].
  - simpl. by destruct (last_with_key (heap s) k cmds).
  - simpl. eapply Forall_impl; [exact Hok|].
    intros c (t & Ht & Hokt). exists t. split; [done|]. apply Hokt.
Qed.

Lemma janitor_command_last_definition_wins_witness :
  ∃ s', load_janitor_commands (state_commands [ban_command; ban_forever])
        = (Ok (), s') ∧
    dict_get (KStr "ban") (janitor_commands (self s')) = Some 1.
Proof.
  destruct (janitor_command_last_definition_wins
              (state_commands [ban_command; ban_forever])
              (doc_at 0 (config_with_commands [ban_command; ban_forever]))
              [0; 1] eq_refl eq_refl) as (s' & Hrun & Htable).
  - apply (bool_decide_unpack _). vm_compute. exact I.
  - apply Forall_cons. split.
    { exists ban_command. split; [reflexivity|]. by apply command_def_ok. }
    apply Forall_cons. split; [|constructor].
    exists ban_forever. split; [reflexivity|]. by apply command_def_ok.
  - exists s'. split; [exact Hrun|]. rewrite Htable. vm_compute. reflexivity.
Defined.

(** ** Argument templates with conversions, format specs and doubled
    braces *)

Lemma split_name_end (n : string) (c : ascii) (r : string) :
  no_char is_name_end n = true → is_name_end c = true →
  split_name (String.append n (String c r)) = (n, Some (c, r)).
Proof.
  intros Hn Hc. induction n as [|x n IH].
  - rewrite append_nil_l. simpl. unfold is_name_end in Hc. by rewrite Hc.
  - simpl in Hn. apply andb_true_iff in Hn as [Hx Hn].
    apply negb_true_iff in Hx. unfold is_name_end in Hx.
    rewrite append_cons. simpl. rewrite Hx. by rewrite IH.
Qed.

Lemma parse_field_body lit n conv spec :
  no_char is_name_end n = true →
  ∃ fs fc, parse_field lit (field_body n conv spec)
           = inr (Token lit (Some n) fs fc).
Proof.
  intros Hn. unfold parse_field, field_body.
  destruct conv as [c|], spec as [sp|].
  - rewrite append_cons, append_cons, append_nil_l.
    rewrite split_name_end by done. simpl. by eexists _, _.
  - rewrite append_nil_r. rewrite split_name_end by done. simpl.
    by eexists _, _.
  - rewrite append_nil_l. rewrite split_name_end by done. simpl.
    by eexists _, _.
  - rewrite append_nil_l, append_nil_r. rewrite split_name_simple by done.
    by eexists _, _.
Qed.

Lemma no_char_app p a b :
  no_char p a = true → no_char p b = true →
  no_char p (String.append a b) = true.
Proof.
  intros Ha Hb. induction a as [|c a IH]; [by rewrite append_nil_l|].
  simpl in Ha. apply andb_true_iff in Ha as [Hc Ha].
  rewrite append_cons. simpl. by rewrite Hc, IH.
Qed.

Lemma field_body_no_brace n conv spec :
  well_formed (PField n conv spec) = true →
  no_char is_brace (field_body n conv spec) = true.
Proof.
  simpl. intros [[[Hn _]%andb_true_iff Hc]%andb_true_iff Hs]%andb_true_iff.
  unfold field_body. apply no_char_app; [done|]. apply no_char_app.
  - destruct conv as [c|]; [|done]. simpl. by rewrite Hc.
  - destruct spec as [sp|]; [|done]. simpl. by rewrite Hs.
Qed.

(** A replacement field yields one token with its field name. *)
Lemma markup_piece_field n conv spec lit rest :
  well_formed (PField n conv spec) = true →
  ∃ fs fc,
    markup (InLiteral lit)
           (String.append (render_piece (PField n conv spec)) rest)
    = yield (Token lit (Some n) fs fc) (markup (InLiteral EmptyString) rest).
Proof.
  intros Hwf. pose proof (field_body_no_brace n conv spec Hwf) as Hbody.
  simpl in Hwf.
  apply andb_true_iff in Hwf as [[[_ Hn]%andb_true_iff _]%andb_true_iff _].
  destruct (parse_field_body lit n conv spec Hn) as (fs & fc & Hparse).
  exists fs, fc. cbn [render_piece]. rewrite append_cons.
  destruct (field_body n conv spec) as [|c body] eqn:Hb.
  - rewrite append_nil_l, append_cons, append_nil_l. cbn [markup].
    change (Ascii.eqb "{"%char "{"%char) with true.
    change (Ascii.eqb "}"%char "{"%char) with false.
    change (Ascii.eqb "}"%char "}"%char) with true. cbv iota.
    by rewrite Hparse.
  - simpl in Hbody. apply andb_true_iff in Hbody as [Hc Hbody].
    apply negb_true_iff in Hc. apply is_brace_false in Hc as [Hc1 Hc2].
    rewrite !append_cons. cbn [markup].
    change (Ascii.eqb "{"%char "{"%char) with true. cbv iota.
    rewrite Hc1, Hc2.
    rewrite append_assoc, markup_field_body by done.
    rewrite append_cons, append_nil_l. cbn [markup].
    change (Ascii.eqb "}"%char "{"%char) with false.
    change (Ascii.eqb "}"%char "}"%char) with true. cbv iota.
    unfold snoc. rewrite append_nil_l, append_cons, append_nil_l.
    by rewrite Hparse.
Qed.

Lemma markup_pieces (ps : list piece) (lit : string) :
  Forall (λ p, well_formed p = true) ps →
  (markup (InLiteral lit) (render_pieces ps)).2 = None ∧
  token_names (markup (InLiteral lit) (render_pieces ps)).1 = piece_names ps.
Proof.
  intros H. revert lit. induction H as [|p ps Hp _ IH]; intros lit.
  - simpl. by destruct lit.
  - destruct p as [s| | |n conv spec]; cbn [render_pieces piece_names].
    + cbn [render_piece]. rewrite markup_text by done. apply IH.
    + cbn [render_piece markup String.append].
      change (Ascii.eqb "{"%char "{"%char) with true. cbv iota.
      cbn [yield fst snd token_names field_name]. apply IH.
    + cbn [render_piece markup String.append].
      change (Ascii.eqb "}"%char "{"%char) with false.
      change (Ascii.eqb "}"%char "}"%char) with true. cbv iota.
      cbn [yield fst snd token_names field_name]. apply IH.
    + destruct (markup_piece_field n conv spec lit (render_pieces ps) Hp)
        as (fs & fc & ->).
      cbn [yield fst snd token_names field_name].
      destruct (IH EmptyString) as [-> ->]. split; [done|]. by destruct n.
Qed.

(** X14: for an argument template made of brace-free text, doubled
    braces and replacement fields [{name}], [{name!c}], [{name:spec}] or
    [{name!c:spec}], the command loads and its [params] are the names of
    the fields; a doubled brace, a conversion, a format spec and a field
    with an empty name ([{}], [{:>8}]) add no parameter. *)
Theorem janitor_command_params_of_fields (s : state) (d : Doc.t loc)
    (cmds : list loc) :
  data (self s) = Some d →
  Doc.janitor_commands d = Some cmds →
  NoDup cmds →
  Forall (λ c, ∃ t, heap s !! c = Some t ∧ command_ok t) cmds →
  ∃ s', load_janitor_commands s = (Ok (), s') ∧
    ∀ c t ps,
      c ∈ cmds → heap s !! c = Some t →
      t !! "argument" = Some (VStr (render_pieces ps)) →
      Forall (λ p, well_formed p = true) ps →
      ∃ t', heap s' !! c = Some t' ∧
            t' !! "params" = Some (VSet (list_to_set (piece_names ps))).
Proof.
  intros Hd Hcmds Hnd Hok.
  rewrite (load_janitor_commands_unfold s d cmds Hd Hcmds).
  rewrite load_janitor_commands_loop by done.
  eexists. split; [done|]. simpl.
  intros c t ps Hc Ht Harg Hps.
  rewrite Forall_forall in Hok. destruct (Hok c Hc) as (t0 & Ht0 & Hokt).
  assert (t0 = t) as -> by congruence.
  exists (with_params t). split.
  - apply load_command_steps_params; [done..|]. apply Hokt.
  - unfold with_params, command_template. rewrite Harg.
    rewrite lookup_insert_eq. unfold template_params, formatter_parse.
    by destruct (markup_pieces ps EmptyString Hps) as [_ ->].
Qed.

Lemma janitor_command_params_of_fields_witness :
  ∃ s', load_janitor_commands (state_commands [kick_command]) = (Ok (), s') ∧
    ∃ t', heap s' !! 0 = Some t' ∧
          t' !! "params" = Some (VSet {["target"]}).
Proof.
  destruct (janitor_command_params_of_fields
              (state_commands [kick_command])
              (doc_at 0 (config_with_commands [kick_command]))
              [0] eq_refl eq_refl) as (s' & Hrun & Hparams).
  - apply NoDup_singleton.
  - apply Forall_cons. split; [|constructor].
    exists kick_command. split; [reflexivity|]. by apply command_def_ok.
  - exists s'. split; [exact Hrun|].
    destruct (Hparams 0 kick_command
                [PText "kick "; PField "target" (Some "s"%char) None;
                 PText " "; POpen; PField "" None (Some ">8"); PClose])
      as (t' & Ht' & Hp).
    + apply list_elem_of_here.
    + reflexivity.
    + reflexivity.
    + repeat constructor.
    + exists t'. split; [exact Ht'|]. rewrite Hp. vm_compute. reflexivity.
Defined.

(** ** Templates that do not parse *)

Lemma markup_render_app (gs : list segment) (lit tail : string) :
  Forall (λ g, simple g = true) gs →
  ∃ toks lit',
    token_names toks = field_names gs ∧
    markup (InLiteral lit) (String.append (render gs) tail)
    = (toks ++ (markup (InLiteral lit') tail).1,
       (markup (InLiteral lit') tail).2).
Proof.
  intros H. revert lit. induction H as [|g gs Hg _ IH]; intros lit.
  - exists [], lit. simpl. rewrite append_nil_l. split; [done|].
    by destruct (markup (InLiteral lit) tail).
  - destruct g as [s|n]; cbn [render field_names].
    + cbn [render_segment]. rewrite append_assoc, markup_text by done.
      apply IH.
    + rewrite append_assoc, markup_field by done.
      destruct (IH EmptyString) as (toks & lit' & Hnames & ->).
      exists (Token lit (Some n) (Some EmptyString) None :: toks), lit'.
      split; [|done]. cbn [token_names field_name]. rewrite Hnames.
      simpl in Hg. by destruct n.
Qed.

Lemma markup_unclosed (lit n : string) :
  no_char is_brace n = true →
  markup (InLiteral lit) (String "{"%char n) = ([], Some ValueError).
Proof.
  intros Hn. destruct n as [|c n]; [done|].
  simpl in Hn. apply andb_true_iff in Hn as [Hc Hn].
  apply negb_true_iff, is_brace_false in Hc as [Hc1 Hc2].
  cbn [markup]. change (Ascii.eqb "{"%char "{"%char) with true. cbv iota.
  rewrite !Hc1, ?Hc2.
  rewrite <- (append_nil_r n), markup_field_body by done.
  done.
Qed.

(** A template with an opening brace that is never closed. *)
Lemma formatter_parse_unclosed (gs : list segment) (n : string) :
  Forall (λ g, simple g = true) gs → no_char is_brace n = true →
  ∃ toks, token_names toks = field_names gs ∧
    formatter_parse (String.append (render gs) (String "{"%char n))
    = (toks, Some ValueError).
Proof.
  intros Hgs Hn. unfold formatter_parse.
  destruct (markup_render_app gs EmptyString (String "{"%char n) Hgs)
    as (toks & lit' & Hnames & ->).
  exists toks. split; [done|]. rewrite markup_unclosed by done.
  simpl. by rewrite app_nil_r.
Qed.

Lemma load_janitor_command_unclosed cmd s t gs n :
  heap s !! cmd = Some t →
  Forall (λ f, is_Some (t !! f)) required_fields →
  t !! "argument" = Some (VStr (String.append (render gs) (String "{"%char n))) →
  Forall (λ g, simple g = true) gs → no_char is_brace n = true →
  load_janitor_command cmd s =
  (Raise ValueError,
   {| self := self s;
      heap := <[cmd := <["params" := VSet (placeholders gs)]> t]> (heap s);
      log := log s |}).
Proof.
  intros Ht Hfields Harg Hgs Hn.
  assert (cmd < length (heap s)) as Hlen by (by eapply lookup_lt_Some).
  destruct (formatter_parse_unclosed gs n Hgs Hn) as (toks & Hnames & Hparse).
  unfold load_janitor_command.
  rewrite (bind_ok _ _ _ _ _ (require_fields_ok cmd _ s t Ht Hfields)).
  erewrite bind_ok; last first.
  { unfold setitem. rewrite Ht. reflexivity. }
  erewrite bind_ok; last first.
  { unfold getitem, deref, bind. simpl.
    rewrite list_lookup_insert_eq by done.
    rewrite lookup_insert_ne by done. rewrite Harg. reflexivity. }
  cbv beta iota. rewrite Hparse.
  erewrite bind_raise; [reflexivity|].
  erewrite bind_ok; last first.
  { eapply add_params_run.
    - simpl. by apply list_lookup_insert_eq.
    - apply lookup_insert_eq. }
  unfold raise. simpl.
  rewrite list_insert_insert_eq, insert_insert_eq.
  unfold placeholders. by rewrite Hnames, union_empty_l_L.
Qed.

(** X15: a command whose four fields are present but whose argument
    template has an opening brace that is never closed makes
    [load_janitor_commands] raise [ValueError] (no exit, no log record):
    the commands before it are in the table, the command itself is not,
    and its [params] hold the field names read before the defect. *)
Theorem unclosed_template_raises (s : state) (d : Doc.t loc)
    (pre : list loc) (c : loc) (post : list loc) (t : table)
    (gs : list segment) (n : string) :
  data (self s) = Some d →
  Doc.janitor_commands d = Some (pre ++ c :: post) →
  NoDup (pre ++ c :: post) →
  Forall (λ c', ∃ t', heap s !! c' = Some t' ∧ command_ok t') pre →
  heap s !! c = Some t →
  Forall (λ f, is_Some (t !! f)) required_fields →
  t !! "argument"
    = Some (VStr (String.append (render gs) (String "{"%char n))) →
  Forall (λ g, simple g = true) gs →
  no_char is_brace n = true →
  ∃ s', load_janitor_commands s = (Raise ValueError, s') ∧
    log s' = log s ∧
    (∀ k, dict_get k (janitor_commands (self s'))
          = last_with_key (heap s) k pre) ∧
    ∃ t', heap s' !! c = Some t' ∧
          t' !! "params" = Some (VSet (placeholders gs)).
Proof.
  intros Hd Hcmds Hnd Hpre Ht Hfields Harg Hgs Hn.
  apply NoDup_app in Hnd as (Hnd_pre & Hdisj & Hnd_post).
  assert (c ∉ pre) as Hc.
  { intros Hin. apply (Hdisj c Hin). apply list_elem_of_here. }
  rewrite (load_janitor_commands_unfold s d _ Hd Hcmds).
  eexists. split.
  - eapply for_each_raise.
    + by apply load_janitor_commands_loop.
    + eapply (load_janitor_command_unclosed c _ t gs n); [|done..].
      simpl. by rewrite load_command_steps_other.
  - simpl. split; [done|]. split.
    + intros k. rewrite load_command_steps_last; [|done|].
      * simpl. by destruct (last_with_key (heap s) k pre).
      * simpl. eapply Forall_impl; [exact Hpre|].
        intros c' (t' & Ht' & Hokt). exists t'. split; [done|]. apply Hokt.
    + eexists. split; [|apply lookup_insert_eq].
      apply list_lookup_insert_eq.
      pose proof (load_command_steps_other pre (heap s, []) c Hc) as Hsame.
      simpl in Hsame. rewrite <- Hsame in Ht. by eapply lookup_lt_Some.
Qed.

Lemma unclosed_template_raises_witness :
  ∃ s', load_janitor_commands (state_commands [ban_command; unclosed_command])
        = (Raise ValueError, s') ∧
    log s' = [] ∧
    dict_get (KStr "ban") (janitor_commands (self s')) = Some 0 ∧
    dict_get (KStr "mute") (janitor_commands (self s')) = None ∧
    ∃ t', heap s' !! 1 = Some t' ∧
          t' !! "params" = Some (VSet {["target"]}).
Proof.
  destruct (unclosed_template_raises
              (state_commands [ban_command; unclosed_command])
              (doc_at 0 (config_with_commands [ban_command; unclosed_command]))
              [0] 1 [] unclosed_command
              [Text "mute "; Field "target"; Text " for "] "minutes"
              eq_refl eq_refl)
    as (s' & Hrun & Hlog & Htable & t' & Ht' & Hparams).
  - apply (bool_decide_unpack _). vm_compute. exact I.
  - apply Forall_cons. split; [|constructor].
    exists ban_command. split; [reflexivity|]. by apply command_def_ok.
  - reflexivity.
  - unfold required_fields, unclosed_command, command_def.
    repeat constructor; eexists; by simplify_map_eq.
  - reflexivity.
  - repeat constructor.
  - reflexivity.
  - exists s'. split; [exact Hrun|]. split; [exact Hlog|].
    rewrite !Htable. split; [vm_compute; reflexivity|].
    split; [vm_compute; reflexivity|].
    exists t'. split; [exact Ht'|]. rewrite Hparams. vm_compute. reflexivity.
Defined.

(** ** Games without a usable id *)

Lemma _load_game_data_bad_id fs g s t :
  heap s !! g = Some t → id_key t = None →
  _load_game_data fs g s = (Raise (bad_id_error t), s).
Proof.
  intros Ht Hk. unfold _load_game_data, getitem, deref, bind, bad_id_error.
  rewrite Ht. unfold id_key in Hk.
  destruct (t !! "id") as [id|]; [|done].
  unfold ret. destruct id; simpl in Hk; try done.
Qed.

Lemma bad_id_error_not_ValueError t : bad_id_error t ≠ ValueError.
Proof. unfold bad_id_error. by destruct (t !! "id"). Qed.

(** X16: a game of the main config file without an [id], or with an id
    that is not hashable, makes [load_games] raise [KeyError], or
    [TypeError]: the handler of duplicates does not catch it, the games
    after it are not registered and the fragment files are not read. *)
Theorem game_without_id_raises (fs : FileSystem) (s : state) (d : Doc.t loc)
    (pre : list loc) (g : loc) (post : list loc) (t : table) :
  data (self s) = Some d →
  Doc.games d = Some (pre ++ g :: post) →
  NoDup (pre ++ g :: post) →
  Forall (λ g', ∃ t', heap s !! g' = Some t' ∧ game_ok fs t') pre →
  heap s !! g = Some t →
  id_key t = None →
  ∃ s', load_games fs s = (Raise (bad_id_error t), s') ∧
        ∀ k g', dict_get k (games (self s')) = Some g' → g' ∈ pre.
Proof.
  intros Hd Hgames Hnd Hpre Ht Hk.
  apply NoDup_app in Hnd as (Hnd_pre & Hdisj & _).
  assert (g ∉ pre) as Hg.
  { intros Hin. apply (Hdisj g Hin). apply list_elem_of_here. }
  unfold load_games. unfold modify_self at 1. unfold bind at 1.
  unfold bind at 1. unfold get at 1. unfold get_self at 1, bind at 1.
  simpl. rewrite Hd. unfold ret at 1.
  assert (nonempty_list (Doc.games d) = true) as ->
    by (rewrite Hgames; by destruct pre).
  rewrite Hgames. simpl default.
  assert (games_inv (heap s) (path (self s)) (pre ++ g :: post) []
            {| self := set_games [] (self s); heap := heap s;
               log := log s |}) as Hinv0.
  { split; simpl.
    - done.
    - done.
    - constructor.
    - constructor.
    - done.
    - constructor.
    - intros pre' g' src post' t' id k Hnil. by destruct pre'.
    - exists d. by rewrite Hgames, app_nil_r. }
  destruct (register_loop fs _ _ _ (load_inline_game fs) None
              (load_inline_game_step fs _ _ _) pre [] _ Hinv0 Hnd_pre)
    as (s1 & Hrun1 & Hinv1 & Hdesc1 & _).
  { intros g' _ []%elem_of_nil. }
  { done. }
  simpl in Hdesc1, Hinv1.
  destruct (desc_lookup (heap s) (heap s1) g t Hdesc1 Ht)
    as (t1 & Ht1 & Hdesc).
  assert (id_key t1 = None) as Hk1
    by (by rewrite (game_desc_id_key t1 t Hdesc)).
  assert (bad_id_error t1 = bad_id_error t) as Herr.
  { unfold bad_id_error. unfold game_desc in Hdesc.
    by injection Hdesc as -> _ _. }
  exists s1. split.
  - apply bind_raise. eapply for_each_raise; [exact Hrun1|].
    unfold load_inline_game, try_except.
    rewrite (_load_game_data_bad_id fs g s1 t1 Ht1 Hk1).
    rewrite decide_False by apply bad_id_error_not_ValueError.
    by rewrite Herr.
  - intros k g' Hget. apply dict_get_elem_of in Hget.
    destruct (games_inv_registered _ _ _ _ _ _ _ Hinv1 Hget) as (Hin & _).
    by rewrite inline_candidates_locs in Hin.
Qed.

Lemma game_without_id_raises_witness :
  ∃ s', load_games fs_nameless_game (loaded fs_nameless_game "config.toml")
        = (Raise KeyError, s') ∧
        ∀ k g', dict_get k (games (self s')) = Some g' → g' ∈ [0].
Proof.
  apply (game_without_id_raises fs_nameless_game
           (loaded fs_nameless_game "config.toml")
           (doc_at 0 (config_with_games
                        [game_def "a" "dcss" "0.25"; nameless_game]))
           [0] 1 [] nameless_game).
  - reflexivity.
  - reflexivity.
  - apply (bool_decide_unpack _). vm_compute. exact I.
  - apply Forall_cons. split; [|constructor].
    exists (game_def "a" "dcss" "0.25"). split; [reflexivity|].
    apply game_def_ok.
  - reflexivity.
  - reflexivity.
Defined.

(** ** Fragment files *)

Lemma fragment_candidates_app fs n l1 l2 :
  fragment_candidates fs n (l1 ++ l2) =
  fragment_candidates fs n l1
  ++ fragment_candidates fs
       (n + length (concat (fragment_tables fs <$> l1))) l2.
Proof.
  revert n. induction l1 as [|f l1 IH]; intros n; simpl.
  - by rewrite Nat.add_0_r.
  - rewrite IH, <- app_assoc, length_app.
    by rewrite Nat.add_assoc.
Qed.

Lemma sorted_before (l : list string) (f1 f2 : string) :
  StronglySorted String.le l → f1 ∈ l → f2 ∈ l →
  String.le f1 f2 → f1 ≠ f2 →
  ∃ l1 l2, l = l1 ++ f2 :: l2 ∧ f1 ∈ l1.
Proof.
  intros Hsorted Hf1 Hf2 Hle Hne.
  apply list_elem_of_split in Hf2 as (l1 & l2 & ->).
  exists l1, l2. split; [done|].
  apply elem_of_app in Hf1 as [?|Hf1]; [done|].
  apply elem_of_cons in Hf1 as [?|Hf1]; [done|].
  apply StronglySorted_app_1_r in Hsorted.
  apply StronglySorted_inv in Hsorted as [_ Hall].
  destruct Hne. apply (anti_symm String.le); [done|].
  by apply (proj1 (Forall_forall _ _) Hall).
Qed.

Lemma fragment_files_sorted {O} fs (d : Doc.t O) :
  StronglySorted String.le (fragment_files fs d).
Proof.
  unfold fragment_files. destruct (Doc.games_conf_d d) as [[|c r]|];
    try constructor.
  destruct (isdir fs _); [|constructor].
  apply StronglySorted_merge_sort; apply _.
Qed.

(** The candidates of two definitions, the first in a file before the
    file of the second. *)
Lemma fragment_candidates_two fs n l1 f2 l2 f1 t1 t2 :
  f1 ∈ l1 → t1 ∈ fragment_tables fs f1 → t2 ∈ fragment_tables fs f2 →
  ∃ pre g1 g2 post,
    fragment_candidates fs n (l1 ++ f2 :: l2) = pre ++ (g2, Some f2) :: post ∧
    g1 ∈ pre.*1 ∧ n ≤ g1 ∧ n ≤ g2 ∧
    concat (fragment_tables fs <$> l1 ++ f2 :: l2) !! (g1 - n) = Some t1 ∧
    concat (fragment_tables fs <$> l1 ++ f2 :: l2) !! (g2 - n) = Some t2.
Proof.
  intros Hf1 Ht1 Ht2.
  destruct (fragment_candidates_elem fs n l1 f1 t1 Hf1 Ht1)
    as (p1 & g1 & q1 & Heq1 & Hle1 & Hl1).
  set (n' := n + length (concat (fragment_tables fs <$> l1))).
  destruct (fragment_candidates_elem fs n' (f2 :: l2) f2 t2) as
    (p2 & g2 & q2 & Heq2 & Hle2 & Hl2); [apply list_elem_of_here|done|].
  exists (p1 ++ (g1, Some f1) :: q1 ++ p2), g1, g2, q2.
  split; [|split; [|split; [|split; [|split]]]].
  - rewrite fragment_candidates_app. fold n'. rewrite Heq1, Heq2.
    rewrite <- !app_assoc. simpl. by rewrite <- ?app_assoc.
  - rewrite fmap_app, fmap_cons. apply elem_of_app. right.
    apply list_elem_of_here.
  - done.
  - unfold n' in Hle2. lia.
  - rewrite fmap_app, concat_app. by apply lookup_app_l_Some.
  - rewrite fmap_app, concat_app. rewrite lookup_app_r by (unfold n' in Hle2; lia).
    by replace (g2 - n - length (concat (fragment_tables fs <$> l1)))
      with (g2 - n') by (unfold n'; lia).
Qed.

(** X17: the fragment files are read in ascending order of their paths,
    whatever the order in which the directory lists them: a definition
    in a fragment file whose id is defined in a fragment file with a
    smaller path is reported as a duplicate, the warning naming the file
    with the greater path, and it is not registered. *)
Theorem later_fragment_file_loses (fs : FileSystem) (s : state)
    (d : Doc.t loc) (f1 f2 : string) (t1 t2 : table) (id : value)
    (k : hkey) :
  data (self s) = Some d →
  NoDup (default [] (Doc.games d)) →
  Forall (λ g, ∃ t, heap s !! g = Some t ∧ game_ok fs t)
         (default [] (Doc.games d)) →
  Forall (fragment_ok fs) (fragment_files fs d) →
  f1 ∈ fragment_files fs d → f2 ∈ fragment_files fs d →
  String.le f1 f2 → f1 ≠ f2 →
  t1 ∈ fragment_tables fs f1 → id_key t1 = Some k →
  t2 ∈ fragment_tables fs f2 → t2 !! "id" = Some id → id_key t2 = Some k →
  ∃ s' g2 t2',
    load_games fs s = (Ok (), s') ∧
    dup_warning (Some f2) (path (self s)) id ∈ log s' ∧
    length (heap s) ≤ g2 ∧
    heap s' !! g2 = Some t2' ∧ game_desc t2' = game_desc t2 ∧
    g2 ∉ registered s'.
Proof.
  intros Hd Hnd Hok Hfiles Hf1 Hf2 Hle Hne Ht1 Hk1 Ht2 Hid2 Hk2.
  destruct (load_games_run fs s d Hd Hnd Hok Hfiles)
    as (s' & Hrun & Hinv & Hdesc).
  destruct (sorted_before _ f1 f2 (fragment_files_sorted fs d) Hf1 Hf2 Hle Hne)
    as (l1 & l2 & Hsplit & Hf1').
  rewrite Hsplit in Hinv, Hdesc.
  destruct (fragment_candidates_two fs (length (heap s)) l1 f2 l2 f1 t1 t2
              Hf1' Ht1 Ht2)
    as (pre & g1 & g2 & post & Heq & Hg1 & Hle1 & Hle2 & Hl1 & Hl2).
  destruct (lookup_fragment _ _ _ _ _ Hdesc Hle1 Hl1) as (t1' & Ht1' & Hdt1).
  destruct (lookup_fragment _ _ _ _ _ Hdesc Hle2 Hl2) as (t2' & Ht2' & Hdt2).
  set (inline := default [] (Doc.games d)) in *.
  assert (first_with_key (heap s') k (inline_candidates inline ++ pre).*1
          ≠ None) as Hfound.
  { intros Hnone.
    apply (first_with_key_None _ _ _ g1 Hnone).
    - rewrite fmap_app. apply elem_of_app. by right.
    - unfold key_at. rewrite Ht1'. simpl.
      by rewrite (game_desc_id_key _ _ Hdt1). }
  rewrite Heq in Hinv.
  assert (inline_candidates inline ++ pre ++ (g2, Some f2) :: post
          = (inline_candidates inline ++ pre) ++ (g2, Some f2) :: post) as Hcs
    by by rewrite <- app_assoc.
  exists s', g2, t2'. split; [done|]. split; [|split; [done|split; [done|split; [done|]]]].
  - eapply (inv_warned _ _ _ _ _ Hinv (inline_candidates inline ++ pre) g2
              (Some f2) post t2' id k); [done|done| | |done].
    + unfold game_desc in Hdt2. congruence.
    + by rewrite (game_desc_id_key _ _ Hdt2).
  - intros Hreg. unfold registered in Hreg.
    apply list_elem_of_fmap in Hreg as ([k' g] & -> & Hin). simpl in *.
    destruct (games_inv_registered _ _ _ _ _ _ _ Hinv Hin)
      as (_ & Hkey & Hfirst).
    assert (k' = k) as ->.
    { unfold key_at in Hkey. rewrite Ht2' in Hkey. simpl in Hkey.
      rewrite (game_desc_id_key _ _ Hdt2) in Hkey. congruence. }
    rewrite Hcs, fmap_app in Hfirst.
    rewrite first_with_key_app_l in Hfirst by done.
    apply first_with_key_Some in Hfirst as [Hpre _].
    pose proof (inv_nodup _ _ _ _ _ Hinv) as Hnodup.
    rewrite Hcs, fmap_app, fmap_cons in Hnodup.
    apply NoDup_app in Hnodup as (_ & Hdisj & _).
    apply (Hdisj g Hpre). apply list_elem_of_here.
Qed.

Lemma fs_two_fragments_files :
  fragment_files fs_two_fragments
    (doc_at 0 (Doc.Make (Some ["root"]) (Some ["jan"]) None None None None
                        (Some "games.d") None None None))
  = ["games.d/10.toml"; "games.d/20.toml"].
Proof. vm_compute. reflexivity. Qed.

Lemma later_fragment_file_loses_witness :
  ∃ s' g2 t2',
    load_games fs_two_fragments (loaded fs_two_fragments "config.toml")
      = (Ok (), s') ∧
    dup_warning (Some "games.d/20.toml") "config.toml" (VStr "b") ∈ log s' ∧
    0 ≤ g2 ∧
    heap s' !! g2 = Some t2' ∧
    game_desc t2' = game_desc (game_def "b" "sprint" "0.25") ∧
    g2 ∉ registered s'.
Proof.
  apply (later_fragment_file_loses fs_two_fragments
           (loaded fs_two_fragments "config.toml")
           (doc_at 0 (Doc.Make (Some ["root"]) (Some ["jan"]) None None None
                               None (Some "games.d") None None None))
           "games.d/10.toml" "games.d/20.toml"
           (game_def "b" "dcss" "0.25") (game_def "b" "sprint" "0.25")
           (VStr "b") (KStr "b")).
  - reflexivity.
  - constructor.
  - constructor.
  - rewrite fs_two_fragments_files.
    apply Forall_cons. split.
    { intros _. split; [by eexists|]. eexists. split; [reflexivity|].
      simpl. apply Forall_cons. split; [apply game_def_ok|constructor]. }
    apply Forall_cons. split; [|constructor].
    intros _. split; [by eexists|]. eexists. split; [reflexivity|].
    simpl. apply Forall_cons. split; [apply game_def_ok|constructor].
  - rewrite fs_two_fragments_files. apply list_elem_of_here.
  - rewrite fs_two_fragments_files. apply list_elem_of_further, list_elem_of_here.
  - vm_compute. exact I.
  - discriminate.
  - apply list_elem_of_here.
  - reflexivity.
  - apply list_elem_of_here.
  - reflexivity.
  - reflexivity.
Defined.

(** ** Registered games and their maps *)

Lemma game_map_run (s : state) (id name : value) (k : hkey) (g : loc)
    (t : table) :
  py_hash id = inr k → dict_get k (games (self s)) = Some g →
  heap s !! g = Some t →
  game_map id name s =
  match t !! "game_maps" with
  | None => (Ok None, s)
  | Some game_maps =>
      (let* ms := lift (py_iter game_maps) in lift (game_map_loop name ms)) s
  end.
Proof.
  intros Hhash Hget Ht. unfold game_map. rewrite Hhash.
  unfold lift at 1, ret at 1, bind at 1. unfold get_self at 1, bind at 1.
  rewrite Hget. unfold deref, bind at 1. rewrite Ht.
  by destruct (t !! "game_maps").
Qed.

(** X18: registering a game and looking its maps up.  For a game that is
    not yet registered and has a [map_path]: with a [score_path] and a map
    file whose [maps] is a list, [_load_game_data] registers the game and
    [game_map] then searches the maps of the file; without a
    [score_path] the game is registered all the same, with a warning, and
    [game_map] finds no map of any name. *)
Theorem registered_game_maps (fs : FileSystem) (s : state) (g : loc)
    (t : table) (id map_path : value) (k : hkey) (map_name : value) :
  heap s !! g = Some t →
  t !! "id" = Some id → py_hash id = inr k →
  dict_get k (games (self s)) = None →
  t !! "map_path" = Some map_path →
  t !! "game_maps" = None →
  (∀ score_path dm ms,
     t !! "score_path" = Some score_path →
     toml_load fs map_path = Some dm → Doc.maps dm = Some (VList ms) →
     ∃ s', _load_game_data fs g s = (Ok (), s') ∧
           dict_get k (games (self s')) = Some g ∧
           (Forall (name_differs map_name) ms →
            game_map id map_name s' = (Ok None, s')) ∧
           (∀ pre m post,
              ms = pre ++ m :: post →
              Forall (name_differs map_name) pre → name_equals map_name m →
              game_map id map_name s' = (Ok (Some m), s'))) ∧
  (t !! "score_path" = None →
     ∃ s', _load_game_data fs g s = (Ok (), s') ∧
           dict_get k (games (self s')) = Some g ∧
           LogRecord WARNING
             "Not parsing game map for game definition '{0}' because it has no score_path"
             [id] ∈ log s' ∧
           game_map id map_name s' = (Ok None, s')).
Proof.
  intros Ht Hid Hhash Hnew Hmap Hnomaps.
  assert (id_key t = Some k) as Hk by (unfold id_key; by rewrite Hid, Hhash).
  assert (g < length (heap s)) as Hlen by (by eapply lookup_lt_Some).
  assert (dict_get k (games (self s) ++ [(k, g)]) = Some g) as Hreg.
  { rewrite dict_get_app_new, Hnew. by rewrite decide_True. }
  split.
  - intros score_path dm ms Hscore Htoml Hmaps.
    rewrite (_load_game_data_new fs g s t k Ht Hk) by
      (done || (unfold map_loads; by rewrite Hmap, Hscore, Htoml, Hmaps)).
    assert (with_maps fs t = <["game_maps" := VList ms]> t) as ->.
    { unfold with_maps. rewrite Hmap, Hscore, Htoml. simpl. by rewrite Hmaps. }
    eexists. split; [reflexivity|]. split; [exact Hreg|].
    rewrite (game_map_run _ id map_name k g (<["game_maps" := VList ms]> t));
      [|done|exact Hreg|by apply list_lookup_insert_eq].
    rewrite lookup_insert_eq. simpl. split.
    + intros Hall. unfold bind, ret. simpl.
      by rewrite (game_map_loop_miss map_name ms Hall).
    + intros pre m post -> Hpre Hm. unfold bind, ret. simpl.
      by rewrite (game_map_loop_hit map_name pre m post Hpre Hm).
  - intros Hscore.
    rewrite (_load_game_data_new fs g s t k Ht Hk) by
      (done || (unfold map_loads; by rewrite Hmap, Hscore)).
    assert (with_maps fs t = t) as ->.
    { unfold with_maps. by rewrite Hmap, Hscore. }
    eexists. split; [reflexivity|]. split; [exact Hreg|].
    split.
    { simpl. unfold loaded_log. rewrite Hid, Hmap, Hscore.
      apply elem_of_app. right. apply list_elem_of_here. }
    rewrite (game_map_run _ id map_name k g t);
      [|done|exact Hreg|by apply list_lookup_insert_eq].
    by rewrite Hnomaps.
Qed.

Lemma registered_game_maps_witness :
  ∃ s', _load_game_data fs_with_maps 0
          {| self := set_games [] (self (loaded fs_with_maps "config.toml"));
             heap := heap (loaded fs_with_maps "config.toml");
             log := [] |}
        = (Ok (), s') ∧
        dict_get (KStr "dcss") (games (self s')) = Some 0 ∧
        game_map (VStr "dcss") (VStr "Orc") s' = (Ok (Some orc_map), s').
Proof.
  destruct (registered_game_maps fs_with_maps
              {| self := set_games [] (self (loaded fs_with_maps "config.toml"));
                 heap := heap (loaded fs_with_maps "config.toml");
                 log := [] |}
              0 game_with_maps (VStr "dcss") (VStr "maps.toml") (KStr "dcss")
              (VStr "Orc") eq_refl eq_refl eq_refl eq_refl eq_refl eq_refl)
    as [Hmaps _].
  destruct (Hmaps (VStr "scores")
              (Doc.Make None None None None None None None None None
                        (Some (VList [lair_map; orc_map])))
              [lair_map; orc_map] eq_refl eq_refl eq_refl)
    as (s' & Hrun & Hreg & _ & Hlookup).
  exists s'. split; [exact Hrun|]. split; [exact Hreg|].
  apply (Hlookup [lair_map] orc_map []); [reflexivity| |].
  - apply Forall_cons. split; [|constructor].
    exists (VStr "Lair"). by split.
  - exists (VStr "Orc"). by split.
Defined.

(** ** The registry and the games list *)

(** X19: after [load_games] every registered game is in the games list
    of the document, which is sent to the client, and no game is in that
    list twice; each key of the registry is the id of the game it maps
    to. *)
Theorem registered_games_are_listed (fs : FileSystem) (s : state)
    (d : Doc.t loc) :
  data (self s) = Some d →
  NoDup (default [] (Doc.games d)) →
  Forall (λ g, ∃ t, heap s !! g = Some t ∧ game_ok fs t)
         (default [] (Doc.games d)) →
  Forall (fragment_ok fs) (fragment_files fs d) →
  ∃ s' d' l,
    load_games fs s = (Ok (), s') ∧
    data (self s') = Some d' ∧ Doc.games d' = Some l ∧
    NoDup l ∧
    ∀ k g, dict_get k (games (self s')) = Some g →
           g ∈ l ∧ key_at (heap s') g = Some k.
Proof.
  intros Hd Hnd Hok Hfiles.
  destruct (load_games_run fs s d Hd Hnd Hok Hfiles)
    as (s' & Hrun & Hinv & Hdesc).
  set (inline := default [] (Doc.games d)) in *.
  set (files := fragment_files fs d) in *.
  destruct (inv_data _ _ _ _ _ Hinv) as (d' & Hd' & Hgames).
  assert (∀ g, g ∈ inline → g < length (heap s)) as Hlt.
  { intros g Hg. rewrite Forall_forall in Hok.
    destruct (Hok g Hg) as (t & Ht & _). by eapply lookup_lt_Some. }
  assert (fragment_locs (inline_candidates inline
                         ++ fragment_candidates fs (length (heap s)) files)
          = seq (length (heap s))
                (length (concat (fragment_tables fs <$> files)))) as Hfrag.
  { unfold fragment_locs. rewrite omap_app.
    fold (fragment_locs (inline_candidates inline)).
    fold (fragment_locs (fragment_candidates fs (length (heap s)) files)).
    rewrite inline_candidates_fragment_locs.
    by destruct (fragment_candidates_locs fs (length (heap s)) files)
      as [_ ->]. }
  rewrite Hfrag in Hgames.
  eexists s', d', _. split; [done|]. split; [done|]. split; [exact Hgames|].
  split.
  - apply NoDup_app. split; [done|]. split.
    + intros g Hg [_ Hseq]%list_elem_of_filter.
      apply elem_of_seq in Hseq. specialize (Hlt g Hg). lia.
    + apply NoDup_filter, NoDup_seq.
  - intros k g Hget. apply dict_get_elem_of in Hget.
    destruct (games_inv_registered _ _ _ _ _ k g Hinv Hget)
      as (Hcand & Hkey & _).
    split; [|done].
    rewrite fmap_app, inline_candidates_locs in Hcand.
    apply elem_of_app in Hcand as [Hin|Hin]; apply elem_of_app; [by left|].
    right. apply list_elem_of_filter. split.
    + unfold registered. apply list_elem_of_fmap. by exists (k, g).
    + by destruct (fragment_candidates_locs fs (length (heap s)) files)
        as [<- _].
Qed.

Lemma registered_games_are_listed_witness :
  ∃ s' d' l,
    load_games fs_dup_games (loaded fs_dup_games "config.toml")
      = (Ok (), s') ∧
    data (self s') = Some d' ∧ Doc.games d' = Some l ∧
    NoDup l ∧
    ∀ k g, dict_get k (games (self s')) = Some g →
           g ∈ l ∧ key_at (heap s') g = Some k.
Proof.
  destruct fs_dup_games_wf as (Hd & Hnd & Hok & Hfiles).
  exact (registered_games_are_listed fs_dup_games
           (loaded fs_dup_games "config.toml")
           (doc_at 0 config_dup_games) Hd Hnd Hok Hfiles).
Defined.

(** ** A fragment directory that is not there *)

(** X20: when [games_conf_d] names something that is not a directory,
    [load_games] returns after the games of the main config file: the
    last log record is the warning, no fragment is read (no dict object
    is added) and the games list of the document is the list of the main
    config file. *)
Theorem missing_games_dir_is_ignored (fs : FileSystem) (s : state)
    (d : Doc.t loc) (dir : string) :
  data (self s) = Some d →
  NoDup (default [] (Doc.games d)) →
  Forall (λ g, ∃ t, heap s !! g = Some t ∧ game_ok fs t)
         (default [] (Doc.games d)) →
  Doc.games_conf_d d = Some dir → dir ≠ EmptyString →
  isdir fs dir = false →
  ∃ s' d',
    load_games fs s = (Ok (), s') ∧
    last (log s') = Some not_a_directory_warning ∧
    length (heap s') = length (heap s) ∧
    data (self s') = Some d' ∧
    Doc.games d' = Some (default [] (Doc.games d)) ∧
    ∀ k g, dict_get k (games (self s')) = Some g →
           g ∈ default [] (Doc.games d).
Proof.
  intros Hd Hnd Hok Hdir Hne Hisdir.
  assert (fragment_files fs d = []) as Hfiles.
  { unfold fragment_files. rewrite Hdir. destruct dir; [done|].
    by rewrite Hisdir. }
  destruct (load_games_run fs s d Hd Hnd Hok) as (s' & Hrun & Hinv & Hdesc).
  { rewrite Hfiles. constructor. }
  rewrite Hfiles in Hinv, Hdesc. simpl in Hinv, Hdesc.
  rewrite app_nil_r in Hinv, Hdesc.
  destruct (inv_data _ _ _ _ _ Hinv) as (d' & Hd' & Hgames).
  rewrite inline_candidates_fragment_locs in Hgames. simpl in Hgames.
  rewrite app_nil_r in Hgames.
  exists s', d'. split; [done|]. split; [|split; [|split; [done|split; [done|]]]].
  - (* the last step of [load_games] is [_load_game_conf_dir] *)
    unfold load_games in Hrun.
    apply bind_ok_inv in Hrun as ([] & s0 & Hrun0 & Hrun).
    apply bind_ok_inv in Hrun as (gs & s1 & Hrun1 & Hrun).
    apply bind_ok_inv in Hrun as ([] & s2 & Hrun2 & Hrun).
    assert (on_self same_but_games s s0) as H0.
    { eapply (preserves_modify_self same_but_games); [|exact Hrun0].
      intros c. apply same_but_games_set_games. }
    assert (on_self same_but_games s0 s1) as H1.
    { eapply (preserves_frame same_but_games (get Doc.games));
        [apply frame_get|exact Hrun1]. }
    assert (on_self same_but_games s1 s2) as H2.
    { revert Hrun2. destruct (nonempty_list gs).
      - apply preserves_for_each; [apply _|].
        intros g. apply load_inline_game_same_but_games.
      - unfold get_self, modify_self, bind.
        destruct (data (self s1)) as [d1|] eqn:Hd1; intros [= <-].
        by apply same_but_games_with_games. }
    assert (on_self same_but_games s s2) as (_ & Hset & _)
      by (etrans; [exact H0|]; etrans; [exact H1|exact H2]).
    unfold settings in Hset. rewrite Hd in Hset.
    destruct (data (self s2)) as [d2|] eqn:Hd2; [|done].
    assert (Doc.games_conf_d d2 = Doc.games_conf_d d) as Hdir2.
    { apply (f_equal (λ o, o ≫= Doc.games_conf_d)) in Hset.
      exact Hset. }
    revert Hrun. unfold _load_game_conf_dir, get, get_self, ret, bind.
    rewrite Hd2. cbv beta iota.
    rewrite Hdir2, Hdir. destruct dir as [|c dir]; [done|]. simpl.
    rewrite Hisdir. simpl. intros [= <-]. simpl. by rewrite last_snoc.
  - by rewrite <- (length_fmap game_desc (heap s')), Hdesc, length_fmap.
  - intros k g Hget. apply dict_get_elem_of in Hget.
    destruct (games_inv_registered _ _ _ _ _ _ _ Hinv Hget) as (Hin & _).
    by rewrite inline_candidates_locs in Hin.
Qed.

Lemma missing_games_dir_is_ignored_witness :
  ∃ s' d',
    load_games fs_no_games_dir (loaded fs_no_games_dir "config.toml")
      = (Ok (), s') ∧
    last (log s') = Some not_a_directory_warning ∧
    length (heap s') = 1 ∧
    data (self s') = Some d' ∧
    Doc.games d' = Some [0] ∧
    ∀ k g, dict_get k (games (self s')) = Some g → g ∈ [0].
Proof.
  apply (missing_games_dir_is_ignored fs_no_games_dir
           (loaded fs_no_games_dir "config.toml")
           (doc_at 0 (Doc.Make (Some ["root"]) (Some ["jan"]) None None None
                               None (Some "games.d") None
                               (Some [game_def "a" "dcss" "0.25"]) None))
           "games.d").
  - reflexivity.
  - apply NoDup_singleton.
  - apply Forall_cons. split; [|constructor].
    exists (game_def "a" "dcss" "0.25"). split; [reflexivity|].
    apply game_def_ok.
  - reflexivity.
  - discriminate.
  - reflexivity.
Defined.

(** ** Instances *)

Lemma load_games_only_attaches_maps_witness :
  ∃ t', heap (load_games fs_with_maps
                (loaded fs_with_maps "config.toml")).2 !! 0 = Some t' ∧
        ∀ key, key ≠ "game_maps" → t' !! key = game_with_maps !! key.
Proof.
  apply (load_games_only_attaches_maps fs_with_maps
           (loaded fs_with_maps "config.toml") 0 game_with_maps).
  reflexivity.
Defined.

Lemma identity_lookups_after_load_witness :
  (∃ b, is_server_admin "Root" (loaded fs_devteam "config.toml")
        = (Ok b, loaded fs_devteam "config.toml") ∧
        (b = true ↔
         ∃ a, a ∈ default [] (Doc.server_admins config_with_devteam) ∧
              lower a = lower "Root")) ∧
  (∃ b, is_server_janitor "Root" (loaded fs_devteam "config.toml")
        = (Ok b, loaded fs_devteam "config.toml") ∧
        (b = true ↔
         (∃ a, a ∈ default [] (Doc.server_janitors config_with_devteam)
                   ++ default [] (Doc.server_admins config_with_devteam) ∧
               lower a = lower "Root") ∨
         (is_true (Doc.devs_are_server_janitors config_with_devteam) = true ∧
          ∃ row, row ∈ devteam_rows fs_devteam config_with_devteam ∧
                 lower "Root" ∈ row))).
Proof.
  apply (identity_lookups_after_load fs_devteam (init_state "config.toml")
           (loaded fs_devteam "config.toml") config_with_devteam "Root");
    vm_compute; reflexivity.
Defined.

Lemma title_roster_last_row_wins_witness :
  ∃ pt,
    player_titles
      (self (load_player_titles fs_title_twice
               (state_after_devteam "config.toml"
                  (config_with_titles ["slayer"]) [])).2) = Some pt ∧
    dict_get (KStr (lower "slayer")) pt = Some (lower <$> ["bob"]).
Proof.
  apply (title_roster_last_row_wins fs_title_twice
           (state_after_devteam "config.toml" (config_with_titles ["slayer"]) [])
           _ (doc_at 0 (config_with_titles ["slayer"]))
           [["Slayer"; "alice"]] "slayer" ["bob"] []).
  - reflexivity.
  - reflexivity.
  - vm_compute. reflexivity.
  - reflexivity.
  - constructor.
Defined.

Lemma devteam_last_row_wins_witness :
  dict_get (KStr "Alice")
    (devteam (self (loaded fs_devteam_twice "config.toml")))
  = Some (lower <$> ["ALLY"]).
Proof.
  apply (devteam_last_row_wins fs_devteam_twice (init_state "config.toml")
           (loaded fs_devteam_twice "config.toml") config_with_devteam
           [["Alice"; "al"]] "Alice" ["ALLY"] []).
  - reflexivity.
  - reflexivity.
  - reflexivity.
  - vm_compute. reflexivity.
  - reflexivity.
  - constructor.
Defined.

Lemma player_title_is_lowercase_witness :
  "champion" ∈ default [] (Doc.title_names
                             (doc_at 0 (config_with_titles
                                          ["Slayer"; "champion"]))) ∧
  lower "champion" = "champion".
Proof.
  apply (player_title_is_lowercase (fs_titles ["Slayer"; "champion"])
           (state_after_devteam "config.toml"
              (config_with_titles ["Slayer"; "champion"]) [])
           (load_player_titles (fs_titles ["Slayer"; "champion"])
              (state_after_devteam "config.toml"
                 (config_with_titles ["Slayer"; "champion"]) [])).2
           (doc_at 0 (config_with_titles ["Slayer"; "champion"]))
           "alice" "champion").
  - reflexivity.
  - reflexivity.
  - vm_compute. reflexivity.
  - vm_compute. reflexivity.
Defined.

Lemma get_devname_any_letter_case_witness :
  ∃ dname members,
    get_devname insertion_order "AL" (loaded fs_devteam "config.toml")
      = (Ok (Some dname), loaded fs_devteam "config.toml") ∧
    (KStr dname, members) ∈ devteam (self (loaded fs_devteam "config.toml")) ∧
    (lower dname = lower "AL" ∨ lower "AL" ∈ members).
Proof.
  apply (get_devname_any_letter_case fs_devteam (init_state "config.toml")
           (loaded fs_devteam "config.toml") config_with_devteam
           insertion_order [] "Alice" ["al"] [["bob"]] "al" "AL").
  - reflexivity.
  - reflexivity.
  - reflexivity.
  - vm_compute. reflexivity.
  - done.
  - reflexivity.
  - apply Forall_cons. split; [discriminate|constructor].
  - apply list_elem_of_further, list_elem_of_here.
  - reflexivity.
Defined.
